(** * PTHash: partitioned builder and function objects

    A shallow embedding of
    - [internal_memory_builder_partitioned_phf] (build_from_keys,
      build_from_hashes, build_partitions),
    - [single_phf] (build, position, operator(), the accessors, num_bits
      and its two parts),
    - [partitioned_phf] (build_in_internal_memory, build, position,
      operator(), the accessors, num_bits and its two parts),
    with the collaborators that live in other headers (hasher, bucketers,
    encoders, fastmod, the single builder, libm) taken as interfaces. *)

From Stdlib Require Import String ZArith List Lia Bool Floats Permutation.
From Stdlib Require Import Setoid Morphisms.
Import ListNotations.
Local Open Scope Z_scope.

(** ** 64-bit unsigned integers

    A [uint64_t] is a [Z] in [[0, 2^64)]; arithmetic wraps. *)

Definition u64_modulus : Z := 2 ^ 64.

Definition wrap64 (x : Z) : Z := x mod u64_modulus.

Definition is_u64 (x : Z) : Prop := 0 <= x < u64_modulus.

(** ** Doubles

    [double] is the kernel's binary64 [float].  The three conversions the
    sources use are written out over the specification floats. *)

(** [static_cast<double>(n)] for an unsigned 64-bit [n]: round to nearest
    even. *)
Definition u64_to_double (n : Z) : float :=
  SF2Prim (binary_normalize prec emax n 0 false).

(** The integer part of a non-negative finite double, dropped towards
    zero. *)
Definition trunc_mantissa (m : positive) (e : Z) : Z :=
  if 0 <=? e then Zpos m * 2 ^ e else Zpos m / 2 ^ (- e).

(** The implicit conversion [uint64_t x = d].  It truncates towards zero.
    C++ leaves it undefined when the truncated value is not a [uint64_t]
    (negative below -1, 2^64 and above, infinities, NaN); the model gives
    0, respectively the wrapped value, there, and no theorem below depends
    on that choice. *)
Definition double_to_u64 (x : float) : Z :=
  match Prim2SF x with
  | S754_finite false m e => wrap64 (trunc_mantissa m e)
  | _ => 0
  end.

(** [std::ceil] on doubles. *)
Definition double_ceil (x : float) : float :=
  match Prim2SF x with
  | S754_finite s m e =>
      if 0 <=? e then x
      else
        let q := Zpos m / 2 ^ (- e) in
        let r := Zpos m mod 2 ^ (- e) in
        if s then (if q =? 0 then neg_zero else (- u64_to_double q)%float)
        else u64_to_double (if r =? 0 then q else q + 1)
  | _ => x
  end.

(** ** Errors and the state-and-exception monad

    A member function either returns or throws; either way it leaves the
    object in some state.  [M S A] threads the object's fields. *)

Inductive exception : Type :=
| std_invalid_argument (what : string)
| std_runtime_error (what : string).

Inductive outcome (A : Type) : Type :=
| Returns (a : A)
| Throws (e : exception).

Arguments Returns {A} a.
Arguments Throws {A} e.

Definition M (S A : Type) : Type := S -> S * outcome A.

Definition ret {S A : Type} (a : A) : M S A := fun s => (s, Returns a).

Definition throw {S A : Type} (e : exception) : M S A := fun s => (s, Throws e).

Definition bind {S A B : Type} (m : M S A) (k : A -> M S B) : M S B :=
  fun s =>
    match m s with
    | (s', Returns a) => k a s'
    | (s', Throws e) => (s', Throws e)
    end.

Definition assign {S : Type} (f : S -> S) : M S unit := fun s => (f s, Returns tt).

Definition read {S A : Type} (f : S -> A) : M S A := fun s => (s, Returns (f s)).

Declare Scope m_scope.
Delimit Scope m_scope with m.
Notation "x <- m ;; k" := (bind m (fun x => k))
  (at level 61, m at next level, right associativity) : m_scope.
Notation "m ;; k" := (bind m (fun _ => k))
  (at level 61, right associativity) : m_scope.

(** ** Configuration and timings

    Both structs are declared in builders/util.hpp, which is not among the
    sources. *)

(** Modelled from the spec: [build_configuration] is missing; these are the
    attributes of [BuildConfig] (section 3) that the sources read or
    write, under the names the sources use. *)
Record build_configuration : Type := {
  c : float;
  alpha : float;
  num_partitions : Z;
  num_buckets : Z;
  num_threads : Z;
  seed : Z;
  minimal_output : bool;
  verbose_output : bool
}.

(** Modelled from the spec: [build_timings] is missing; these are the four
    durations of [BuildTimings] (section 3), in seconds. *)
Record build_timings : Type := {
  partitioning_seconds : float;
  mapping_ordering_seconds : float;
  searching_seconds : float;
  encoding_seconds : float
}.

(** Modelled from the spec: the default constructor of [build_timings] is
    missing.  The timings are "populated during build" and the sources
    accumulate into a freshly declared object with [+=] and take maxima
    against it, so every field starts at zero. *)
Definition build_timings_default : build_timings :=
  {| partitioning_seconds := 0;
     mapping_ordering_seconds := 0;
     searching_seconds := 0;
     encoding_seconds := 0 |}.

(** ** Vectors *)

Definition zsum (l : list Z) : Z := fold_right Z.add 0 l.

(** [v[i] = f(v[i])]; an index past the end leaves the vector as it is (in
    C++ the access is undefined there). *)
Fixpoint update_at {A : Type} (i : nat) (f : A -> A) (v : list A) : list A :=
  match v, i with
  | [], _ => []
  | x :: v', O => f x :: v'
  | x :: v', S i' => x :: update_at i' f v'
  end.

(** [v.resize(n)] on a vector, new slots holding [d]. *)
Definition resize {A : Type} (n : nat) (d : A) (v : list A) : list A :=
  firstn n v ++ repeat d (n - length v).

(** No number occurs twice in the list. *)
Fixpoint distinct (l : list Z) : bool :=
  match l with
  | [] => true
  | x :: l' => negb (existsb (Z.eqb x) l') && distinct l'
  end.

(** ** Collaborators

    The headers below are included by the sources but are not part of
    them; each is taken as an interface. *)

(** [Hasher::hash(key, seed)] and [Hasher::hash_type]: a digest with two
    64-bit halves and [mix()]. *)
Class Hasher : Type := {
  key_type : Type;
  hash_type : Type;
  hash : key_type -> Z -> hash_type;
  hash_first : hash_type -> Z;
  hash_second : hash_type -> Z;
  hash_mix : hash_type -> Z
}.

(** utils/bucketers.hpp, [uniform_bucketer]: [init(n)] and [bucket(x)]. *)
Class UniformBucketer : Type := {
  uniform_bucketer : Type;
  uniform_init : Z -> uniform_bucketer;
  uniform_bucket : uniform_bucketer -> Z -> Z
}.

(** utils/bucketers.hpp, [skew_bucketer]: the default-constructed object,
    [bucket(x)] and [num_buckets()]. *)
Class SkewBucketer : Type := {
  skew_bucketer : Type;
  skew_default : skew_bucketer;
  skew_bucket : skew_bucketer -> Z -> Z;
  skew_num_buckets : skew_bucketer -> Z
}.

(** The [Encoder] template parameter, an integer-sequence codec:
    [encode(begin, n)] replaces the codec's state, [access(i)] reads it. *)
Class Encoder : Type := {
  encoder : Type;
  encoder_default : encoder;
  encode : list Z -> Z -> encoder;
  access : encoder -> Z -> Z
}.

(** [bits::elias_fano<false, false>], the codec of the free slots. *)
Class EliasFano : Type := {
  elias_fano : Type;
  ef_default : elias_fano;
  ef_encode : list Z -> Z -> elias_fano;
  ef_access : elias_fano -> Z -> Z
}.

(** fastmod, the pilot hash, the library constants and the guard of
    builders/util.hpp, and [std::log2] of libm. *)
Class Primitives : Type := {
  computeM_u64 : Z -> Z;
  fastmod_u64 : Z -> Z -> Z -> Z;
  default_hash64 : Z -> Z -> Z;
  min_partition_size : Z;
  invalid_seed : Z;
  check_hash_collision_probability : Z -> option exception;
  std_log2 : float -> float
}.

(** What the collaborators report of their own size: [num_bits()] of the two
    bucketers and of the [Encoder], [num_bytes()] of
    [bits::elias_fano]. *)
Class SpaceUsage (UB : UniformBucketer) (SB : SkewBucketer) (E : Encoder)
  (EF : EliasFano) : Type := {
  uniform_num_bits : uniform_bucketer -> Z;
  skew_num_bits : skew_bucketer -> Z;
  encoder_num_bits : encoder -> Z;
  ef_num_bytes : elias_fano -> Z
}.

(** builders/internal_memory_builder_single_phf.hpp: the sub-builder, its
    [build_from_hashes] as a function from the object's state before the
    call to its state after, and its accessors.  This is a call that
    returns.  A call that throws (a seed that does not work out) is not
    part of the model: the partitioned builder is given as it goes when
    every sub-builder returns, and the statements on errors below speak of
    the guards that come before the first sub-builder is called, or take
    the outcome of the builder as they find it. *)
Class SingleBuilder (H : Hasher) (SB : SkewBucketer) : Type := {
  single_builder : Type;
  single_builder_default : single_builder;
  single_build_from_hashes :
    single_builder -> list hash_type -> Z -> build_configuration -> single_builder;
  sb_seed : single_builder -> Z;
  sb_num_keys : single_builder -> Z;
  sb_table_size : single_builder -> Z;
  sb_bucketer : single_builder -> skew_bucketer;
  sb_pilots : single_builder -> list Z;
  sb_free_slots : single_builder -> list Z
}.

(** ** The thread pool of [build_partitions] and [partitioned_phf::build]

    Both functions split the index range [[0, num_partitions)] into
    [num_threads] contiguous ranges and run the same loop [exe] on each.
    [work i] is what the loop body does to slot [i] of the shared vector,
    [tick i] what it does to the thread's own timings. *)

Record thread : Type := {
  th_begin : Z;
  th_end : Z;
  th_timings : build_timings
}.

Section ThreadPool.

Variable A : Type.
Variable work : nat -> A -> A.
Variable tick : nat -> build_timings -> build_timings.

Record pool : Type := {
  slots : list A;
  threads : list thread
}.

(** One iteration of the loop [for (; begin != end; ++begin)] of [exe]. *)
Definition exe_body (th : thread) (v : list A) : thread * list A :=
  let i := Z.to_nat (th_begin th) in
  ({| th_begin := wrap64 (th_begin th + 1);
      th_end := th_end th;
      th_timings := tick i (th_timings th) |},
   update_at i (work i) v).

(** The interleaving semantics: any thread that has not reached its [end]
    may run its next iteration. *)
Inductive par_step : pool -> pool -> Prop :=
| par_step_thread (p : pool) (t : nat) (th : thread) :
    nth_error (threads p) t = Some th ->
    th_begin th <> th_end th ->
    par_step p {| slots := snd (exe_body th (slots p));
                  threads := update_at t (fun _ => fst (exe_body th (slots p)))
                                       (threads p) |}.

Inductive par_steps : pool -> pool -> Prop :=
| par_steps_refl (p : pool) : par_steps p p
| par_steps_step (p q r : pool) : par_step p q -> par_steps q r -> par_steps p r.

(** Every thread is joinable and has left its loop. *)
Definition joined (p : pool) : Prop :=
  Forall (fun th => th_begin th = th_end th) (threads p).

(** [exe] run to its end by one thread alone. *)
Fixpoint exe (fuel : nat) (th : thread) (v : list A) : thread * list A :=
  match fuel with
  | O => (th, v)
  | S fuel' =>
      if th_begin th =? th_end th then (th, v)
      else let '(th', v') := exe_body th v in exe fuel' th' v'
  end.

(** [(num_partitions + num_threads - 1) / num_threads]. *)
Definition num_partitions_per_thread (num_partitions num_threads : Z) : Z :=
  wrap64 (wrap64 (num_partitions + num_threads) - 1) / num_threads.

(** The loop that starts the threads: thread [i] gets [[begin, end)]. *)
Fixpoint spawn (n : nat) (begin per_thread num_partitions : Z) : list thread :=
  match n with
  | O => []
  | S n' =>
      let end0 := wrap64 (begin + per_thread) in
      let end1 := if num_partitions <? end0 then num_partitions else end0 in
      {| th_begin := begin; th_end := end1; th_timings := build_timings_default |}
        :: spawn n' end1 per_thread num_partitions
  end.

Definition start_pool (v : list A) (num_partitions num_threads : Z) : pool :=
  {| slots := v;
     threads := spawn (Z.to_nat num_threads) 0
                      (num_partitions_per_thread num_partitions num_threads)
                      num_partitions |}.

(** One schedule: the threads run one after the other. *)
Fixpoint run_in_turn (ths : list thread) (v : list A) : list thread * list A :=
  match ths with
  | [] => ([], v)
  | th :: ths' =>
      let '(th', v') := exe (Z.to_nat (th_end th - th_begin th)) th v in
      let '(ths'', v'') := run_in_turn ths' v' in
      (th' :: ths'', v'')
  end.

(** The sequential loop [for (i = 0; i != num_partitions; ++i)]. *)
Definition run_sequential (n : nat) (v : list A) (t : build_timings)
  : list A * build_timings :=
  fold_left (fun '(v, t) i => (update_at i (work i) v, tick i t)) (seq 0 n) (v, t).

End ThreadPool.

Arguments slots {A} p.
Arguments threads {A} p.

(** *** What a pool has done so far

    The threads' ranges follow one another, so the range a thread started
    with is recovered from its neighbour: thread [t] started at the [end] of
    thread [t - 1] (at 0 for the first). *)

Section ThreadPoolState.

Variable A : Type.
Variable work : nat -> A -> A.
Variable tick : nat -> build_timings -> build_timings.

(** The timings of a thread that started at [lo] and has reached [cur]. *)
Definition ticks (lo cur : Z) : build_timings :=
  fold_left (fun acc i => tick i acc)
            (seq (Z.to_nat lo) (Z.to_nat (cur - lo))) build_timings_default.

(** [served v0 num_partitions lo ths v]: the threads [ths], the first of
    which started at [lo], have ranges that tile [[lo, num_partitions)];
    each has done the slots from its start up to its [begin], and nothing
    else in its range has been touched since the vector was [v0]. *)
Fixpoint served (v0 : list A) (num_partitions lo : Z) (ths : list thread)
  (v : list A) : Prop :=
  match ths with
  | [] => lo = num_partitions
  | th :: ths' =>
      0 <= lo <= th_begin th
      /\ th_begin th <= th_end th <= num_partitions
      /\ th_timings th = ticks lo (th_begin th)
      /\ (forall i, lo <= i < th_begin th ->
            nth_error v (Z.to_nat i)
            = option_map (work (Z.to_nat i)) (nth_error v0 (Z.to_nat i)))
      /\ (forall i, th_begin th <= i < th_end th ->
            nth_error v (Z.to_nat i) = nth_error v0 (Z.to_nat i))
      /\ served v0 num_partitions (th_end th) ths' v
  end.

(** The vector once every slot below [n] has been worked on, once. *)
Definition all_worked (n : nat) (v0 v : list A) : Prop :=
  forall i, nth_error v i
            = if (i <? n)%nat then option_map (work i) (nth_error v0 i)
              else nth_error v0 i.

(** The invariant of the interleaving semantics. *)
Definition pool_invariant (v0 : list A) (num_partitions : Z) (ends : list Z)
  (p : pool A) : Prop :=
  map th_end (threads p) = ends
  /\ served v0 num_partitions 0 (threads p) (slots p)
  /\ (forall i, (Z.to_nat num_partitions <= i)%nat ->
        nth_error (slots p) i = nth_error v0 i).

(** Iterations the threads of a pool still have to run. *)
Definition remaining (ths : list thread) : Z :=
  zsum (map (fun th => th_end th - th_begin th) ths).

End ThreadPoolState.

(** ** internal_memory_builder_partitioned_phf *)

Module builder.
Section Builder.

Context {H : Hasher} {UB : UniformBucketer} {SB : SkewBucketer}.
Context {PR : Primitives} {B : SingleBuilder H SB}.

(** The private members. *)
Record t : Type := {
  m_seed : Z;
  m_num_keys : Z;
  m_table_size : Z;
  m_num_partitions : Z;
  m_bucketer : uniform_bucketer;
  m_offsets : list Z;
  m_builders : list single_builder
}.

Definition set_m_seed (x : Z) (s : t) : t :=
  {| m_seed := x; m_num_keys := m_num_keys s; m_table_size := m_table_size s;
     m_num_partitions := m_num_partitions s; m_bucketer := m_bucketer s;
     m_offsets := m_offsets s; m_builders := m_builders s |}.

Definition set_m_num_keys (x : Z) (s : t) : t :=
  {| m_seed := m_seed s; m_num_keys := x; m_table_size := m_table_size s;
     m_num_partitions := m_num_partitions s; m_bucketer := m_bucketer s;
     m_offsets := m_offsets s; m_builders := m_builders s |}.

Definition set_m_table_size (x : Z) (s : t) : t :=
  {| m_seed := m_seed s; m_num_keys := m_num_keys s; m_table_size := x;
     m_num_partitions := m_num_partitions s; m_bucketer := m_bucketer s;
     m_offsets := m_offsets s; m_builders := m_builders s |}.

Definition set_m_num_partitions (x : Z) (s : t) : t :=
  {| m_seed := m_seed s; m_num_keys := m_num_keys s; m_table_size := m_table_size s;
     m_num_partitions := x; m_bucketer := m_bucketer s;
     m_offsets := m_offsets s; m_builders := m_builders s |}.

Definition set_m_bucketer (x : uniform_bucketer) (s : t) : t :=
  {| m_seed := m_seed s; m_num_keys := m_num_keys s; m_table_size := m_table_size s;
     m_num_partitions := m_num_partitions s; m_bucketer := x;
     m_offsets := m_offsets s; m_builders := m_builders s |}.

Definition set_m_offsets (x : list Z) (s : t) : t :=
  {| m_seed := m_seed s; m_num_keys := m_num_keys s; m_table_size := m_table_size s;
     m_num_partitions := m_num_partitions s; m_bucketer := m_bucketer s;
     m_offsets := x; m_builders := m_builders s |}.

Definition set_m_builders (x : list single_builder) (s : t) : t :=
  {| m_seed := m_seed s; m_num_keys := m_num_keys s; m_table_size := m_table_size s;
     m_num_partitions := m_num_partitions s; m_bucketer := m_bucketer s;
     m_offsets := m_offsets s; m_builders := x |}.

(** Lines 35-40: the partition count the build goes on with. *)
Definition collapsed_num_partitions (num_keys : Z) (config : build_configuration) : Z :=
  let num_partitions := num_partitions config in
  let average_partition_size :=
    (u64_to_double num_keys / u64_to_double num_partitions)%float in
  if (average_partition_size <? u64_to_double min_partition_size)%float
     && (1 <? num_partitions)
  then 1 else num_partitions.

(** Lines 56-61: every hash is pushed onto the partition its mix falls in. *)
Definition distribute (bucketer : uniform_bucketer) (hashes : list hash_type)
  (partitions : list (list hash_type)) : list (list hash_type) :=
  fold_left
    (fun partitions hash =>
       let b := uniform_bucket bucketer (hash_mix hash) in
       update_at (Z.to_nat b) (fun partition => partition ++ [hash]) partitions)
    hashes partitions.

(** Lines 66-67: the table size of a partition of [size] keys. *)
Definition partition_table_size (config : build_configuration) (size : Z) : Z :=
  let table_size := double_to_u64 (u64_to_double size / alpha config) in
  if Z.land table_size (wrap64 (table_size - 1)) =? 0
  then wrap64 (table_size + 1) else table_size.

(** Lines 64-71: one iteration, on the object and the local
    [cumulative_size]. *)
Definition sizing_body (config : build_configuration)
  (partitions : list (list hash_type)) (st : t * Z) (i : nat) : t * Z :=
  let '(s, cumulative_size) := st in
  let partition := nth i partitions [] in
  let size := Z.of_nat (length partition) in
  let table_size := partition_table_size config size in
  let s := set_m_table_size (wrap64 (m_table_size s + table_size)) s in
  let s := set_m_offsets (update_at i (fun _ => cumulative_size) (m_offsets s)) s in
  (s, wrap64 (cumulative_size + (if minimal_output config then size else table_size))).

Definition sizing_loop (config : build_configuration)
  (partitions : list (list hash_type)) (num_partitions : nat) (s : t) : t :=
  fst (fold_left (sizing_body config partitions) (seq 0 num_partitions) (s, 0)).

(** Lines 73-80: the configuration handed to the sub-builders. *)
Definition partition_config (config : build_configuration)
  (num_partitions seed num_keys : Z) : build_configuration :=
  let divisor : float :=
    if 1 <? num_keys then std_log2 (u64_to_double num_keys) else 1%float in
  let num_buckets_single_phf :=
    double_to_u64 (double_ceil ((c config * u64_to_double num_keys) / divisor)%float) in
  {| c := c config;
     alpha := alpha config;
     num_partitions := num_partitions;
     num_buckets :=
       double_to_u64
         (u64_to_double num_buckets_single_phf / u64_to_double num_partitions)%float;
     num_threads := 1;
     seed := seed;
     minimal_output := minimal_output config;
     verbose_output := false |}.

(** The body of both loops of [build_partitions] at index [i]: the
    sub-builder of slot [i] builds partition [i]; the call returns the
    timings [dur i] (wall-clock measurements, given from outside), which
    are added to the running timings. *)
Definition build_work (partitions : list (list hash_type))
  (config : build_configuration) (i : nat) (b : single_builder) : single_builder :=
  let partition := nth i partitions [] in
  single_build_from_hashes b partition (Z.of_nat (length partition)) config.

Definition build_tick (dur : nat -> build_timings) (i : nat) (acc : build_timings)
  : build_timings :=
  {| partitioning_seconds := partitioning_seconds acc;
     mapping_ordering_seconds :=
       (mapping_ordering_seconds acc + mapping_ordering_seconds (dur i))%float;
     searching_seconds := (searching_seconds acc + searching_seconds (dur i))%float;
     encoding_seconds := encoding_seconds acc |}.

(** Lines 125-130: one iteration of the loop over [thread_timings]. *)
Definition max_timings (timings t : build_timings) : build_timings :=
  {| partitioning_seconds := partitioning_seconds timings;
     mapping_ordering_seconds :=
       if (mapping_ordering_seconds timings <? mapping_ordering_seconds t)%float
       then mapping_ordering_seconds t else mapping_ordering_seconds timings;
     searching_seconds :=
       if (searching_seconds timings <? searching_seconds t)%float
       then searching_seconds t else searching_seconds timings;
     encoding_seconds := encoding_seconds timings |}.

(** Lines 92-140.  The threads of the parallel branch are run in turn here;
    [par_steps] is the semantics with every interleaving. *)
Definition build_partitions (dur : nat -> build_timings)
  (partitions : list (list hash_type)) (builders : list single_builder)
  (config : build_configuration) (num_threads : Z)
  : list single_builder * build_timings :=
  let num_partitions := num_partitions config in
  if 1 <? num_threads then
    let p := start_pool _ builders num_partitions num_threads in
    let '(ths, builders') :=
      run_in_turn _ (build_work partitions config) (build_tick dur)
                  (threads p) (slots p) in
    (builders', fold_left max_timings (map th_timings ths) build_timings_default)
  else
    run_sequential _ (build_work partitions config) (build_tick dur)
                   (Z.to_nat num_partitions) builders build_timings_default.

(** Lines 21-90.  [elapsed] is the clock reading
    [seconds(clock_type::now() - start)].  The [assert] of line 24 is
    compiled out in release builds and stops the program otherwise; the
    theorems take [num_keys > 0] where they need it. *)
Definition build_from_hashes (elapsed : float) (dur : nat -> build_timings)
  (hashes : list hash_type) (num_keys : Z) (config : build_configuration)
  : M t build_timings :=
  (match check_hash_collision_probability num_keys with
   | Some e => throw e
   | None => ret tt
   end ;;
   (if num_partitions config =? 0
    then throw (std_invalid_argument "number of partitions must be > 0")
    else ret tt) ;;
   let num_partitions := collapsed_num_partitions num_keys config in
   assign (set_m_seed (seed config)) ;;
   assign (set_m_num_keys num_keys) ;;
   assign (set_m_table_size 0) ;;
   assign (set_m_num_partitions num_partitions) ;;
   assign (set_m_bucketer (uniform_init num_partitions)) ;;
   assign (fun s => set_m_offsets (resize (Z.to_nat num_partitions) 0 (m_offsets s)) s) ;;
   assign (fun s => set_m_builders
                      (resize (Z.to_nat num_partitions) single_builder_default
                              (m_builders s)) s) ;;
   bucketer <- read m_bucketer ;;
   let partitions :=
     distribute bucketer (firstn (Z.to_nat num_keys) hashes)
                (repeat [] (Z.to_nat num_partitions)) in
   assign (sizing_loop config partitions (Z.to_nat num_partitions)) ;;
   seed <- read m_seed ;;
   let partition_config := partition_config config num_partitions seed num_keys in
   builders <- read m_builders ;;
   let '(builders', t) :=
     build_partitions dur partitions builders partition_config (num_threads config) in
   assign (set_m_builders builders') ;;
   ret {| partitioning_seconds := elapsed;
          mapping_ordering_seconds := mapping_ordering_seconds t;
          searching_seconds := searching_seconds t;
          encoding_seconds := 0 |})%m.

(** Lines 12-19.  [random_value] is what [random_value()] returns. *)
Definition build_from_keys (random_value : Z) (elapsed : float)
  (dur : nat -> build_timings) (keys : list key_type) (num_keys : Z)
  (config : build_configuration) : M t build_timings :=
  let actual_seed :=
    if seed config =? invalid_seed then random_value else seed config in
  let actual_config :=
    {| c := c config; alpha := alpha config;
       num_partitions := num_partitions config;
       num_buckets := num_buckets config;
       num_threads := num_threads config;
       seed := actual_seed;
       minimal_output := minimal_output config;
       verbose_output := verbose_output config |} in
  build_from_hashes elapsed dur (map (fun key => hash key actual_seed) keys)
                    num_keys actual_config.

End Builder.
End builder.

(** ** single_phf *)

Module single_phf.
Section SinglePhf.

Context {H : Hasher} {SB : SkewBucketer} {E : Encoder} {EF : EliasFano}.
Context {PR : Primitives} {B : SingleBuilder H SB}.

Record t : Type := {
  m_seed : Z;
  m_num_keys : Z;
  m_table_size : Z;
  m_M : Z;
  m_bucketer : skew_bucketer;
  m_pilots : encoder;
  m_free_slots : elias_fano
}.

(** A value-initialised object, as [std::vector::resize] makes them. *)
Definition value_initialized : t :=
  {| m_seed := 0; m_num_keys := 0; m_table_size := 0; m_M := 0;
     m_bucketer := skew_default; m_pilots := encoder_default;
     m_free_slots := ef_default |}.

Definition set_m_seed (x : Z) (s : t) : t :=
  {| m_seed := x; m_num_keys := m_num_keys s; m_table_size := m_table_size s;
     m_M := m_M s; m_bucketer := m_bucketer s; m_pilots := m_pilots s;
     m_free_slots := m_free_slots s |}.

Definition set_m_num_keys (x : Z) (s : t) : t :=
  {| m_seed := m_seed s; m_num_keys := x; m_table_size := m_table_size s;
     m_M := m_M s; m_bucketer := m_bucketer s; m_pilots := m_pilots s;
     m_free_slots := m_free_slots s |}.

Definition set_m_table_size (x : Z) (s : t) : t :=
  {| m_seed := m_seed s; m_num_keys := m_num_keys s; m_table_size := x;
     m_M := m_M s; m_bucketer := m_bucketer s; m_pilots := m_pilots s;
     m_free_slots := m_free_slots s |}.

Definition set_m_M (x : Z) (s : t) : t :=
  {| m_seed := m_seed s; m_num_keys := m_num_keys s; m_table_size := m_table_size s;
     m_M := x; m_bucketer := m_bucketer s; m_pilots := m_pilots s;
     m_free_slots := m_free_slots s |}.

Definition set_m_bucketer (x : skew_bucketer) (s : t) : t :=
  {| m_seed := m_seed s; m_num_keys := m_num_keys s; m_table_size := m_table_size s;
     m_M := m_M s; m_bucketer := x; m_pilots := m_pilots s;
     m_free_slots := m_free_slots s |}.

Definition set_m_pilots (x : encoder) (s : t) : t :=
  {| m_seed := m_seed s; m_num_keys := m_num_keys s; m_table_size := m_table_size s;
     m_M := m_M s; m_bucketer := m_bucketer s; m_pilots := x;
     m_free_slots := m_free_slots s |}.

Definition set_m_free_slots (x : elias_fano) (s : t) : t :=
  {| m_seed := m_seed s; m_num_keys := m_num_keys s; m_table_size := m_table_size s;
     m_M := m_M s; m_bucketer := m_bucketer s; m_pilots := m_pilots s;
     m_free_slots := x |}.

(** The guard both [build] functions start with; [who] is the class name in
    the message. *)
Definition check_minimal {S : Type} (who : string) (Minimal : bool)
  (config : build_configuration) : M S unit :=
  if Minimal && negb (minimal_output config) then
    throw (std_runtime_error
             ("Cannot build " ++ who ++ "<..., ..., true> with minimal_output=false"))
  else if negb Minimal && minimal_output config then
    throw (std_runtime_error
             ("Cannot build " ++ who ++ "<..., ..., false> with minimal_output=true"))
  else ret tt.

(** [build(builder, config)]; [Minimal] is the template parameter and
    [elapsed] the clock reading returned. *)
Definition build (Minimal : bool) (elapsed : float) (builder : single_builder)
  (config : build_configuration) : M t float :=
  (check_minimal "single_phf" Minimal config ;;
   assign (set_m_seed (sb_seed builder)) ;;
   assign (set_m_num_keys (sb_num_keys builder)) ;;
   assign (set_m_table_size (sb_table_size builder)) ;;
   assign (fun s => set_m_M (computeM_u64 (m_table_size s)) s) ;;
   assign (set_m_bucketer (sb_bucketer builder)) ;;
   assign (fun s => set_m_pilots
                      (encode (sb_pilots builder) (skew_num_buckets (m_bucketer s))) s) ;;
   assign (fun s =>
             if Minimal && (m_num_keys s <? m_table_size s) then
               set_m_free_slots
                 (ef_encode (sb_free_slots builder)
                            (wrap64 (m_table_size s - m_num_keys s))) s
             else s) ;;
   ret elapsed)%m.

Definition num_keys (f : t) : Z := m_num_keys f.

Definition table_size (f : t) : Z := m_table_size f.

(** [position(hash)]. *)
Definition position (Minimal : bool) (f : t) (hash : hash_type) : Z :=
  let bucket := skew_bucket (m_bucketer f) (hash_first hash) in
  let pilot := access (m_pilots f) bucket in
  let hashed_pilot := default_hash64 pilot (m_seed f) in
  let p := fastmod_u64 (Z.lxor (hash_second hash) hashed_pilot)
                       (m_M f) (m_table_size f) in
  if Minimal then
    if p <? num_keys f then p
    else ef_access (m_free_slots f) (wrap64 (p - num_keys f))
  else p.

(** [operator()(key)]. *)
Definition call (Minimal : bool) (f : t) (key : key_type) : Z :=
  position Minimal f (hash key (m_seed f)).

Definition seed (f : t) : Z := m_seed f.

Context {UB : UniformBucketer} {SU : SpaceUsage UB SB E EF}.

(** [num_bits_for_pilots()]: [sizeof] is 8 for the three [uint64_t] members
    and 16 for the [__uint128_t] one; the sum is taken in 64-bit
    arithmetic, left to right. *)
Definition num_bits_for_pilots (f : t) : Z :=
  wrap64 (wrap64 (wrap64 (8 * (8 + 8 + 8 + 16)) + skew_num_bits (m_bucketer f))
          + encoder_num_bits (m_pilots f)).

(** [num_bits_for_mapper()]. *)
Definition num_bits_for_mapper (f : t) : Z :=
  wrap64 (ef_num_bytes (m_free_slots f) * 8).

(** [num_bits()]. *)
Definition num_bits (f : t) : Z :=
  wrap64 (num_bits_for_pilots f + num_bits_for_mapper f).

End SinglePhf.
End single_phf.

(** ** partitioned_phf *)

Module partitioned_phf.
Section PartitionedPhf.

Context {H : Hasher} {UB : UniformBucketer} {SB : SkewBucketer}.
Context {E : Encoder} {EF : EliasFano}.
Context {PR : Primitives} {B : SingleBuilder H SB}.

Record partition : Type := {
  offset : Z;
  f : single_phf.t
}.

Record t : Type := {
  m_seed : Z;
  m_num_keys : Z;
  m_table_size : Z;
  m_bucketer : uniform_bucketer;
  m_partitions : list partition
}.

Definition partition_value_initialized : partition :=
  {| offset := 0; f := single_phf.value_initialized |}.

Definition set_m_seed (x : Z) (s : t) : t :=
  {| m_seed := x; m_num_keys := m_num_keys s; m_table_size := m_table_size s;
     m_bucketer := m_bucketer s; m_partitions := m_partitions s |}.

Definition set_m_num_keys (x : Z) (s : t) : t :=
  {| m_seed := m_seed s; m_num_keys := x; m_table_size := m_table_size s;
     m_bucketer := m_bucketer s; m_partitions := m_partitions s |}.

Definition set_m_table_size (x : Z) (s : t) : t :=
  {| m_seed := m_seed s; m_num_keys := m_num_keys s; m_table_size := x;
     m_bucketer := m_bucketer s; m_partitions := m_partitions s |}.

Definition set_m_bucketer (x : uniform_bucketer) (s : t) : t :=
  {| m_seed := m_seed s; m_num_keys := m_num_keys s; m_table_size := m_table_size s;
     m_bucketer := x; m_partitions := m_partitions s |}.

Definition set_m_partitions (x : list partition) (s : t) : t :=
  {| m_seed := m_seed s; m_num_keys := m_num_keys s; m_table_size := m_table_size s;
     m_bucketer := m_bucketer s; m_partitions := x |}.

(** The body of both loops of [build] at index [i]:
    [m_partitions[i].offset = offsets[i]; m_partitions[i].f.build(builders[i], config)].
    The inner [build] repeats the guard the outer one has passed, so it
    returns; its clock reading is dropped. *)
Definition encode_work (Minimal : bool) (offsets : list Z)
  (builders : list single_builder) (config : build_configuration)
  (i : nat) (p : partition) : partition :=
  {| offset := nth i offsets 0;
     f := fst (single_phf.build Minimal 0 (nth i builders single_builder_default)
                                config (f p)) |}.

(** [build(builder, config)]; the threads of the parallel branch are run in
    turn. *)
Definition build (Minimal : bool) (elapsed : float) (builder : builder.t)
  (config : build_configuration) : M t float :=
  (single_phf.check_minimal "partitioned_phf" Minimal config ;;
   let num_partitions := builder.m_num_partitions builder in
   assign (set_m_seed (builder.m_seed builder)) ;;
   assign (set_m_num_keys (builder.m_num_keys builder)) ;;
   assign (set_m_table_size (builder.m_table_size builder)) ;;
   assign (set_m_bucketer (builder.m_bucketer builder)) ;;
   assign (fun s => set_m_partitions
                      (resize (Z.to_nat num_partitions) partition_value_initialized
                              (m_partitions s)) s) ;;
   let offsets := builder.m_offsets builder in
   let builders := builder.m_builders builder in
   let num_threads := num_threads config in
   let work := encode_work Minimal offsets builders config in
   assign (fun s =>
             set_m_partitions
               (if 1 <? num_threads then
                  snd (run_in_turn _ work (fun _ acc => acc)
                         (threads (start_pool _ (m_partitions s)
                                              num_partitions num_threads))
                         (m_partitions s))
                else
                  fst (run_sequential _ work (fun _ acc => acc)
                         (Z.to_nat num_partitions) (m_partitions s)
                         build_timings_default))
               s) ;;
   ret elapsed)%m.

(** [position(hash)]. *)
Definition position (Minimal : bool) (phf : t) (hash : hash_type) : Z :=
  let b := uniform_bucket (m_bucketer phf) (hash_mix hash) in
  let p := nth (Z.to_nat b) (m_partitions phf) partition_value_initialized in
  wrap64 (offset p + single_phf.position Minimal (f p) hash).

(** [operator()(key)]. *)
Definition call (Minimal : bool) (phf : t) (key : key_type) : Z :=
  position Minimal phf (hash key (m_seed phf)).

(** [build_in_internal_memory(keys, num_keys, config)].  [local] is the
    state of the function's default-initialised [builder]; the clock
    readings and [random_value()] are given from outside. *)
Definition build_in_internal_memory (Minimal : bool) (local : builder.t)
  (random_value : Z) (elapsed encoding : float) (dur : nat -> build_timings)
  (keys : list key_type) (num_keys : Z) (config : build_configuration)
  : M t build_timings :=
  fun phf =>
    match builder.build_from_keys random_value elapsed dur keys num_keys config local with
    | (_, Throws e) => (phf, Throws e)
    | (built, Returns timings) =>
        match build Minimal encoding built config phf with
        | (phf', Throws e) => (phf', Throws e)
        | (phf', Returns encoding_seconds) =>
            (phf', Returns {| partitioning_seconds := partitioning_seconds timings;
                              mapping_ordering_seconds := mapping_ordering_seconds timings;
                              searching_seconds := searching_seconds timings;
                              encoding_seconds := encoding_seconds |})
        end
    end.

Definition num_keys (phf : t) : Z := m_num_keys phf.

Definition table_size (phf : t) : Z := m_table_size phf.

Definition seed (phf : t) : Z := m_seed phf.

Context {SU : SpaceUsage UB SB E EF}.

(** [num_bits_for_pilots()]: the three [uint64_t] members and the size of
    the vector, the bucketer, and for every partition its offset and the
    pilots of its function. *)
Definition num_bits_for_pilots (phf : t) : Z :=
  fold_left
    (fun bits p =>
       wrap64 (bits + wrap64 (wrap64 (8 * 8) + single_phf.num_bits_for_pilots (f p))))
    (m_partitions phf)
    (wrap64 (wrap64 (8 * (8 + 8 + 8 + 8)) + uniform_num_bits (m_bucketer phf))).

(** [num_bits_for_mapper()]. *)
Definition num_bits_for_mapper (phf : t) : Z :=
  fold_left (fun bits p => wrap64 (bits + single_phf.num_bits_for_mapper (f p)))
            (m_partitions phf) 0.

(** [num_bits()]. *)
Definition num_bits (phf : t) : Z :=
  wrap64 (num_bits_for_pilots phf + num_bits_for_mapper phf).

End PartitionedPhf.
End partitioned_phf.

(** ** A small instance of the collaborators

    Used to run the model on concrete inputs.  The bucketers and fastmod
    compute a plain remainder, the codecs store the sequence as it is, and
    the sub-builder searches one pilot for a single bucket by trying
    0, 1, 2, ... until the keys fall on distinct slots. *)

Module instance.

(** A 64-bit finalizer: xor-shift and multiply, twice. *)
Definition mix64 (x : Z) : Z :=
  let x := Z.lxor x (Z.shiftr x 33) in
  let x := wrap64 (x * 18397679294719823053) in
  let x := Z.lxor x (Z.shiftr x 33) in
  let x := wrap64 (x * 14181476777654086739) in
  Z.lxor x (Z.shiftr x 33).

Definition hasher : Hasher :=
  {| key_type := Z;
     hash_type := Z * Z;
     hash := fun key seed =>
               (mix64 (wrap64 (key + seed)), mix64 (Z.lxor (mix64 key) seed));
     hash_first := fst;
     hash_second := snd;
     hash_mix := fun h => Z.lxor (fst h) (snd h) |}.

Definition uniform : UniformBucketer :=
  {| uniform_bucketer := Z;
     uniform_init := fun n => n;
     uniform_bucket := fun n x => x mod n |}.

Definition skew : SkewBucketer :=
  {| skew_bucketer := Z;
     skew_default := 0;
     skew_bucket := fun n x => x mod n;
     skew_num_buckets := fun n => n |}.

Definition codec : Encoder :=
  {| encoder := list Z;
     encoder_default := [];
     encode := fun src n => firstn (Z.to_nat n) src;
     access := fun s i => nth (Z.to_nat i) s 0 |}.

Definition ef : EliasFano :=
  {| elias_fano := list Z;
     ef_default := [];
     ef_encode := fun src n => firstn (Z.to_nat n) src;
     ef_access := fun s i => nth (Z.to_nat i) s 0 |}.

(** [log2] of a double that is a power of two: its exponent.  On any
    other double this is the exponent of the power of two below it and not
    the logarithm, so that [num_buckets] of the instance is the code's for
    key counts that are powers of two only; no example states it for
    another count. *)
Definition log2_of_power_of_two (x : float) : float :=
  u64_to_double (snd (Z.frexp x) - 1).

(** The primitives, with [min_partition_size] left open. *)
Definition primitives (min_size : Z) : Primitives :=
  {| computeM_u64 := fun d => ((2 ^ 128 - 1) / d + 1) mod 2 ^ 128;
     fastmod_u64 := fun a _ d => a mod d;
     default_hash64 := fun pilot seed => mix64 (Z.lxor (mix64 pilot) seed);
     min_partition_size := min_size;
     invalid_seed := u64_modulus - 1;
     check_hash_collision_probability := fun _ => None;
     std_log2 := log2_of_power_of_two |}.

Record single_state : Type := {
  st_seed : Z;
  st_num_keys : Z;
  st_table_size : Z;
  st_bucketer : Z;
  st_pilots : list Z;
  st_free_slots : list Z
}.

Definition slot (seed table_size pilot : Z) (h : Z * Z) : Z :=
  Z.lxor (snd h) (mix64 (Z.lxor (mix64 pilot) seed)) mod table_size.

Fixpoint search (fuel : nat) (seed table_size pilot : Z) (hashes : list (Z * Z)) : Z :=
  match fuel with
  | O => pilot
  | S fuel' =>
      if distinct (map (slot seed table_size pilot) hashes) then pilot
      else search fuel' seed table_size (pilot + 1) hashes
  end.

(** Entry [j] serves slot [n + j]: when that slot is taken it holds the
    next slot below [n] that is not. *)
Fixpoint remap (taken free : list Z) (n : Z) (j : nat) (count : nat) : list Z :=
  match count with
  | O => []
  | S count' =>
      if existsb (Z.eqb (n + Z.of_nat j)) taken
      then hd 0 free :: remap taken (tl free) n (S j) count'
      else 0 :: remap taken free n (S j) count'
  end.

Definition single_build (_ : single_state) (hashes : list (Z * Z)) (n : Z)
  (config : build_configuration) : single_state :=
  let t := double_to_u64 (u64_to_double n / alpha config) in
  let table_size := if Z.land t (wrap64 (t - 1)) =? 0 then wrap64 (t + 1) else t in
  let pilot := search 64 (seed config) table_size 0 hashes in
  let taken := map (slot (seed config) table_size pilot) hashes in
  let free :=
    filter (fun s => negb (existsb (Z.eqb s) taken))
           (map Z.of_nat (seq 0 (Z.to_nat n))) in
  {| st_seed := seed config;
     st_num_keys := n;
     st_table_size := table_size;
     st_bucketer := 1;
     st_pilots := [pilot];
     st_free_slots := remap taken free n 0 (Z.to_nat (table_size - n)) |}.

Definition single : SingleBuilder hasher skew :=
  @Build_SingleBuilder hasher skew single_state
    {| st_seed := 0; st_num_keys := 0; st_table_size := 0; st_bucketer := 0;
       st_pilots := []; st_free_slots := [] |}
    single_build st_seed st_num_keys st_table_size st_bucketer st_pilots
    st_free_slots.

(** A default-initialised partitioned builder and function object. *)
Definition fresh_builder : @builder.t hasher uniform skew single :=
  @builder.Build_t hasher uniform skew single 0 0 0 0 0 [] [].

Definition fresh_phf : @partitioned_phf.t uniform skew codec ef :=
  @partitioned_phf.Build_t uniform skew codec ef 0 0 0 0 [].

Definition no_timings (_ : nat) : build_timings := build_timings_default.

(** Seven keys, hashed with seed 1. *)
Definition example_keys : list Z := [10; 20; 30; 40; 50; 60; 70].

Definition example_hashes : list (@hash_type hasher) :=
  map (fun key => (mix64 (wrap64 (key + 1)), mix64 (Z.lxor (mix64 key) 1)))
      example_keys.

Definition example_config (P T : Z) (minimal : bool) (a : float)
  : build_configuration :=
  {| c := 7; alpha := a; num_partitions := P; num_buckets := 0;
     num_threads := T; seed := 1; minimal_output := minimal;
     verbose_output := false |}.

(** The instance with [min_partition_size = 1], so that seven keys can be
    split. *)
Definition small : Primitives := primitives 1.

(** Modelled from the spec: the constant [min_partition_size] is missing;
    this instance takes the value the specification names, 50000. *)
Definition large : Primitives := primitives 50000.

(** Durations for the timing examples: partition [i] took [i + 1] seconds
    of mapping and ordering ([i < 5]) and 2 seconds of searching. *)
Definition example_durations (i : nat) : build_timings :=
  {| partitioning_seconds := 0;
     mapping_ordering_seconds := nth i [1; 2; 3; 4; 5]%float 0%float;
     searching_seconds := 2;
     encoding_seconds := 0 |}.

(** A partitioned build of the seven keys, and the function object made
    from it. *)
Definition example_build (P T : Z) (minimal : bool) (a : float)
  : builder.t * outcome build_timings :=
  @builder.build_from_hashes hasher uniform skew small single 0%float
    example_durations example_hashes 7 (example_config P T minimal a) fresh_builder.

Definition example_builder (P T : Z) (minimal : bool) (a : float) : builder.t :=
  fst (example_build P T minimal a).

Definition example_timings (P T : Z) (minimal : bool) (a : float) : build_timings :=
  match snd (example_build P T minimal a) with
  | Returns t => t
  | Throws _ => build_timings_default
  end.

Definition example_phf_build (P T : Z) (minimal : bool) (a : float)
  : partitioned_phf.t * outcome float :=
  @partitioned_phf.build hasher uniform skew codec ef small single minimal
    0%float (example_builder P T minimal a) (example_config P T minimal a)
    fresh_phf.

Definition example_phf (P T : Z) (minimal : bool) (a : float) : partitioned_phf.t :=
  fst (example_phf_build P T minimal a).

(** Whether a call returned. *)
Definition returned {A : Type} (o : outcome A) : bool :=
  match o with
  | Returns _ => true
  | Throws _ => false
  end.

End instance.

(** ** Vocabulary of the properties *)

(** The sum of the entries before index [i]. *)
Definition prefix_sum (l : list Z) (i : nat) : Z := zsum (firstn i l).

(** [image] lists the values of a bijection onto [[0, n)]: no value twice,
    and exactly the numbers below [n]. *)
Definition bijective_onto (image : list Z) (n : Z) : Prop :=
  NoDup image /\ forall v, In v image <-> 0 <= v < n.

Section Vocabulary.

Context {H : Hasher} {UB : UniformBucketer} {SB : SkewBucketer}.
Context {E : Encoder} {EF : EliasFano}.
Context {PR : Primitives} {B : SingleBuilder H SB}.

(** The local [partitions] of [build_from_hashes] once the keys are
    distributed (line 62). *)
Definition partitions_of (hashes : list hash_type) (num_keys : Z)
  (config : build_configuration) : list (list hash_type) :=
  let num_partitions := builder.collapsed_num_partitions num_keys config in
  builder.distribute (uniform_init num_partitions)
                     (firstn (Z.to_nat num_keys) hashes)
                     (repeat [] (Z.to_nat num_partitions)).

(** [partition.size()] of every partition. *)
Definition sizes (partitions : list (list hash_type)) : list Z :=
  map (fun partition => Z.of_nat (length partition)) partitions.

(** The local [table_size] of every partition. *)
Definition table_sizes (config : build_configuration)
  (partitions : list (list hash_type)) : list Z :=
  map (builder.partition_table_size config) (sizes partitions).

(** What the sizing loop adds to [cumulative_size] per partition. *)
Definition increments (config : build_configuration)
  (partitions : list (list hash_type)) : list Z :=
  if minimal_output config then sizes partitions else table_sizes config partitions.

(** [bucket(x)] lands in [[0, n)] for a bucketer initialised with [n > 0]. *)
Definition uniform_in_range : Prop :=
  forall n x, 0 < n -> 0 <= uniform_bucket (uniform_init n) x < n.

(** The single-PHF query as the specification words it (section 4.4):
    steps 2 to 5 give the slot, steps 6 and 7 the result. *)
Definition spec_slot (f : single_phf.t) (h : hash_type) : Z :=
  let bucket := skew_bucket (single_phf.m_bucketer f) (hash_first h) in
  let pilot := access (single_phf.m_pilots f) bucket in
  let hp := default_hash64 pilot (single_phf.m_seed f) in
  fastmod_u64 (Z.lxor (hash_second h) hp) (single_phf.m_M f)
              (single_phf.m_table_size f).

Definition spec_single_position (minimal : bool) (f : single_phf.t)
  (h : hash_type) : Z :=
  let pos := spec_slot f h in
  let n := single_phf.m_num_keys f in
  if negb minimal then pos
  else if pos <? n then pos
  else ef_access (single_phf.m_free_slots f) (pos - n).

(** Partition and thread counts a machine can hold. *)
Definition counts_fit (config : build_configuration) : Prop :=
  0 <= num_partitions config < 2 ^ 63 /\ 0 <= num_threads config < 2 ^ 63.

End Vocabulary.

(** The same configuration with another [num_threads]. *)
Definition with_num_threads (T : Z) (config : build_configuration)
  : build_configuration :=
  {| c := c config; alpha := alpha config;
     num_partitions := num_partitions config;
     num_buckets := num_buckets config;
     num_threads := T;
     seed := seed config;
     minimal_output := minimal_output config;
     verbose_output := verbose_output config |}.

(** The same configuration with another [seed]. *)
Definition with_seed (s : Z) (config : build_configuration)
  : build_configuration :=
  {| c := c config; alpha := alpha config;
     num_partitions := num_partitions config;
     num_buckets := num_buckets config;
     num_threads := num_threads config;
     seed := s;
     minimal_output := minimal_output config;
     verbose_output := verbose_output config |}.

(** The ranges [[begin, end)] of partitions the threads are given; with one
    thread, the whole range. *)
Definition thread_ranges (num_partitions num_threads : Z) : list (Z * Z) :=
  map (fun th => (th_begin th, th_end th))
      (spawn (Z.to_nat num_threads) 0
             (num_partitions_per_thread num_partitions num_threads)
             num_partitions).

(** The sum of the field [g] of the durations of the partitions in a
    range, added up in the order they are built. *)
Definition range_total (g : build_timings -> float) (dur : nat -> build_timings)
  (r : Z * Z) : float :=
  fold_left (fun acc i => (acc + g (dur i))%float)
            (seq (Z.to_nat (fst r)) (Z.to_nat (snd r - fst r))) 0%float.

(** [r] is the maximum of [l]: nothing in [l] is above it, and something in
    [l] equals it. *)
Definition is_maximum (r : float) (l : list float) : Prop :=
  Forall (fun s => (r <? s)%float = false) l
  /\ Exists (fun s => (r =? s)%float = true) l.

(** A check of [bijective_onto] that computes. *)
Definition bijective_ontob (image : list Z) (n : Z) : bool :=
  distinct image
  && forallb (fun v => (0 <=? v) && (v <? n)) image
  && (Z.of_nat (length image) =? n).

(** [image] lists distinct values, all of them in [[0, m)]. *)
Definition injective_into (image : list Z) (m : Z) : Prop :=
  NoDup image /\ forall v, In v image -> 0 <= v < m.

(** A check of [injective_into] that computes. *)
Definition injective_intob (image : list Z) (m : Z) : bool :=
  distinct image && forallb (fun v => (0 <=? v) && (v <? m)) image.

(** Equal as [uint64_t]. *)
Definition eq64 (a b : Z) : Prop := wrap64 a = wrap64 b.

(** A specification float that is a number and not below zero. *)
Definition SFnonneg (x : spec_float) : bool :=
  match x with
  | S754_zero _ => true
  | S754_infinity s | S754_finite s _ _ => negb s
  | S754_nan => false
  end.

(** One step of the maximum loop on one field: [if (s > r) r = s]. *)
Definition fmax (r s : float) : float := if (r <? s)%float then s else r.

(** The table size the specification words: [ceil(size / alpha)], one more
    when that is a power of two.  The quotient is the exact one, taken on
    the rational value [m * 2^e] of the double [alpha]. *)
Definition exact_ceil_div (size : Z) (alpha : float) : Z :=
  match Prim2SF alpha with
  | S754_finite false m e =>
      let num := if e <? 0 then size * 2 ^ (- e) else size in
      let den := if e <? 0 then Zpos m else Zpos m * 2 ^ e in
      (num + den - 1) / den
  | _ => 0
  end.

Definition is_power_of_two (x : Z) : bool :=
  (0 <? x) && (x =? 2 ^ Z.log2 x).

Definition spec_table_size (size : Z) (alpha : float) : Z :=
  let m := exact_ceil_div size alpha in
  if is_power_of_two m then m + 1 else m.

(** * Facts about the model *)

(** ** Vectors, sums and wrap-around *)

Section VectorFacts.

Context {A : Type}.

Lemma update_at_length (i : nat) (f : A -> A) (v : list A) :
  length (update_at i f v) = length v.
Proof.
  revert i; induction v as [|x v IH]; intros [|i]; simpl; auto.
Qed.

Lemma nth_update_at_same (i : nat) (f : A -> A) (v : list A) (d : A) :
  (i < length v)%nat -> nth i (update_at i f v) d = f (nth i v d).
Proof.
  revert i; induction v as [|x v IH]; intros [|i] Hi; simpl in *;
    try lia; auto.
  apply IH; lia.
Qed.

Lemma nth_update_at_other (i j : nat) (f : A -> A) (v : list A) (d : A) :
  i <> j -> nth j (update_at i f v) d = nth j v d.
Proof.
  revert i j; induction v as [|x v IH]; intros [|i] [|j] Hij; simpl;
    try congruence; auto.
Qed.

Lemma resize_length (n : nat) (d : A) (v : list A) : length (resize n d v) = n.
Proof.
  unfold resize. rewrite length_app, length_firstn, repeat_length. lia.
Qed.

Lemma nth_resize_fresh (n : nat) (d : A) (i : nat) :
  nth i (resize n d []) d = d.
Proof.
  unfold resize. rewrite firstn_nil. simpl. rewrite Nat.sub_0_r.
  destruct (Nat.lt_ge_cases i n) as [Hi|Hi].
  - apply nth_repeat.
  - apply nth_overflow. rewrite repeat_length. exact Hi.
Qed.

End VectorFacts.

Lemma zsum_app (l l' : list Z) : zsum (l ++ l') = zsum l + zsum l'.
Proof.
  induction l as [|x l IH]; simpl; lia.
Qed.

Lemma prefix_sum_0 (l : list Z) : prefix_sum l 0 = 0.
Proof. reflexivity. Qed.

Lemma prefix_sum_S (l : list Z) (i : nat) :
  (i < length l)%nat -> prefix_sum l (S i) = prefix_sum l i + nth i l 0.
Proof.
  unfold prefix_sum. revert i.
  induction l as [|x l IH]; intros i Hi; simpl in Hi; [lia|].
  destruct i as [|i]; simpl.
  - lia.
  - specialize (IH i ltac:(lia)). simpl in IH. rewrite IH. lia.
Qed.

Lemma prefix_sum_all (l : list Z) : prefix_sum l (length l) = zsum l.
Proof.
  unfold prefix_sum. now rewrite firstn_all.
Qed.

Lemma prefix_sum_nonneg (l : list Z) (i : nat) :
  Forall (fun x => 0 <= x) l -> 0 <= prefix_sum l i.
Proof.
  unfold prefix_sum. intros Hl. revert i.
  induction Hl as [|x l Hx Hl IH]; intros [|i]; simpl; try lia.
  specialize (IH i). lia.
Qed.

Lemma prefix_sum_le_zsum (l : list Z) (i : nat) :
  Forall (fun x => 0 <= x) l -> prefix_sum l i <= zsum l.
Proof.
  unfold prefix_sum. intros Hl. revert i.
  induction Hl as [|x l Hx Hl IH]; intros [|i]; simpl; try lia.
  - pose proof (prefix_sum_nonneg l (length l) Hl) as Hn.
    rewrite prefix_sum_all in Hn. lia.
  - specialize (IH i). lia.
Qed.

Lemma u64_modulus_pos : 0 < u64_modulus.
Proof. reflexivity. Qed.

Lemma wrap64_is_u64 (x : Z) : is_u64 (wrap64 x).
Proof.
  unfold is_u64, wrap64. apply Z.mod_pos_bound. exact u64_modulus_pos.
Qed.

Lemma wrap64_small (x : Z) : is_u64 x -> wrap64 x = x.
Proof.
  unfold is_u64, wrap64. intros Hx. now apply Z.mod_small.
Qed.

Lemma two_63_lt : 2 ^ 63 + 2 ^ 63 = u64_modulus /\ 0 < 2 ^ 63.
Proof. split; reflexivity. Qed.

Lemma wrap64_add_l (a b : Z) : wrap64 (wrap64 a + b) = wrap64 (a + b).
Proof.
  unfold wrap64. apply Zplus_mod_idemp_l.
Qed.

Lemma wrap64_add_r (a b : Z) : wrap64 (a + wrap64 b) = wrap64 (a + b).
Proof.
  unfold wrap64. apply Zplus_mod_idemp_r.
Qed.

(** ** The sizing loop *)

Section SizingFacts.

Context {H : Hasher} {UB : UniformBucketer} {SB : SkewBucketer}.
Context {PR : Primitives} {B : SingleBuilder H SB}.

Variable config : build_configuration.
Variable partitions : list (list hash_type).

Lemma sizes_length : length (sizes partitions) = length partitions.
Proof. unfold sizes. apply length_map. Qed.

Lemma table_sizes_length : length (table_sizes config partitions) = length partitions.
Proof. unfold table_sizes. rewrite length_map. apply sizes_length. Qed.

Lemma increments_length : length (increments config partitions) = length partitions.
Proof.
  unfold increments. destruct (minimal_output config);
    [apply sizes_length | apply table_sizes_length].
Qed.

Lemma nth_sizes (i : nat) :
  nth i (sizes partitions) 0 = Z.of_nat (length (nth i partitions [])).
Proof.
  unfold sizes.
  change 0 with ((fun partition : list hash_type => Z.of_nat (length partition)) []).
  apply map_nth.
Qed.

Lemma nth_table_sizes (i : nat) :
  (i < length partitions)%nat ->
  nth i (table_sizes config partitions) 0
  = builder.partition_table_size config (Z.of_nat (length (nth i partitions []))).
Proof.
  intros Hi. unfold table_sizes.
  rewrite (nth_indep _ 0 (builder.partition_table_size config 0))
    by (rewrite length_map, sizes_length; exact Hi).
  rewrite map_nth. now rewrite nth_sizes.
Qed.

Lemma nth_increments (i : nat) :
  (i < length partitions)%nat ->
  nth i (increments config partitions) 0
  = if minimal_output config
    then Z.of_nat (length (nth i partitions []))
    else builder.partition_table_size config (Z.of_nat (length (nth i partitions []))).
Proof.
  intros Hi. unfold increments. destruct (minimal_output config).
  - apply nth_sizes.
  - now apply nth_table_sizes.
Qed.

(** The state after [k] iterations of the loop of lines 64-71. *)
Lemma sizing_fold (s : builder.t) (k : nat) :
  builder.m_table_size s = 0 ->
  (k <= length partitions)%nat ->
  (k <= length (builder.m_offsets s))%nat ->
  let st := fold_left (builder.sizing_body config partitions) (seq 0 k) (s, 0) in
  snd st = wrap64 (prefix_sum (increments config partitions) k)
  /\ builder.m_table_size (fst st)
     = wrap64 (prefix_sum (table_sizes config partitions) k)
  /\ length (builder.m_offsets (fst st)) = length (builder.m_offsets s)
  /\ (forall i, (i < k)%nat ->
        nth i (builder.m_offsets (fst st)) 0
        = wrap64 (prefix_sum (increments config partitions) i))
  /\ (forall i, (k <= i)%nat ->
        nth i (builder.m_offsets (fst st)) 0 = nth i (builder.m_offsets s) 0)
  /\ builder.m_seed (fst st) = builder.m_seed s
  /\ builder.m_num_keys (fst st) = builder.m_num_keys s
  /\ builder.m_num_partitions (fst st) = builder.m_num_partitions s
  /\ builder.m_bucketer (fst st) = builder.m_bucketer s
  /\ builder.m_builders (fst st) = builder.m_builders s.
Proof.
  intros Hts. induction k as [|k IH]; intros Hk Hk'.
  - simpl. rewrite Hts. repeat split; auto. intros i Hi; lia.
  - rewrite seq_S, fold_left_app. simpl.
    destruct (fold_left (builder.sizing_body config partitions) (seq 0 k) (s, 0))
      as [s' cum] eqn:Hfold.
    specialize (IH ltac:(lia) ltac:(lia)). simpl in IH.
    destruct IH as (Hcum & Htab & Hlen & Hlow & Hhigh & Hs1 & Hs2 & Hs3 & Hs4 & Hs5).
    unfold builder.sizing_body. simpl.
    repeat split; auto.
    + rewrite Hcum, wrap64_add_l.
      rewrite prefix_sum_S by (rewrite increments_length; lia).
      rewrite nth_increments by lia. reflexivity.
    + rewrite Htab, wrap64_add_l.
      rewrite prefix_sum_S by (rewrite table_sizes_length; lia).
      rewrite nth_table_sizes by lia. reflexivity.
    + now rewrite update_at_length.
    + intros i Hi. destruct (Nat.eq_dec i k) as [->|Hne].
      * rewrite nth_update_at_same by lia. exact Hcum.
      * rewrite nth_update_at_other by lia. apply Hlow. lia.
    + intros i Hi. rewrite nth_update_at_other by lia. apply Hhigh. lia.
Qed.

End SizingFacts.

(** ** Distributing the keys *)

Section DistributeFacts.

Context {H : Hasher} {UB : UniformBucketer}.

Variable bucketer : uniform_bucketer.

Lemma distribute_length (hashes : list hash_type) (parts : list (list hash_type)) :
  length (builder.distribute bucketer hashes parts) = length parts.
Proof.
  unfold builder.distribute. revert parts.
  induction hashes as [|h hashes IH]; intros parts; simpl; auto.
  rewrite IH. apply update_at_length.
Qed.

Lemma concat_push (b : nat) (h : hash_type) (parts : list (list hash_type)) :
  (b < length parts)%nat ->
  Permutation (concat parts ++ [h])
              (concat (update_at b (fun partition => partition ++ [h]) parts)).
Proof.
  revert b. induction parts as [|p parts IH]; intros [|b] Hb; simpl in *; try lia.
  - rewrite <- !app_assoc. apply Permutation_app_head. apply Permutation_app_comm.
  - rewrite <- app_assoc. apply Permutation_app_head. apply IH. lia.
Qed.

(** Every key lands in exactly one partition: the partitions together hold
    the keys, each once. *)
Lemma distribute_permutation (hashes : list hash_type) (parts : list (list hash_type)) :
  (forall h, In h hashes ->
     (Z.to_nat (uniform_bucket bucketer (hash_mix h)) < length parts)%nat) ->
  Permutation (concat parts ++ hashes)
              (concat (builder.distribute bucketer hashes parts)).
Proof.
  unfold builder.distribute. revert parts.
  induction hashes as [|h hashes IH]; intros parts Hin; simpl.
  - now rewrite app_nil_r.
  - eapply Permutation_trans; [|apply IH].
    + change (h :: hashes) with ([h] ++ hashes). rewrite app_assoc.
      apply Permutation_app_tail. apply concat_push. apply Hin. now left.
    + intros h' Hh'. rewrite update_at_length. apply Hin. now right.
Qed.

(** A key sits in the partition its mix is bucketed to. *)
Lemma distribute_home (hashes : list hash_type) (parts : list (list hash_type)) :
  (forall i h, In h (nth i parts []) ->
     Z.to_nat (uniform_bucket bucketer (hash_mix h)) = i) ->
  forall i h, In h (nth i (builder.distribute bucketer hashes parts) []) ->
    Z.to_nat (uniform_bucket bucketer (hash_mix h)) = i.
Proof.
  unfold builder.distribute. revert parts.
  induction hashes as [|h0 hashes IH]; intros parts Hparts; simpl; auto.
  apply IH. intros i h Hin.
  set (b := Z.to_nat (uniform_bucket bucketer (hash_mix h0))) in *.
  destruct (Nat.eq_dec b i) as [Hbi|Hbi].
  - subst i. destruct (Nat.lt_ge_cases b (length parts)) as [Hlt|Hge].
    + rewrite nth_update_at_same in Hin by exact Hlt.
      apply in_app_or in Hin. destruct Hin as [Hin|[->|[]]]; auto.
    + rewrite nth_overflow in Hin by (rewrite update_at_length; exact Hge).
      destruct Hin.
  - rewrite nth_update_at_other in Hin by exact Hbi. now apply Hparts.
Qed.

Lemma zsum_sizes_concat (parts : list (list hash_type)) :
  zsum (sizes parts) = Z.of_nat (length (concat parts)).
Proof.
  induction parts as [|p parts IH]; simpl; auto.
  rewrite length_app, IH. lia.
Qed.

End DistributeFacts.

(** ** The thread pool *)

Section ThreadPoolFacts.

Variable A : Type.
Variable work : nat -> A -> A.
Variable tick : nat -> build_timings -> build_timings.

Lemma nth_error_update_at_same (i : nat) (g : A -> A) (v : list A) :
  nth_error (update_at i g v) i = option_map g (nth_error v i).
Proof.
  revert i; induction v as [|x v IH]; intros [|i]; simpl; auto.
Qed.

Lemma nth_error_update_at_other (i j : nat) (g : A -> A) (v : list A) :
  i <> j -> nth_error (update_at i g v) j = nth_error v j.
Proof.
  revert i j; induction v as [|x v IH]; intros [|i] [|j] Hij; simpl;
    try congruence; auto.
Qed.

Lemma ticks_start (lo : Z) : ticks tick lo lo = build_timings_default.
Proof.
  unfold ticks. now rewrite Z.sub_diag.
Qed.

Lemma ticks_step (lo cur : Z) :
  0 <= lo <= cur ->
  ticks tick lo (cur + 1) = tick (Z.to_nat cur) (ticks tick lo cur).
Proof.
  intros Hlo. unfold ticks.
  replace (Z.to_nat (cur + 1 - lo)) with (S (Z.to_nat (cur - lo))) by lia.
  rewrite seq_S, fold_left_app. simpl.
  replace (Z.to_nat lo + Z.to_nat (cur - lo))%nat with (Z.to_nat cur) by lia.
  reflexivity.
Qed.

Variable v0 : list A.
Variable num_partitions : Z.

(** Writing a slot below the ranges of [ths] does not disturb them. *)
Lemma served_frame (j : nat) (g : A -> A) (ths : list thread) (v : list A) (lo : Z) :
  Z.of_nat j < lo ->
  served A work tick v0 num_partitions lo ths v ->
  served A work tick v0 num_partitions lo ths (update_at j g v).
Proof.
  revert lo. induction ths as [|th ths IH]; intros lo Hj Hs; simpl in *; auto.
  destruct Hs as (Hlo & Hend & Htm & Hdone & Htodo & Hrest).
  repeat split; try tauto.
  - intros i Hi. rewrite nth_error_update_at_other by lia. now apply Hdone.
  - intros i Hi. rewrite nth_error_update_at_other by lia. now apply Htodo.
  - apply IH; [lia | exact Hrest].
Qed.

Lemma served_bounds (ths : list thread) (v : list A) (lo : Z) (t : nat) (th : thread) :
  served A work tick v0 num_partitions lo ths v ->
  nth_error ths t = Some th ->
  0 <= lo <= th_begin th /\ th_begin th <= th_end th <= num_partitions.
Proof.
  revert lo t. induction ths as [|h ths IH]; intros lo [|t] Hs Ht; simpl in *;
    try discriminate.
  - injection Ht as ->. tauto.
  - destruct Hs as (Hlo & Hend & _ & _ & _ & Hrest).
    destruct (IH _ _ Hrest Ht) as [H1 H2]. lia.
Qed.

(** One iteration by thread [t] keeps the tiling. *)
Lemma served_step (ths : list thread) (v : list A) (lo : Z) (t : nat) (th : thread) :
  num_partitions < u64_modulus ->
  served A work tick v0 num_partitions lo ths v ->
  nth_error ths t = Some th ->
  th_begin th <> th_end th ->
  served A work tick v0 num_partitions lo
         (update_at t (fun _ => fst (exe_body A work tick th v)) ths)
         (snd (exe_body A work tick th v)).
Proof.
  intros Hnp. revert lo t.
  induction ths as [|h ths IH]; intros lo [|t] Hs Ht Hne; simpl in *;
    try discriminate.
  - injection Ht as ->.
    destruct Hs as (Hlo & Hend & Htm & Hdone & Htodo & Hrest).
    assert (Hw : wrap64 (th_begin th + 1) = th_begin th + 1)
      by (apply wrap64_small; unfold is_u64; lia).
    rewrite Hw. repeat split; try lia.
    + rewrite Htm. symmetry. apply ticks_step. lia.
    + intros i Hi. destruct (Z.eq_dec i (th_begin th)) as [->|Hi'].
      * rewrite nth_error_update_at_same. f_equal. apply Htodo. lia.
      * rewrite nth_error_update_at_other by lia. apply Hdone. lia.
    + intros i Hi. rewrite nth_error_update_at_other by lia. apply Htodo. lia.
    + apply served_frame; [lia | exact Hrest].
  - destruct Hs as (Hlo & Hend & Htm & Hdone & Htodo & Hrest).
    destruct (served_bounds _ _ _ _ _ Hrest Ht) as [Hb1 Hb2].
    split; [lia|]. split; [lia|]. split; [exact Htm|]. split; [|split].
    + intros i Hi. rewrite nth_error_update_at_other by lia. now apply Hdone.
    + intros i Hi. rewrite nth_error_update_at_other by lia. now apply Htodo.
    + now apply IH.
Qed.

(** Once every thread has left its loop, every slot of the tiled range has
    been worked on. *)
Lemma served_joined (ths : list thread) (v : list A) (lo : Z) :
  served A work tick v0 num_partitions lo ths v ->
  Forall (fun th => th_begin th = th_end th) ths ->
  forall i, lo <= i < num_partitions ->
    nth_error v (Z.to_nat i) = option_map (work (Z.to_nat i)) (nth_error v0 (Z.to_nat i)).
Proof.
  revert lo. induction ths as [|th ths IH]; intros lo Hs Hj i Hi; simpl in *.
  - lia.
  - destruct Hs as (Hlo & Hend & Htm & Hdone & Htodo & Hrest).
    inversion Hj as [|? ? Hth Hj']; subst.
    destruct (Z_lt_ge_dec i (th_begin th)) as [Hlt|Hge].
    + apply Hdone. lia.
    + apply (IH (th_end th)); auto. lia.
Qed.

(** The threads themselves are determined: same ranges, same timings. *)
Lemma served_joined_unique (ths ths' : list thread) (v v' : list A) (lo : Z) :
  served A work tick v0 num_partitions lo ths v ->
  served A work tick v0 num_partitions lo ths' v' ->
  Forall (fun th => th_begin th = th_end th) ths ->
  Forall (fun th => th_begin th = th_end th) ths' ->
  map th_end ths = map th_end ths' ->
  ths = ths'.
Proof.
  revert ths' lo. induction ths as [|th ths IH]; intros [|th' ths'] lo Hs Hs' Hj Hj' He;
    simpl in *; try discriminate; auto.
  destruct Hs as (_ & _ & Htm & _ & _ & Hrest).
  destruct Hs' as (_ & _ & Htm' & _ & _ & Hrest').
  inversion Hj as [|? ? Hb Hjr]; inversion Hj' as [|? ? Hb' Hjr']; subst.
  injection He as He1 He2.
  assert (th = th') as ->.
  { destruct th as [b e tm], th' as [b' e' tm']; simpl in *. congruence. }
  f_equal. eapply IH; eauto.
Qed.

End ThreadPoolFacts.

Section ThreadPoolRuns.

Variable A : Type.
Variable work : nat -> A -> A.
Variable tick : nat -> build_timings -> build_timings.
Variable v0 : list A.
Variable num_partitions : Z.

Lemma per_thread_covers (num_threads : Z) :
  0 <= num_partitions -> 0 < num_threads ->
  num_partitions + num_threads < u64_modulus ->
  0 <= num_partitions_per_thread num_partitions num_threads
  /\ num_partitions_per_thread num_partitions num_threads <= num_partitions
  /\ num_partitions
     <= num_threads * num_partitions_per_thread num_partitions num_threads.
Proof.
  intros Hnp Ht Hsum. unfold num_partitions_per_thread.
  rewrite (wrap64_small (num_partitions + num_threads)) by (unfold is_u64; lia).
  rewrite wrap64_small by (unfold is_u64; lia).
  pose proof (Z.mul_div_le (num_partitions + num_threads - 1) num_threads Ht).
  pose proof (Z.mod_pos_bound (num_partitions + num_threads - 1) num_threads Ht).
  pose proof (Z.div_mod (num_partitions + num_threads - 1) num_threads ltac:(lia)).
  assert (0 <= (num_partitions + num_threads - 1) / num_threads)
    by (apply Z.div_pos; lia).
  repeat split; try lia.
  destruct (Z.eq_dec num_partitions 0) as [->|Hnz].
  - rewrite Z.div_small by lia. lia.
  - nia.
Qed.

(** The ranges handed out by the spawning loop tile [[begin, num_partitions)]. *)
Lemma served_spawn (n : nat) (begin per : Z) :
  0 <= begin <= num_partitions -> 0 <= per ->
  num_partitions + per < u64_modulus ->
  num_partitions <= begin + Z.of_nat n * per ->
  served A work tick v0 num_partitions begin (spawn n begin per num_partitions) v0.
Proof.
  revert begin. induction n as [|n IH]; intros begin Hb Hper Hsum Hcov.
  - simpl. lia.
  - cbn [spawn served th_begin th_end th_timings].
    rewrite (wrap64_small (begin + per)) by (unfold is_u64; lia).
    rewrite ticks_start.
    destruct (Z.ltb_spec num_partitions (begin + per)) as [Hlt|Hge].
    + split; [lia|]. split; [lia|]. split; [reflexivity|].
      split; [intros i Hi; lia|]. split; [reflexivity|].
      apply IH; try lia.
    + split; [lia|]. split; [lia|]. split; [reflexivity|].
      split; [intros i Hi; lia|]. split; [reflexivity|].
      apply IH; try lia.
Qed.

Lemma served_all_bounds (ths : list thread) (v : list A) (lo : Z) :
  served A work tick v0 num_partitions lo ths v ->
  Forall (fun th => 0 <= th_begin th <= th_end th /\ th_end th <= num_partitions) ths.
Proof.
  revert lo. induction ths as [|th ths IH]; intros lo Hs; simpl in *; constructor.
  - lia.
  - destruct Hs as (_ & _ & _ & _ & _ & Hrest). eapply IH; eauto.
Qed.

Lemma map_th_end_update (ths : list thread) (t : nat) (th th' : thread) :
  nth_error ths t = Some th -> th_end th' = th_end th ->
  map th_end (update_at t (fun _ => th') ths) = map th_end ths.
Proof.
  revert t. induction ths as [|h ths IH]; intros [|t] Ht He; simpl in *;
    try discriminate; auto.
  - injection Ht as ->. now rewrite He.
  - f_equal. now apply IH.
Qed.

Lemma pool_invariant_step (ends : list Z) (p q : pool A) :
  num_partitions < u64_modulus ->
  pool_invariant A work tick v0 num_partitions ends p ->
  par_step A work tick p q ->
  pool_invariant A work tick v0 num_partitions ends q.
Proof.
  intros Hnp (Hends & Hserved & Hout) Hstep.
  destruct Hstep as [p t th Ht Hne]. unfold pool_invariant. cbn [slots threads].
  split; [|split].
  - rewrite <- Hends. now apply map_th_end_update with (th := th).
  - now apply served_step.
  - intros i Hi. simpl.
    destruct (served_bounds _ _ _ _ _ _ _ _ _ _ Hserved Ht) as [Hb1 Hb2].
    rewrite nth_error_update_at_other by lia. now apply Hout.
Qed.

Lemma pool_invariant_steps (ends : list Z) (p q : pool A) :
  num_partitions < u64_modulus ->
  pool_invariant A work tick v0 num_partitions ends p ->
  par_steps A work tick p q ->
  pool_invariant A work tick v0 num_partitions ends q.
Proof.
  intros Hnp Hinv Hsteps. induction Hsteps as [p|p q r Hstep Hsteps IH]; auto.
  apply IH. eapply pool_invariant_step; eauto.
Qed.

Lemma remaining_update (ths : list thread) (t : nat) (th th' : thread) :
  nth_error ths t = Some th ->
  remaining (update_at t (fun _ => th') ths)
  = remaining ths - (th_end th - th_begin th) + (th_end th' - th_begin th').
Proof.
  unfold remaining. revert t.
  induction ths as [|h ths IH]; intros [|t] Ht; simpl in *; try discriminate.
  - injection Ht as ->. lia.
  - rewrite (IH t Ht). lia.
Qed.

Lemma remaining_nonneg (ths : list thread) :
  Forall (fun th => 0 <= th_begin th <= th_end th /\ th_end th <= num_partitions) ths ->
  0 <= remaining ths.
Proof.
  unfold remaining. induction 1 as [|th ths Hth Hall IH]; simpl; lia.
Qed.

(** Every step uses up one of the iterations that remain: a run has at most
    as many steps as its pool has iterations to run. *)
Lemma par_step_remaining (ends : list Z) (p q : pool A) :
  num_partitions < u64_modulus ->
  pool_invariant A work tick v0 num_partitions ends p ->
  par_step A work tick p q ->
  remaining (threads q) = remaining (threads p) - 1
  /\ 0 <= remaining (threads q).
Proof.
  intros Hnp Hinv Hstep.
  pose proof (pool_invariant_step ends p q Hnp Hinv Hstep) as (_ & Hserved' & _).
  pose proof (remaining_nonneg _ (served_all_bounds _ _ _ Hserved')) as Hnn.
  split; [|exact Hnn].
  destruct Hinv as (_ & Hserved & _).
  destruct Hstep as [p t th Ht Hne]. cbn [threads].
  destruct (served_bounds _ _ _ _ _ _ _ _ _ _ Hserved Ht) as [Hb1 Hb2].
  rewrite (remaining_update _ _ _ _ Ht). simpl.
  rewrite wrap64_small by (unfold is_u64; lia). lia.
Qed.

Lemma all_worked_unique (n : nat) (v v' : list A) :
  all_worked A work n v0 v -> all_worked A work n v0 v' -> v = v'.
Proof.
  intros Hv Hv'. apply nth_error_ext. intros i. now rewrite Hv, Hv'.
Qed.

(** A pool whose threads have all left their loops has worked on every
    slot below [num_partitions], once each. *)
Lemma pool_invariant_joined (ends : list Z) (p : pool A) :
  0 <= num_partitions ->
  pool_invariant A work tick v0 num_partitions ends p ->
  joined A p ->
  all_worked A work (Z.to_nat num_partitions) v0 (slots p).
Proof.
  intros Hnp (Hends & Hserved & Hout) Hj i.
  destruct (Nat.ltb_spec i (Z.to_nat num_partitions)) as [Hlt|Hge].
  - pose proof (served_joined _ _ _ _ _ _ _ _ Hserved Hj (Z.of_nat i) ltac:(lia)) as Hw.
    now rewrite Nat2Z.id in Hw.
  - now apply Hout.
Qed.

Lemma par_steps_trans (p q r : pool A) :
  par_steps A work tick p q -> par_steps A work tick q r -> par_steps A work tick p r.
Proof.
  intros Hpq Hqr. induction Hpq as [p|p q' q Hstep Hsteps IH]; auto.
  eapply par_steps_step; eauto.
Qed.

Lemma update_at_middle (pre post : list thread) (th th' : thread) :
  update_at (length pre) (fun _ => th') (pre ++ th :: post) = pre ++ th' :: post.
Proof.
  induction pre as [|h pre IH]; simpl; auto. now rewrite IH.
Qed.

Lemma nth_error_middle (pre post : list thread) (th : thread) :
  nth_error (pre ++ th :: post) (length pre) = Some th.
Proof.
  induction pre as [|h pre IH]; simpl; auto.
Qed.

(** [exe] is a run of the interleaving semantics in which only one thread
    moves, and it ends with that thread out of its loop. *)
Lemma exe_par_steps (fuel : nat) (pre post : list thread) (th : thread) (v : list A) :
  0 <= th_begin th <= th_end th -> th_end th < u64_modulus ->
  th_end th - th_begin th <= Z.of_nat fuel ->
  par_steps A work tick
            {| slots := v; threads := pre ++ th :: post |}
            {| slots := snd (exe A work tick fuel th v);
               threads := pre ++ fst (exe A work tick fuel th v) :: post |}
  /\ th_begin (fst (exe A work tick fuel th v))
     = th_end (fst (exe A work tick fuel th v)).
Proof.
  revert th v. induction fuel as [|fuel IH]; intros th v Hb He Hfuel.
  - simpl. split; [apply par_steps_refl | lia].
  - cbn [exe]. destruct (Z.eqb_spec (th_begin th) (th_end th)) as [Heq|Hne].
    + simpl. split; [apply par_steps_refl | exact Heq].
    + destruct (exe_body A work tick th v) as [th' v'] eqn:Hbody.
      assert (Hth' : th' = fst (exe_body A work tick th v)) by now rewrite Hbody.
      assert (Hv' : v' = snd (exe_body A work tick th v)) by now rewrite Hbody.
      assert (Hw : wrap64 (th_begin th + 1) = th_begin th + 1)
        by (apply wrap64_small; unfold is_u64; lia).
      assert (Hb' : th_begin th' = th_begin th + 1)
        by (rewrite Hth'; simpl; exact Hw).
      assert (He' : th_end th' = th_end th) by (rewrite Hth'; reflexivity).
      destruct (IH th' v' ltac:(lia) ltac:(lia) ltac:(lia)) as [Hsteps Hdone].
      split; [|exact Hdone].
      eapply par_steps_step; [|exact Hsteps].
      pose proof (par_step_thread A work tick
                    {| slots := v; threads := pre ++ th :: post |}
                    (length pre) th (nth_error_middle pre post th) Hne) as Hstep.
      cbn [slots threads] in Hstep.
      rewrite update_at_middle in Hstep. rewrite <- Hth', <- Hv' in Hstep.
      exact Hstep.
Qed.

End ThreadPoolRuns.

Section ThreadPoolTheorems.

Variable A : Type.
Variable work : nat -> A -> A.
Variable tick : nat -> build_timings -> build_timings.

(** Running the threads in turn is one run of the interleaving semantics,
    and it ends with every thread out of its loop. *)
Lemma run_in_turn_par_steps (post pre : list thread) (v : list A) :
  Forall (fun th => 0 <= th_begin th <= th_end th /\ th_end th < u64_modulus) post ->
  par_steps A work tick
            {| slots := v; threads := pre ++ post |}
            {| slots := snd (run_in_turn A work tick post v);
               threads := pre ++ fst (run_in_turn A work tick post v) |}
  /\ Forall (fun th => th_begin th = th_end th) (fst (run_in_turn A work tick post v)).
Proof.
  revert pre v. induction post as [|th post IH]; intros pre v Hall.
  - simpl. split; [apply par_steps_refl | constructor].
  - inversion Hall as [|? ? [Hb He] Hall']; subst.
    cbn [run_in_turn].
    destruct (exe A work tick (Z.to_nat (th_end th - th_begin th)) th v)
      as [th' v'] eqn:Hexe.
    destruct (run_in_turn A work tick post v') as [ths'' v''] eqn:Hrun.
    destruct (exe_par_steps A work tick (Z.to_nat (th_end th - th_begin th))
                pre post th v Hb He ltac:(lia)) as [Hsteps Hdone].
    rewrite Hexe in Hsteps, Hdone. simpl in Hsteps, Hdone.
    destruct (IH (pre ++ [th']) v' Hall') as [Hsteps' Hdone'].
    rewrite Hrun in Hsteps', Hdone'. simpl in Hsteps', Hdone'.
    rewrite <- !app_assoc in Hsteps'. simpl in Hsteps'.
    simpl. split.
    + eapply par_steps_trans; eauto.
    + constructor; auto.
Qed.

Variable v0 : list A.
Variable num_partitions num_threads : Z.

Hypothesis partitions_fit : 0 <= num_partitions < 2 ^ 63.
Hypothesis threads_fit : 0 < num_threads < 2 ^ 63.

Lemma start_pool_invariant :
  pool_invariant A work tick v0 num_partitions
    (map th_end (threads (start_pool A v0 num_partitions num_threads)))
    (start_pool A v0 num_partitions num_threads).
Proof.
  pose proof two_63_lt as Hm.
  destruct (per_thread_covers num_partitions num_threads) as (Hp0 & Hp1 & Hcov);
    try lia.
  unfold pool_invariant, start_pool. cbn [slots threads].
  split; [reflexivity|]. split; [|reflexivity].
  apply served_spawn; try lia.
Qed.

(** There is a complete run: the one that takes the threads in turn. *)
Lemma in_turn_completes :
  let r := run_in_turn A work tick
             (threads (start_pool A v0 num_partitions num_threads)) v0 in
  par_steps A work tick (start_pool A v0 num_partitions num_threads)
            {| slots := snd r; threads := fst r |}
  /\ joined A {| slots := snd r; threads := fst r |}.
Proof.
  pose proof two_63_lt as Hm.
  destruct start_pool_invariant as (_ & Hserved & _).
  pose proof (served_all_bounds _ _ _ _ _ _ _ _ Hserved) as Hb.
  apply (run_in_turn_par_steps _ [] v0).
  eapply Forall_impl; [|exact Hb]. cbv beta. intros th Hth. lia.
Qed.

(** Every complete run ends in the same pool, with every slot below
    [num_partitions] worked on once. *)
Lemma complete_runs_agree (p : pool A) :
  par_steps A work tick (start_pool A v0 num_partitions num_threads) p ->
  joined A p ->
  let r := run_in_turn A work tick
             (threads (start_pool A v0 num_partitions num_threads)) v0 in
  slots p = snd r /\ threads p = fst r
  /\ all_worked A work (Z.to_nat num_partitions) v0 (slots p).
Proof.
  intros Hsteps Hj r.
  pose proof two_63_lt as Hm.
  assert (Hnp : num_partitions < u64_modulus) by lia.
  assert (Hnp0 : 0 <= num_partitions) by lia.
  pose proof start_pool_invariant as Hinv0.
  pose proof (pool_invariant_steps _ _ _ _ _ _ _ _ Hnp Hinv0 Hsteps) as Hinv.
  destruct in_turn_completes as [Hsteps' Hj']. fold r in Hsteps', Hj'.
  pose proof (pool_invariant_steps _ _ _ _ _ _ _ _ Hnp Hinv0 Hsteps') as Hinv'.
  pose proof (pool_invariant_joined _ _ _ _ _ _ _ Hnp0 Hinv Hj) as Hw.
  pose proof (pool_invariant_joined _ _ _ _ _ _ _ Hnp0 Hinv' Hj') as Hw'.
  destruct Hinv as (Hends & Hserved & _). destruct Hinv' as (Hends' & Hserved' & _).
  cbn [slots threads] in *.
  split; [|split]; auto.
  - eapply all_worked_unique; eauto.
  - eapply served_joined_unique; eauto. congruence.
Qed.

(** No run goes on for ever: each step leaves one iteration less to run. *)
Lemma runs_are_finite (p q : pool A) :
  par_steps A work tick (start_pool A v0 num_partitions num_threads) p ->
  par_step A work tick p q ->
  remaining (threads q) = remaining (threads p) - 1
  /\ 0 <= remaining (threads q).
Proof.
  intros Hsteps Hstep. pose proof two_63_lt as Hm.
  assert (Hnp : num_partitions < u64_modulus) by lia.
  pose proof (pool_invariant_steps _ _ _ _ _ _ _ _ Hnp start_pool_invariant Hsteps)
    as Hinv.
  eapply par_step_remaining; eauto.
Qed.

(** The sequential loop works on every slot below [n], once. *)
Lemma run_sequential_spec (n : nat) (v : list A) (t : build_timings) :
  all_worked A work n v (fst (run_sequential A work tick n v t))
  /\ snd (run_sequential A work tick n v t)
     = fold_left (fun acc i => tick i acc) (seq 0 n) t.
Proof.
  unfold run_sequential. induction n as [|n IH].
  - simpl. split; auto. intros i. reflexivity.
  - rewrite seq_S, !fold_left_app. simpl.
    destruct (fold_left (fun '(v1, t1) i => (update_at i (work i) v1, tick i t1))
                        (seq 0 n) (v, t)) as [vn tn] eqn:Hfold.
    simpl in IH. destruct IH as [Hw Ht]. simpl. split.
    + intros i. destruct (Nat.eq_dec i n) as [->|Hne].
      * rewrite nth_error_update_at_same, Hw.
        rewrite Nat.ltb_irrefl.
        destruct (Nat.ltb_spec n (S n)); [reflexivity | lia].
      * rewrite nth_error_update_at_other by lia. rewrite Hw.
        destruct (Nat.ltb_spec i n), (Nat.ltb_spec i (S n)); try lia; reflexivity.
    + now rewrite Ht.
Qed.

End ThreadPoolTheorems.

(** ** The partitioned builder *)

Section BuilderFacts.

Context {H : Hasher} {UB : UniformBucketer} {SB : SkewBucketer}.
Context {PR : Primitives} {B : SingleBuilder H SB}.

(** Whatever the thread count, [build_partitions] hands partition [i] to
    builder [i], once. *)
Lemma build_partitions_all_worked (dur : nat -> build_timings)
  (partitions : list (list hash_type)) (builders : list single_builder)
  (config : build_configuration) (T : Z) :
  0 <= num_partitions config < 2 ^ 63 -> T < 2 ^ 63 ->
  all_worked _ (builder.build_work partitions config)
             (Z.to_nat (num_partitions config)) builders
             (fst (builder.build_partitions dur partitions builders config T)).
Proof.
  intros Hp Ht. unfold builder.build_partitions.
  destruct (Z.ltb_spec 1 T) as [Hpar|Hseq].
  - pose proof (in_turn_completes _ (builder.build_work partitions config)
                  (builder.build_tick dur) builders (num_partitions config) T
                  Hp ltac:(lia)) as [Hsteps Hj].
    pose proof (complete_runs_agree _ _ _ builders (num_partitions config) T
                  Hp ltac:(lia) _ Hsteps Hj) as (_ & _ & Hw).
    cbn [slots] in Hw.
    change (slots (start_pool single_builder builders (num_partitions config) T))
      with builders.
    destruct (run_in_turn _ _ _ _ _) as [ths builders'] eqn:Hrun.
    exact Hw.
  - apply run_sequential_spec.
Qed.

(** The object and the timings [build_from_hashes] leaves when both guards
    pass. *)
Lemma build_from_hashes_returns (elapsed : float) (dur : nat -> build_timings)
  (hashes : list hash_type) (num_keys : Z) (config : build_configuration)
  (s0 : builder.t) :
  check_hash_collision_probability num_keys = None ->
  num_partitions config <> 0 ->
  let P := builder.collapsed_num_partitions num_keys config in
  let partitions := partitions_of hashes num_keys config in
  let s1 :=
    builder.Build_t (seed config) num_keys 0 P (uniform_init P)
                    (resize (Z.to_nat P) 0 (builder.m_offsets s0))
                    (resize (Z.to_nat P) single_builder_default (builder.m_builders s0)) in
  let s2 := builder.sizing_loop config partitions (Z.to_nat P) s1 in
  let r := builder.build_partitions dur partitions (builder.m_builders s2)
             (builder.partition_config config P (builder.m_seed s2) num_keys)
             (num_threads config) in
  builder.build_from_hashes elapsed dur hashes num_keys config s0
  = (builder.set_m_builders (fst r) s2,
     Returns {| partitioning_seconds := elapsed;
                mapping_ordering_seconds := mapping_ordering_seconds (snd r);
                searching_seconds := searching_seconds (snd r);
                encoding_seconds := 0 |}).
Proof.
  intros Hcheck Hnz P partitions s1 s2 r.
  unfold builder.build_from_hashes, bind, assign, read, ret, throw.
  rewrite Hcheck.
  destruct (Z.eqb_spec (num_partitions config) 0) as [Hz|_]; [contradiction|].
  match goal with
  | |- context [let '(x, y) := ?bp in _] => change bp with r
  end.
  destruct r as [builders' t]. reflexivity.
Qed.

Lemma build_from_hashes_guards (elapsed : float) (dur : nat -> build_timings)
  (hashes : list hash_type) (num_keys : Z) (config : build_configuration)
  (s0 b : builder.t) (timings : build_timings) :
  builder.build_from_hashes elapsed dur hashes num_keys config s0
  = (b, Returns timings) ->
  check_hash_collision_probability num_keys = None /\ num_partitions config <> 0.
Proof.
  unfold builder.build_from_hashes, bind, throw, ret.
  destruct (check_hash_collision_probability num_keys); [discriminate|].
  destruct (Z.eqb_spec (num_partitions config) 0); [discriminate|].
  intros _. split; auto.
Qed.

Lemma collapsed_num_partitions_cases (num_keys : Z) (config : build_configuration) :
  builder.collapsed_num_partitions num_keys config = 1
  \/ builder.collapsed_num_partitions num_keys config = num_partitions config.
Proof.
  unfold builder.collapsed_num_partitions.
  destruct (_ && _); auto.
Qed.

Lemma partitions_of_length (hashes : list hash_type) (num_keys : Z)
  (config : build_configuration) :
  length (partitions_of hashes num_keys config)
  = Z.to_nat (builder.collapsed_num_partitions num_keys config).
Proof.
  unfold partitions_of. rewrite distribute_length. apply repeat_length.
Qed.

(** The fields of the builder after a build that returned. *)
Lemma built_fields (elapsed : float) (dur : nat -> build_timings)
  (hashes : list hash_type) (num_keys : Z) (config : build_configuration)
  (s0 b : builder.t) (timings : build_timings) :
  builder.build_from_hashes elapsed dur hashes num_keys config s0
  = (b, Returns timings) ->
  let P := builder.collapsed_num_partitions num_keys config in
  let partitions := partitions_of hashes num_keys config in
  builder.m_seed b = seed config
  /\ builder.m_num_keys b = num_keys
  /\ builder.m_num_partitions b = P
  /\ builder.m_bucketer b = uniform_init P
  /\ length (builder.m_offsets b) = Z.to_nat P
  /\ (forall i, (i < Z.to_nat P)%nat ->
        nth i (builder.m_offsets b) 0
        = wrap64 (prefix_sum (increments config partitions) i))
  /\ builder.m_table_size b = wrap64 (zsum (table_sizes config partitions))
  /\ builder.m_builders b
     = fst (builder.build_partitions dur partitions
              (resize (Z.to_nat P) single_builder_default (builder.m_builders s0))
              (builder.partition_config config P (seed config) num_keys)
              (num_threads config)).
Proof.
  intros Hbuild P partitions.
  destruct (build_from_hashes_guards _ _ _ _ _ _ _ _ Hbuild) as [Hcheck Hnz].
  rewrite (build_from_hashes_returns elapsed dur hashes num_keys config s0 Hcheck Hnz)
    in Hbuild.
  fold P partitions in Hbuild.
  set (s1 := builder.Build_t (seed config) num_keys 0 P (uniform_init P)
               (resize (Z.to_nat P) 0 (builder.m_offsets s0))
               (resize (Z.to_nat P) single_builder_default (builder.m_builders s0)))
    in Hbuild.
  assert (Hlen : length partitions = Z.to_nat P) by apply partitions_of_length.
  pose proof (sizing_fold config partitions s1 (Z.to_nat P) eq_refl
                ltac:(lia) ltac:(simpl; rewrite resize_length; lia)) as Hfold.
  cbv zeta in Hfold. fold (builder.sizing_loop config partitions (Z.to_nat P) s1) in Hfold.
  destruct Hfold as (_ & Htab & Hlen' & Hlow & _ & Hs1 & Hs2 & Hs3 & Hs4 & Hs5).
  simpl in Hlen', Hs1, Hs2, Hs3, Hs4, Hs5.
  rewrite resize_length in Hlen'.
  rewrite Hs1, Hs5 in Hbuild.
  injection Hbuild as Hb _. subst b.
  cbn [builder.set_m_builders builder.m_seed builder.m_num_keys builder.m_table_size
       builder.m_num_partitions builder.m_bucketer builder.m_offsets
       builder.m_builders].
  repeat split; auto.
  rewrite Htab. f_equal. rewrite <- Hlen. rewrite <- (table_sizes_length config).
  apply prefix_sum_all.
Qed.

End BuilderFacts.

(** ** The partitions of a build *)

Section PartitionFacts.

Context {H : Hasher} {UB : UniformBucketer} {SB : SkewBucketer}.
Context {PR : Primitives} {B : SingleBuilder H SB}.

Lemma concat_repeat_nil (n : nat) : concat (repeat (@nil hash_type) n) = [].
Proof. induction n; simpl; auto. Qed.

Lemma collapsed_num_partitions_pos (num_keys : Z) (config : build_configuration) :
  is_u64 (num_partitions config) -> num_partitions config <> 0 ->
  0 < builder.collapsed_num_partitions num_keys config.
Proof.
  unfold is_u64. intros Hu Hnz.
  destruct (collapsed_num_partitions_cases num_keys config) as [->| ->]; lia.
Qed.

Lemma collapsed_num_partitions_le (num_keys : Z) (config : build_configuration) :
  num_partitions config <> 0 -> is_u64 (num_partitions config) ->
  builder.collapsed_num_partitions num_keys config <= num_partitions config.
Proof.
  unfold is_u64. intros Hnz Hu.
  destruct (collapsed_num_partitions_cases num_keys config) as [->| ->]; lia.
Qed.

(** Every key is in exactly one partition, the one its mix is bucketed
    to, and the partition sizes add up to the number of keys. *)
Lemma partitions_of_facts (hashes : list hash_type) (num_keys : Z)
  (config : build_configuration) :
  uniform_in_range ->
  0 < builder.collapsed_num_partitions num_keys config ->
  num_keys = Z.of_nat (length hashes) ->
  let P := builder.collapsed_num_partitions num_keys config in
  let partitions := partitions_of hashes num_keys config in
  Permutation hashes (concat partitions)
  /\ (forall i h, In h (nth i partitions []) ->
        Z.to_nat (uniform_bucket (uniform_init P) (hash_mix h)) = i)
  /\ zsum (sizes partitions) = num_keys.
Proof.
  intros Hrange HP Hn P partitions.
  assert (Hfirst : firstn (Z.to_nat num_keys) hashes = hashes)
    by (subst num_keys; rewrite Nat2Z.id; apply firstn_all).
  assert (Hperm : Permutation hashes (concat partitions)).
  { unfold partitions, partitions_of. rewrite Hfirst. fold P.
    pose proof (distribute_permutation (uniform_init P) hashes
                  (repeat [] (Z.to_nat P))) as Hd.
    rewrite concat_repeat_nil in Hd. simpl in Hd. apply Hd.
    intros h _. rewrite repeat_length.
    pose proof (Hrange P (hash_mix h) HP). lia. }
  split; [exact Hperm|]. split.
  - unfold partitions, partitions_of. fold P.
    apply distribute_home. intros i h Hin.
    destruct (Nat.lt_ge_cases i (Z.to_nat P)) as [Hi|Hi].
    + rewrite nth_repeat_lt in Hin by exact Hi. destruct Hin.
    + rewrite nth_overflow in Hin by (rewrite repeat_length; exact Hi).
      destruct Hin.
  - rewrite zsum_sizes_concat, <- (Permutation_length Hperm). now symmetry.
Qed.

Lemma table_size_is_u64 (config : build_configuration) (size : Z) :
  is_u64 (builder.partition_table_size config size).
Proof.
  unfold builder.partition_table_size.
  assert (Hd : forall x, is_u64 (double_to_u64 x)).
  { intros x. unfold double_to_u64.
    destruct (Prim2SF x) as [| | |[] m e]; try apply wrap64_is_u64;
      unfold is_u64; split; try reflexivity; apply Z.le_refl. }
  destruct (Z.land _ _ =? 0); [apply wrap64_is_u64 | apply Hd].
Qed.

Lemma sizes_nonneg (partitions : list (list hash_type)) :
  Forall (fun x => 0 <= x) (sizes partitions).
Proof.
  unfold sizes. apply Forall_forall. intros x Hx.
  apply in_map_iff in Hx. destruct Hx as (p & <- & _). lia.
Qed.

Lemma table_sizes_nonneg (config : build_configuration)
  (partitions : list (list hash_type)) :
  Forall (fun x => 0 <= x) (table_sizes config partitions).
Proof.
  unfold table_sizes. apply Forall_forall. intros x Hx.
  apply in_map_iff in Hx. destruct Hx as (p & <- & _).
  apply table_size_is_u64.
Qed.

End PartitionFacts.

(** ** Table sizes *)

Lemma double_to_u64_is_u64 (x : float) : is_u64 (double_to_u64 x).
Proof.
  unfold double_to_u64.
  destruct (Prim2SF x) as [| | |[] m e]; try apply wrap64_is_u64;
    unfold is_u64; split; try reflexivity; apply Z.le_refl.
Qed.

(** Zero divided by a positive double is zero. *)
Lemma zero_keys_over_alpha (a : float) :
  (0 <? a)%float = true -> double_to_u64 (u64_to_double 0 / a) = 0.
Proof.
  intros Ha. rewrite ltb_spec in Ha.
  unfold double_to_u64. rewrite div_spec.
  change (Prim2SF (u64_to_double 0)) with (S754_zero false).
  change (Prim2SF 0) with (S754_zero false) in Ha.
  destruct (Prim2SF a) as [s|s| |s m e]; simpl in Ha; try discriminate;
    destruct s; try discriminate; reflexivity.
Qed.

(** The test [(x & (x - 1)) == 0] on a positive number: it is a power of
    two. *)
Lemma land_pred_power_of_two (t : Z) :
  0 < t -> (Z.land t (t - 1) = 0 <-> t = 2 ^ Z.log2 t).
Proof.
  intros Ht. pose proof (Z.log2_nonneg t) as Hk.
  pose proof (Z.log2_spec t Ht) as [Hlo Hhi].
  split.
  - intros Hland.
    destruct (Z.eq_dec t (2 ^ Z.log2 t)) as [Heq|Hne]; [exact Heq|exfalso].
    assert (Hlog : Z.log2 (t - 1) = Z.log2 t)
      by (apply Z.log2_unique; [exact Hk | lia]).
    assert (H1 : Z.testbit t (Z.log2 t) = true) by (apply Z.bit_log2; lia).
    assert (H2 : Z.testbit (t - 1) (Z.log2 t) = true)
      by (rewrite <- Hlog; apply Z.bit_log2; lia).
    assert (H3 : Z.testbit (Z.land t (t - 1)) (Z.log2 t) = true)
      by (rewrite Z.land_spec, H1, H2; reflexivity).
    rewrite Hland, Z.bits_0 in H3. discriminate.
  - intros Heq. rewrite Heq at 1 2.
    replace (2 ^ Z.log2 t - 1) with (Z.ones (Z.log2 t))
      by (rewrite Z.ones_equiv; lia).
    rewrite Z.land_ones by exact Hk. apply Z_mod_same_full.
Qed.

Lemma power_of_two_test (t : Z) :
  is_u64 t ->
  (Z.land t (wrap64 (t - 1)) =? 0) = (t =? 0) || is_power_of_two t.
Proof.
  unfold is_u64. intros Ht. unfold is_power_of_two.
  destruct (Z.eqb_spec t 0) as [->|Hnz]; [reflexivity|].
  rewrite wrap64_small by (unfold is_u64; lia).
  destruct (Z.ltb_spec 0 t); [|lia]. simpl.
  pose proof (land_pred_power_of_two t ltac:(lia)) as Hiff.
  destruct (Z.eqb_spec (Z.land t (t - 1)) 0) as [Hl|Hl],
           (Z.eqb_spec t (2 ^ Z.log2 t)) as [Hp|Hp]; tauto.
Qed.

Lemma power_of_two_below (t : Z) :
  is_u64 t -> is_power_of_two t = true -> t <= 2 ^ 63.
Proof.
  unfold is_u64, is_power_of_two. intros [Ht0 Ht] Hp.
  apply andb_prop in Hp. destruct Hp as [Hpos Heq].
  apply Z.ltb_lt in Hpos. apply Z.eqb_eq in Heq.
  assert (Hlog : Z.log2 t < 64) by (apply Z.log2_lt_pow2; [lia | exact Ht]).
  rewrite Heq. apply Z.pow_le_mono_r; lia.
Qed.

(** Lines 66-67, read as arithmetic: the truncated quotient, one more when
    it is zero or a power of two. *)
Lemma partition_table_size_spec (config : build_configuration) (size : Z) :
  let t := double_to_u64 (u64_to_double size / alpha config) in
  builder.partition_table_size config size
  = if (t =? 0) || is_power_of_two t then t + 1 else t.
Proof.
  intros t. unfold builder.partition_table_size. fold t.
  pose proof (double_to_u64_is_u64 (u64_to_double size / alpha config)) as Hu.
  fold t in Hu. rewrite (power_of_two_test t Hu).
  destruct (Z.eqb_spec t 0) as [H0|H0]; simpl.
  - rewrite H0. reflexivity.
  - destruct (is_power_of_two t) eqn:Hp; [|reflexivity].
    pose proof (power_of_two_below t Hu Hp) as Hle.
    pose proof two_63_lt. unfold is_u64 in Hu.
    apply wrap64_small. unfold is_u64. lia.
Qed.

Lemma partition_table_size_ge_1 (config : build_configuration) (size : Z) :
  1 <= builder.partition_table_size config size < u64_modulus.
Proof.
  pose proof (table_size_is_u64 config size) as Hu. unfold is_u64 in Hu.
  split; [|lia].
  rewrite partition_table_size_spec.
  pose proof (double_to_u64_is_u64 (u64_to_double size / alpha config)) as Ht.
  unfold is_u64 in Ht.
  destruct (Z.eqb_spec (double_to_u64 (u64_to_double size / alpha config)) 0);
    simpl; [lia|].
  destruct (is_power_of_two _); lia.
Qed.

(** An empty partition gets table size 1. *)
Lemma empty_partition_table_size (config : build_configuration) :
  (0 <? alpha config)%float = true ->
  builder.partition_table_size config 0 = 1.
Proof.
  intros Ha. rewrite partition_table_size_spec.
  rewrite (zero_keys_over_alpha _ Ha). reflexivity.
Qed.

(** * The properties of the specification *)

Section SizingProperties.

Context {H : Hasher} {UB : UniformBucketer} {SB : SkewBucketer}.
Context {PR : Primitives} {B : SingleBuilder H SB}.

Variable elapsed : float.
Variable dur : nat -> build_timings.
Variable hashes : list hash_type.
Variable num_keys : Z.
Variable config : build_configuration.
Variable s0 b : builder.t.
Variable timings : build_timings.

(** C3.  After a build that returned, [offset_i] is the sum of the sizes of
    the partitions before [i] when [minimal_output] is set, and the sum of
    their table sizes (in 64-bit arithmetic; the plain sum when the total
    table size fits) when it is not; the partition sizes add up to
    [num_keys]. *)
Theorem offsets_are_prefix_sums :
  uniform_in_range ->
  is_u64 (num_partitions config) ->
  num_keys = Z.of_nat (length hashes) ->
  num_keys < u64_modulus ->
  builder.build_from_hashes elapsed dur hashes num_keys config s0
  = (b, Returns timings) ->
  let partitions := partitions_of hashes num_keys config in
  length partitions = Z.to_nat (builder.m_num_partitions b)
  /\ zsum (sizes partitions) = num_keys
  /\ forall i, (i < length partitions)%nat ->
       nth i (builder.m_offsets b) 0
       = (if minimal_output config then prefix_sum (sizes partitions) i
          else wrap64 (prefix_sum (table_sizes config partitions) i))
       /\ (zsum (table_sizes config partitions) < u64_modulus ->
           nth i (builder.m_offsets b) 0
           = prefix_sum (if minimal_output config then sizes partitions
                         else table_sizes config partitions) i).
Proof.
  intros Hrange Hu Hn Hlt Hbuild partitions.
  destruct (build_from_hashes_guards _ _ _ _ _ _ _ _ Hbuild) as [_ Hnz].
  pose proof (collapsed_num_partitions_pos num_keys config Hu Hnz) as HP.
  destruct (built_fields _ _ _ _ _ _ _ _ Hbuild)
    as (_ & _ & Hnp & _ & _ & Hoff & _ & _).
  destruct (partitions_of_facts hashes num_keys config Hrange HP Hn)
    as (_ & _ & Hsum).
  fold partitions in Hoff, Hsum.
  assert (Hlen : length partitions = Z.to_nat (builder.m_num_partitions b))
    by (rewrite Hnp; apply partitions_of_length).
  split; [exact Hlen|]. split; [exact Hsum|].
  intros i Hi. rewrite Hoff by (rewrite <- Hnp, <- Hlen; exact Hi).
  unfold increments.
  assert (Hmin : wrap64 (prefix_sum (sizes partitions) i)
                 = prefix_sum (sizes partitions) i).
  { apply wrap64_small. unfold is_u64.
    pose proof (prefix_sum_nonneg _ i (sizes_nonneg partitions)).
    pose proof (prefix_sum_le_zsum _ i (sizes_nonneg partitions)). lia. }
  destruct (minimal_output config).
  - split; [exact Hmin | intros _; exact Hmin].
  - split; [reflexivity|]. intros Hfit.
    apply wrap64_small. unfold is_u64.
    pose proof (prefix_sum_nonneg _ i (table_sizes_nonneg config partitions)).
    pose proof (prefix_sum_le_zsum _ i (table_sizes_nonneg config partitions)). lia.
Qed.

(** C4, as the code has it.  The table size of a partition is the double
    quotient [size / alpha] truncated to an integer (not rounded up), one
    more when this is zero or a power of two; the builder's [table_size] is
    the 64-bit sum of the partitions' table sizes. *)
Theorem table_size_is_truncated_quotient :
  builder.build_from_hashes elapsed dur hashes num_keys config s0
  = (b, Returns timings) ->
  let partitions := partitions_of hashes num_keys config in
  builder.m_table_size b = wrap64 (zsum (table_sizes config partitions))
  /\ forall i, (i < length partitions)%nat ->
       let size := Z.of_nat (length (nth i partitions [])) in
       let t := double_to_u64 (u64_to_double size / alpha config) in
       nth i (table_sizes config partitions) 0
       = if (t =? 0) || is_power_of_two t then t + 1 else t.
Proof.
  intros Hbuild partitions.
  destruct (built_fields _ _ _ _ _ _ _ _ Hbuild)
    as (_ & _ & _ & _ & _ & _ & Htab & _).
  split; [exact Htab|].
  intros i Hi size t. rewrite nth_table_sizes by exact Hi.
  apply partition_table_size_spec.
Qed.

(** C5.  With more than one partition requested, the build goes on with one
    partition when the average partition size [num_keys / num_partitions]
    (a double) is below [min_partition_size], and with the requested count
    otherwise; that count is what [num_partitions()] reports and what the
    partition bucketer and the offsets are sized with. *)
Theorem partition_count_collapses :
  1 < num_partitions config ->
  builder.build_from_hashes elapsed dur hashes num_keys config s0
  = (b, Returns timings) ->
  let average_partition_size :=
    (u64_to_double num_keys / u64_to_double (num_partitions config))%float in
  let final :=
    if (average_partition_size <? u64_to_double min_partition_size)%float
    then 1 else num_partitions config in
  builder.m_num_partitions b = final
  /\ builder.m_bucketer b = uniform_init final
  /\ length (builder.m_offsets b) = Z.to_nat final
  /\ length (partitions_of hashes num_keys config) = Z.to_nat final.
Proof.
  intros HP Hbuild average_partition_size final.
  destruct (built_fields _ _ _ _ _ _ _ _ Hbuild)
    as (_ & _ & Hnp & Hbk & Hlen & _).
  assert (Hfinal : builder.collapsed_num_partitions num_keys config = final).
  { unfold builder.collapsed_num_partitions, final, average_partition_size.
    destruct (Z.ltb_spec 1 (num_partitions config)); [|lia].
    now rewrite andb_true_r. }
  rewrite partitions_of_length. rewrite Hfinal in *. auto.
Qed.

End SizingProperties.

Section EmptyPartitionProperties.

Context {H : Hasher} {UB : UniformBucketer} {SB : SkewBucketer}.
Context {PR : Primitives} {B : SingleBuilder H SB}.

Variable elapsed : float.
Variable dur : nat -> build_timings.
Variable hashes : list hash_type.
Variable num_keys : Z.
Variable config : build_configuration.
Variable s0 b : builder.t.
Variable timings : build_timings.

Lemma wrap64_add_moves (a m : Z) :
  is_u64 a -> 1 <= m < u64_modulus -> wrap64 (a + m) <> a.
Proof.
  unfold is_u64, wrap64. intros Ha Hm.
  destruct (Z_lt_ge_dec (a + m) u64_modulus) as [Hlt|Hge].
  - rewrite Z.mod_small by lia. lia.
  - assert (Hmod : (a + m) mod u64_modulus = a + m - u64_modulus)
      by (symmetry; apply Z.mod_unique with (q := 1); lia).
    rewrite Hmod. lia.
Qed.

(** The table sizes add up to at least their number. *)
Lemma zsum_at_least_length (l : list Z) :
  (forall i, (i < length l)%nat -> 1 <= nth i l 0) -> Z.of_nat (length l) <= zsum l.
Proof.
  induction l as [|x l IH]; intros Hl; [simpl; lia|].
  pose proof (Hl 0%nat ltac:(simpl; lia)) as Hx. simpl in Hx.
  assert (Hrest : Z.of_nat (length l) <= zsum l).
  { apply IH. intros i Hi. apply (Hl (S i)). simpl. lia. }
  change (zsum (x :: l)) with (x + zsum l).
  rewrite length_cons, Nat2Z.inj_succ. lia.
Qed.

(** C10.  With [alpha > 0], a partition without keys gets table size 1;
    every partition's table size is at least 1, and the builder's
    [table_size] is the 64-bit sum of the partitions' table sizes, so that
    every partition, empty or not, adds at least 1 to it: it is at least
    the number of partitions when the sum fits in 64 bits; with
    [minimal_output] an empty partition's offset is also the next
    partition's offset; without it the next offset is the offset plus the
    table size (64-bit), hence a different one. *)
Theorem empty_partition_takes_one_slot :
  (0 <? alpha config)%float = true ->
  builder.build_from_hashes elapsed dur hashes num_keys config s0
  = (b, Returns timings) ->
  let partitions := partitions_of hashes num_keys config in
  let offsets := builder.m_offsets b in
  (forall i, (i < length partitions)%nat ->
     1 <= nth i (table_sizes config partitions) 0 < u64_modulus
     /\ (nth i partitions [] = [] -> nth i (table_sizes config partitions) 0 = 1))
  /\ (forall i, (S i < length partitions)%nat ->
        (minimal_output config = true -> nth i partitions [] = [] ->
         nth (S i) offsets 0 = nth i offsets 0)
        /\ (minimal_output config = false ->
            nth (S i) offsets 0
            = wrap64 (nth i offsets 0 + nth i (table_sizes config partitions) 0)
            /\ nth (S i) offsets 0 <> nth i offsets 0))
  /\ builder.m_table_size b = wrap64 (zsum (table_sizes config partitions))
  /\ length partitions = Z.to_nat (builder.m_num_partitions b)
  /\ (zsum (table_sizes config partitions) < u64_modulus ->
      builder.m_table_size b = zsum (table_sizes config partitions)
      /\ Z.of_nat (length partitions) <= builder.m_table_size b).
Proof.
  intros Ha Hbuild partitions offsets.
  destruct (built_fields _ _ _ _ _ _ _ _ Hbuild)
    as (_ & _ & Hnp & _ & _ & Hoff & Htab & _).
  fold partitions in Hoff, Htab.
  pose proof (partitions_of_length hashes num_keys config) as Hlen.
  fold partitions in Hlen.
  assert (Hsize : forall i, (i < length partitions)%nat ->
            1 <= nth i (table_sizes config partitions) 0 < u64_modulus).
  { intros i Hi. rewrite nth_table_sizes by exact Hi.
    apply partition_table_size_ge_1. }
  split; [|split; [|split; [exact Htab|split]]].
  - intros i Hi. split; [now apply Hsize|].
    intros Hempty. rewrite nth_table_sizes by exact Hi.
    rewrite Hempty. simpl. now apply empty_partition_table_size.
  - intros i Hi. unfold offsets.
    rewrite !Hoff by lia.
    rewrite prefix_sum_S by (rewrite increments_length; lia).
    rewrite nth_increments by lia.
    split.
    + intros Hmin Hempty. rewrite Hmin, Hempty. simpl. now rewrite Z.add_0_r.
    + intros Hmin. rewrite Hmin.
      rewrite <- nth_table_sizes by lia. rewrite wrap64_add_l.
      split; [reflexivity|].
      rewrite <- wrap64_add_l.
      apply wrap64_add_moves; [apply wrap64_is_u64 | apply Hsize; lia].
  - rewrite Hnp. exact Hlen.
  - intros Hfit.
    assert (Hge : Z.of_nat (length partitions) <= zsum (table_sizes config partitions)).
    { rewrite <- (table_sizes_length config partitions).
      apply zsum_at_least_length. intros i Hi.
      rewrite table_sizes_length in Hi. apply Hsize. exact Hi. }
    assert (Hplain : builder.m_table_size b = zsum (table_sizes config partitions)).
    { rewrite Htab. apply wrap64_small. unfold is_u64. lia. }
    split; [exact Hplain | rewrite Hplain; exact Hge].
Qed.

End EmptyPartitionProperties.

(** ** Tiling a range with blocks *)

Lemma map_nth_seq_id {A : Type} (l : list A) (d : A) :
  map (fun i => nth i l d) (seq 0 (length l)) = l.
Proof.
  induction l as [|x l IH]; simpl; auto.
  f_equal. rewrite <- seq_shift, map_map. exact IH.
Qed.

(** Blocks that list the consecutive ranges [[off i, off (i + 1))], each
    without repetition, together list [[off 0, off n)] without repetition. *)
Lemma blocks_tile (blk : nat -> list Z) (off : nat -> Z) (n : nat) :
  (forall i, (i < n)%nat -> off i <= off (S i)) ->
  (forall i, (i < n)%nat ->
     NoDup (blk i) /\ forall v, In v (blk i) <-> off i <= v < off (S i)) ->
  off 0%nat <= off n
  /\ NoDup (concat (map blk (seq 0 n)))
  /\ forall v, In v (concat (map blk (seq 0 n))) <-> off 0%nat <= v < off n.
Proof.
  induction n as [|n IH]; intros Hmono Hblk.
  - simpl. split; [lia|]. split; [constructor|]. intros v. split; [tauto | lia].
  - destruct IH as (Hle & Hnd & Hin).
    { intros i Hi. apply Hmono. lia. }
    { intros i Hi. apply Hblk. lia. }
    destruct (Hblk n ltac:(lia)) as [Hndn Hinn].
    pose proof (Hmono n ltac:(lia)) as Hstep.
    rewrite seq_S, map_app, concat_app. simpl. rewrite app_nil_r.
    split; [lia|]. split.
    + apply NoDup_app; auto.
      intros v Hv Hv'. apply Hin in Hv. apply Hinn in Hv'. lia.
    + intros v. rewrite in_app_iff, Hin, Hinn. lia.
Qed.

Lemma bijective_onto_permutation (l l' : list Z) (n : Z) :
  Permutation l l' -> bijective_onto l n -> bijective_onto l' n.
Proof.
  intros Hp [Hnd Hin]. split.
  - eapply Permutation_NoDup; eauto.
  - intros v. rewrite <- Hin. split; intros Hv.
    + eapply Permutation_in; [apply Permutation_sym|]; eauto.
    + eapply Permutation_in; eauto.
Qed.

Lemma bijective_onto_shift (l : list Z) (n off : Z) :
  bijective_onto l n ->
  NoDup (map (Z.add off) l)
  /\ forall v, In v (map (Z.add off) l) <-> off <= v < off + n.
Proof.
  intros [Hnd Hin]. split.
  - apply Finite.Injective_map_NoDup; auto. intros x y Hxy. lia.
  - intros v. rewrite in_map_iff. split.
    + intros (x & <- & Hx). apply Hin in Hx. lia.
    + intros Hv. exists (v - off). split; [lia|]. apply Hin. lia.
Qed.

(** ** The function objects *)

Section PhfFacts.

Context {H : Hasher} {UB : UniformBucketer} {SB : SkewBucketer}.
Context {E : Encoder} {EF : EliasFano}.
Context {PR : Primitives} {B : SingleBuilder H SB}.

(** The guard passes exactly when the template parameter and the
    configuration agree; when it throws it leaves the object alone. *)
Lemma check_minimal_agree {S : Type} (who : string) (Minimal : bool)
  (config : build_configuration) (s : S) :
  Minimal = minimal_output config ->
  single_phf.check_minimal who Minimal config s = (s, Returns tt).
Proof.
  intros ->. unfold single_phf.check_minimal.
  destruct (minimal_output config); reflexivity.
Qed.

Lemma check_minimal_disagree {S : Type} (who : string) (Minimal : bool)
  (config : build_configuration) (s : S) :
  Minimal <> minimal_output config ->
  exists what, single_phf.check_minimal who Minimal config s
               = (s, Throws (std_runtime_error what)).
Proof.
  intros Hne. unfold single_phf.check_minimal.
  destruct Minimal, (minimal_output config); simpl; try congruence;
    eexists; reflexivity.
Qed.

(** Both branches of the partition loop work on every slot once. *)
Lemma either_branch_all_worked (A : Type) (work : nat -> A -> A)
  (tick : nat -> build_timings -> build_timings) (v : list A) (NP T : Z)
  (t0 : build_timings) :
  0 <= NP < 2 ^ 63 -> T < 2 ^ 63 ->
  all_worked A work (Z.to_nat NP) v
    (if 1 <? T
     then snd (run_in_turn A work tick (threads (start_pool A v NP T)) v)
     else fst (run_sequential A work tick (Z.to_nat NP) v t0)).
Proof.
  intros HNP HT. destruct (Z.ltb_spec 1 T) as [Hpar|Hseq].
  - pose proof (in_turn_completes A work tick v NP T HNP ltac:(lia)) as [Hsteps Hj].
    pose proof (complete_runs_agree A work tick v NP T HNP ltac:(lia) _ Hsteps Hj)
      as (_ & _ & Hw).
    exact Hw.
  - apply run_sequential_spec.
Qed.

Lemma all_worked_nth (A : Type) (work : nat -> A -> A) (n : nat) (v0 v : list A)
  (d : A) (i : nat) :
  all_worked A work n v0 v -> (i < n)%nat -> (i < length v0)%nat ->
  nth i v d = work i (nth i v0 d).
Proof.
  intros Hw Hi Hlen. specialize (Hw i).
  destruct (Nat.ltb_spec i n); [|lia].
  rewrite (nth_error_nth' v0 d Hlen) in Hw. simpl in Hw.
  now apply nth_error_nth.
Qed.

(** [partitioned_phf::build] when the guard passes. *)
Lemma phf_build_returns (Minimal : bool) (elapsed : float) (b : builder.t)
  (config : build_configuration) (phf0 : partitioned_phf.t) :
  Minimal = minimal_output config ->
  exists phf,
    partitioned_phf.build Minimal elapsed b config phf0 = (phf, Returns elapsed)
    /\ partitioned_phf.m_seed phf = builder.m_seed b
    /\ partitioned_phf.m_num_keys phf = builder.m_num_keys b
    /\ partitioned_phf.m_table_size phf = builder.m_table_size b
    /\ partitioned_phf.m_bucketer phf = builder.m_bucketer b
    /\ (0 <= builder.m_num_partitions b < 2 ^ 63 -> num_threads config < 2 ^ 63 ->
        all_worked _
          (partitioned_phf.encode_work Minimal (builder.m_offsets b)
                                       (builder.m_builders b) config)
          (Z.to_nat (builder.m_num_partitions b))
          (resize (Z.to_nat (builder.m_num_partitions b))
                  partitioned_phf.partition_value_initialized
                  (partitioned_phf.m_partitions phf0))
          (partitioned_phf.m_partitions phf)).
Proof.
  intros Hagree. unfold partitioned_phf.build, bind, assign, ret.
  rewrite (check_minimal_agree _ _ _ _ Hagree).
  eexists. split; [reflexivity|]. cbn.
  repeat split; auto.
  intros HNP HT. apply either_branch_all_worked; auto.
Qed.

Lemma phf_build_guard (Minimal : bool) (elapsed t : float) (b : builder.t)
  (config : build_configuration) (phf0 phf : partitioned_phf.t) :
  partitioned_phf.build Minimal elapsed b config phf0 = (phf, Returns t) ->
  Minimal = minimal_output config.
Proof.
  intros Hbuild.
  destruct (Bool.bool_dec Minimal (minimal_output config)) as [Heq|Hne]; auto.
  destruct (check_minimal_disagree "partitioned_phf" Minimal config phf0 Hne)
    as [what Hthrow].
  unfold partitioned_phf.build, bind in Hbuild. rewrite Hthrow in Hbuild.
  discriminate.
Qed.

End PhfFacts.

Section QueryProperties.

Context {H : Hasher} {UB : UniformBucketer} {SB : SkewBucketer}.
Context {E : Encoder} {EF : EliasFano}.
Context {PR : Primitives} {B : SingleBuilder H SB}.

(** C2.  A query of a single function returns what the specification
    says: the slot [pos = fastmod_u64(h.second() ^ default_hash64(pilot,
    seed), M, m)] with [pilot = pilots.access(bucketer.bucket(h.first()))];
    [pos] itself when the function is not minimal or [pos < n], and
    [free_slots.access(pos - n)] otherwise. *)
Theorem single_position_as_specified (Minimal : bool) (f : single_phf.t)
  (h : hash_type) :
  is_u64 (single_phf.m_num_keys f) ->
  is_u64 (spec_slot f h) ->
  single_phf.position Minimal f h = spec_single_position Minimal f h.
Proof.
  unfold is_u64. intros Hn Hp.
  unfold single_phf.position, spec_single_position, single_phf.num_keys.
  fold (spec_slot f h).
  destruct Minimal; simpl; [|reflexivity].
  destruct (Z.ltb_spec (spec_slot f h) (single_phf.m_num_keys f)) as [Hlt|Hge];
    [reflexivity|].
  rewrite wrap64_small by (unfold is_u64; lia). reflexivity.
Qed.

Variable elapsed encoding t : float.
Variable dur : nat -> build_timings.
Variable hashes : list hash_type.
Variable num_keys : Z.
Variable config : build_configuration.
Variable s0 b : builder.t.
Variable timings : build_timings.
Variable phf0 phf : partitioned_phf.t.

(** C1.  For a minimal partitioned function built over [num_keys] keys: if
    every partition's single function maps the keys of its partition
    bijectively onto [[0, n_i)], then the query [offset_b + f_b.position(h)]
    maps the keys bijectively onto [[0, num_keys)].  Every key is in
    exactly one partition (the one its mix is bucketed to), the [n_i] add
    up to [num_keys], and the offsets are the prefix sums of the [n_i]. *)
Theorem minimal_partitioned_phf_is_a_bijection :
  uniform_in_range ->
  counts_fit config ->
  num_keys = Z.of_nat (length hashes) ->
  num_keys < u64_modulus ->
  minimal_output config = true ->
  builder.build_from_hashes elapsed dur hashes num_keys config s0
  = (b, Returns timings) ->
  partitioned_phf.build true encoding b config phf0 = (phf, Returns t) ->
  let partitions := partitions_of hashes num_keys config in
  let part i := nth i (partitioned_phf.m_partitions phf)
                    partitioned_phf.partition_value_initialized in
  (forall i, (i < length partitions)%nat ->
     bijective_onto
       (map (single_phf.position true (partitioned_phf.f (part i)))
            (nth i partitions []))
       (Z.of_nat (length (nth i partitions [])))) ->
  bijective_onto (map (partitioned_phf.position true phf) hashes) num_keys
  /\ Permutation hashes (concat partitions)
  /\ (forall i h, In h (nth i partitions []) ->
        Z.to_nat (uniform_bucket (partitioned_phf.m_bucketer phf) (hash_mix h)) = i)
  /\ zsum (sizes partitions) = num_keys
  /\ (forall i, (i < length partitions)%nat ->
        partitioned_phf.offset (part i) = prefix_sum (sizes partitions) i).
Proof.
  intros Hrange [HfitP HfitT] Hn Hlt Hmin Hbuild Hphf partitions part Hsingle.
  destruct (build_from_hashes_guards _ _ _ _ _ _ _ _ Hbuild) as [_ Hnz].
  pose proof two_63_lt as H63.
  assert (Hu : is_u64 (num_partitions config)) by (unfold is_u64; lia).
  pose proof (collapsed_num_partitions_pos num_keys config Hu Hnz) as HP.
  pose proof (collapsed_num_partitions_le num_keys config Hnz Hu) as HPle.
  destruct (built_fields _ _ _ _ _ _ _ _ Hbuild)
    as (_ & _ & Hnp & Hbk & Hlenoff & Hoff & _ & _).
  destruct (partitions_of_facts hashes num_keys config Hrange HP Hn)
    as (Hperm & Hhome & Hsum).
  pose proof (partitions_of_length hashes num_keys config) as Hlen.
  fold partitions in Hoff, Hperm, Hhome, Hsum, Hlen.
  set (P := builder.collapsed_num_partitions num_keys config) in *.
  (* the function object *)
  destruct (phf_build_returns true encoding b config phf0 (eq_sym Hmin))
    as (phf' & Hphf' & _ & _ & _ & Hbk' & Hparts).
  rewrite Hphf in Hphf'. injection Hphf' as <- _.
  specialize (Hparts ltac:(rewrite Hnp; lia) ltac:(lia)).
  rewrite Hnp in Hparts.
  assert (Hoffset : forall i, (i < length partitions)%nat ->
            partitioned_phf.offset (part i) = prefix_sum (sizes partitions) i).
  { intros i Hi. unfold part.
    rewrite (all_worked_nth _ _ _ _ _ _ i Hparts) by (rewrite ?resize_length; lia).
    simpl. rewrite Hoff by lia. unfold increments. rewrite Hmin.
    apply wrap64_small. unfold is_u64.
    pose proof (prefix_sum_nonneg _ i (sizes_nonneg partitions)).
    pose proof (prefix_sum_le_zsum _ i (sizes_nonneg partitions)). lia. }
  assert (Hhome' : forall i h, In h (nth i partitions []) ->
            Z.to_nat (uniform_bucket (partitioned_phf.m_bucketer phf) (hash_mix h)) = i).
  { intros i h Hin. rewrite Hbk', Hbk. now apply Hhome. }
  split; [|repeat split; auto].
  apply (bijective_onto_permutation
           (map (partitioned_phf.position true phf) (concat partitions))).
  { apply Permutation_map. now apply Permutation_sym. }
  rewrite concat_map.
  rewrite <- (map_nth_seq_id partitions []) at 1. rewrite map_map.
  (* block [i] lists [[offset_i, offset_i + n_i)] *)
  pose proof (blocks_tile
                (fun i => map (partitioned_phf.position true phf) (nth i partitions []))
                (prefix_sum (sizes partitions)) (length partitions)) as Htile.
  destruct Htile as (_ & Hnd & Hin).
  - intros i Hi. rewrite prefix_sum_S by (rewrite sizes_length; exact Hi).
    rewrite nth_sizes. lia.
  - intros i Hi.
    rewrite prefix_sum_S by (rewrite sizes_length; exact Hi). rewrite nth_sizes.
    assert (Hblk : map (partitioned_phf.position true phf) (nth i partitions [])
                   = map (Z.add (prefix_sum (sizes partitions) i))
                         (map (single_phf.position true (partitioned_phf.f (part i)))
                              (nth i partitions []))).
    { rewrite map_map. apply map_ext_in. intros h Hh.
      unfold partitioned_phf.position. rewrite (Hhome' i h Hh).
      fold (part i). rewrite (Hoffset i Hi).
      apply wrap64_small. unfold is_u64.
      destruct (Hsingle i Hi) as [_ Hrng].
      assert (Hpos : 0 <= single_phf.position true (partitioned_phf.f (part i)) h
                     < Z.of_nat (length (nth i partitions []))).
      { apply Hrng. apply in_map. exact Hh. }
      pose proof (prefix_sum_nonneg _ i (sizes_nonneg partitions)).
      pose proof (prefix_sum_le_zsum _ (S i) (sizes_nonneg partitions)) as Hle.
      rewrite prefix_sum_S in Hle by (rewrite sizes_length; exact Hi).
      rewrite nth_sizes in Hle. lia. }
    rewrite Hblk. apply bijective_onto_shift. now apply Hsingle.
  - rewrite prefix_sum_0 in Hin.
    rewrite <- sizes_length, prefix_sum_all, Hsum in Hin.
    rewrite sizes_length in Hin.
    split; [exact Hnd | exact Hin].
Qed.

End QueryProperties.

Section ThreadProperties.

Context {H : Hasher} {UB : UniformBucketer} {SB : SkewBucketer}.
Context {E : Encoder} {EF : EliasFano}.
Context {PR : Primitives} {B : SingleBuilder H SB}.

Lemma build_partitions_thread_invariant (dur dur' : nat -> build_timings)
  (partitions : list (list hash_type)) (builders : list single_builder)
  (pconfig : build_configuration) (T T' : Z) :
  0 <= num_partitions pconfig < 2 ^ 63 -> T < 2 ^ 63 -> T' < 2 ^ 63 ->
  fst (builder.build_partitions dur partitions builders pconfig T)
  = fst (builder.build_partitions dur' partitions builders pconfig T').
Proof.
  intros HP HT HT'.
  eapply all_worked_unique; apply build_partitions_all_worked; auto.
Qed.

Variable elapsed1 elapsed2 encoding1 encoding2 t1 : float.
Variable dur1 dur2 : nat -> build_timings.
Variable hashes : list hash_type.
Variable num_keys : Z.
Variable config : build_configuration.
Variable T1 T2 : Z.
Variable s0 b : builder.t.
Variable timings1 : build_timings.
Variable Minimal : bool.
Variable phf0 phf : partitioned_phf.t.

(** C6.  With everything but the thread count fixed, a build with [T2]
    threads leaves the same builder object (per-partition builders,
    offsets and all) and the same function object, hence the same query
    results, as a build with [T1] threads.  In the parallel branch of
    [build_partitions] the threads can be run to their ends, every
    interleaving that does so leaves the builders of the sequential loop
    (the ranges are disjoint and each partition is built once), and every
    step uses up one of the iterations that remain. *)
Theorem thread_count_invariance :
  0 <= num_partitions config < 2 ^ 63 ->
  T1 < 2 ^ 63 -> T2 < 2 ^ 63 ->
  builder.build_from_hashes elapsed1 dur1 hashes num_keys
                            (with_num_threads T1 config) s0
  = (b, Returns timings1) ->
  partitioned_phf.build Minimal encoding1 b (with_num_threads T1 config) phf0
  = (phf, Returns t1) ->
  (exists timings2,
     builder.build_from_hashes elapsed2 dur2 hashes num_keys
                               (with_num_threads T2 config) s0
     = (b, Returns timings2))
  /\ partitioned_phf.build Minimal encoding2 b (with_num_threads T2 config) phf0
     = (phf, Returns encoding2)
  /\ (forall T,
        1 < T < 2 ^ 63 ->
        let P := builder.m_num_partitions b in
        let partitions := partitions_of hashes num_keys config in
        let pconfig := builder.partition_config config P (seed config) num_keys in
        let step := par_step _ (builder.build_work partitions pconfig)
                             (builder.build_tick dur1) in
        let steps := par_steps _ (builder.build_work partitions pconfig)
                               (builder.build_tick dur1) in
        let start := start_pool _ (resize (Z.to_nat P) single_builder_default
                                          (builder.m_builders s0)) P T in
        (exists p, steps start p /\ joined _ p)
        /\ (forall p, steps start p -> joined _ p -> slots p = builder.m_builders b)
        /\ (forall p q, steps start p -> step p q ->
              remaining (threads q) = remaining (threads p) - 1
              /\ 0 <= remaining (threads q))).
Proof.
  intros HP HT1 HT2 Hbuild Hphf.
  destruct (build_from_hashes_guards _ _ _ _ _ _ _ _ Hbuild) as [Hcheck Hnz].
  simpl in Hnz.
  assert (Hu : is_u64 (num_partitions config))
    by (pose proof two_63_lt; unfold is_u64; lia).
  pose proof (collapsed_num_partitions_pos num_keys config Hu Hnz) as Hpos.
  pose proof (collapsed_num_partitions_le num_keys config Hnz Hu) as Hle.
  destruct (built_fields _ _ _ _ _ _ _ _ Hbuild)
    as (_ & _ & Hnp & _ & _ & _ & _ & Hbuilders).
  change (builder.collapsed_num_partitions num_keys (with_num_threads T1 config))
    with (builder.collapsed_num_partitions num_keys config) in Hnp, Hbuilders.
  split; [|split].
  - rewrite (build_from_hashes_returns elapsed1 dur1 hashes num_keys
               (with_num_threads T1 config) s0 Hcheck Hnz) in Hbuild.
    rewrite (build_from_hashes_returns elapsed2 dur2 hashes num_keys
               (with_num_threads T2 config) s0 Hcheck Hnz).
    injection Hbuild as Hb _. rewrite <- Hb.
    eexists. apply f_equal2; [|reflexivity].
    unfold builder.set_m_builders. f_equal.
    apply build_partitions_thread_invariant; auto.
    change (0 <= builder.collapsed_num_partitions num_keys config < 2 ^ 63). lia.
  - pose proof (phf_build_guard _ _ _ _ _ _ _ Hphf) as Hagree.
    unfold partitioned_phf.build, bind, assign, ret in Hphf |- *.
    rewrite (check_minimal_agree "partitioned_phf" Minimal
               (with_num_threads T1 config) phf0 Hagree) in Hphf.
    rewrite (check_minimal_agree "partitioned_phf" Minimal
               (with_num_threads T2 config) phf0 Hagree).
    injection Hphf as Hphf _. rewrite <- Hphf.
    apply f_equal2; [|reflexivity].
    unfold partitioned_phf.set_m_partitions.
    cbn [partitioned_phf.m_seed partitioned_phf.m_num_keys
         partitioned_phf.m_table_size partitioned_phf.m_bucketer
         partitioned_phf.m_partitions num_threads with_num_threads].
    f_equal.
    eapply all_worked_unique;
      apply either_branch_all_worked with (NP := builder.m_num_partitions b);
      lia.
  - intros T HT P partitions pconfig step steps start.
    assert (HfitP : 0 <= P < 2 ^ 63) by (unfold P; lia).
    assert (HfitT : 0 < T < 2 ^ 63) by lia.
    split; [|split].
    + pose proof (in_turn_completes _ (builder.build_work partitions pconfig)
                    (builder.build_tick dur1)
                    (resize (Z.to_nat P) single_builder_default (builder.m_builders s0))
                    P T HfitP HfitT) as Hrun.
      cbv zeta in Hrun. eexists. exact Hrun.
    + intros p Hsteps Hj.
      pose proof (complete_runs_agree _ _ _ _ P T HfitP HfitT p Hsteps Hj)
        as (_ & _ & Hw).
      rewrite Hbuilders. fold partitions. rewrite <- Hnp. fold P.
      eapply all_worked_unique; [exact Hw|].
      pose proof (build_partitions_all_worked dur1 partitions
                    (resize (Z.to_nat P) single_builder_default (builder.m_builders s0))
                    pconfig T1 ltac:(simpl; unfold P; lia) HT1) as Hw'.
      exact Hw'.
    + intros p q Hsteps Hstep.
      exact (runs_are_finite _ _ _ _ P T HfitP HfitT p q Hsteps Hstep).
Qed.

End ThreadProperties.

Section SubBuilderProperties.

Context {H : Hasher} {UB : UniformBucketer} {SB : SkewBucketer}.
Context {PR : Primitives} {B : SingleBuilder H SB}.

Variable elapsed : float.
Variable dur : nat -> build_timings.
Variable hashes : list hash_type.
Variable num_keys : Z.
Variable config : build_configuration.
Variable s0 b : builder.t.
Variable timings : build_timings.

(** C8, as the code has it.  After a build that returned with [P]
    partitions, builder [i] is the result of the sub-builder on partition
    [i] under one configuration, in which [num_buckets] is the double
    quotient [ceil(c * n / d) / P] truncated to an integer, with
    [d = log2 n] for [n > 1] and [d = 1] otherwise, and with no lower
    bound; [num_threads] is 1, [verbose_output] is off, [num_partitions] is
    [P], and the seed, [c], [alpha] and [minimal_output] are the
    partitioned builder's. *)
Theorem sub_builder_configuration :
  counts_fit config ->
  builder.build_from_hashes elapsed dur hashes num_keys config s0
  = (b, Returns timings) ->
  let P := builder.m_num_partitions b in
  let partitions := partitions_of hashes num_keys config in
  let divisor := if 1 <? num_keys then std_log2 (u64_to_double num_keys) else 1%float in
  let total := double_to_u64 (double_ceil (c config * u64_to_double num_keys / divisor)) in
  exists pconfig,
    (forall i, (i < Z.to_nat P)%nat ->
       nth i (builder.m_builders b) single_builder_default
       = single_build_from_hashes
           (nth i (resize (Z.to_nat P) single_builder_default (builder.m_builders s0))
                single_builder_default)
           (nth i partitions [])
           (Z.of_nat (length (nth i partitions [])))
           pconfig)
    /\ num_buckets pconfig = double_to_u64 (u64_to_double total / u64_to_double P)
    /\ num_threads pconfig = 1
    /\ verbose_output pconfig = false
    /\ seed pconfig = seed config
    /\ builder.m_seed b = seed config
    /\ num_partitions pconfig = P
    /\ c pconfig = c config
    /\ alpha pconfig = alpha config
    /\ minimal_output pconfig = minimal_output config.
Proof.
  intros [HfitP HfitT] Hbuild P partitions divisor total.
  destruct (build_from_hashes_guards _ _ _ _ _ _ _ _ Hbuild) as [_ Hnz].
  assert (Hu : is_u64 (num_partitions config))
    by (pose proof two_63_lt; unfold is_u64; lia).
  pose proof (collapsed_num_partitions_pos num_keys config Hu Hnz) as Hpos.
  pose proof (collapsed_num_partitions_le num_keys config Hnz Hu) as Hle.
  destruct (built_fields _ _ _ _ _ _ _ _ Hbuild)
    as (Hseed & _ & Hnp & _ & _ & _ & _ & Hbuilders).
  fold P in Hnp. rewrite <- Hnp in Hbuilders, Hpos, Hle.
  exists (builder.partition_config config P (seed config) num_keys).
  split; [|repeat split; auto].
  intros i Hi. rewrite Hbuilders.
  pose proof (build_partitions_all_worked dur
                (partitions_of hashes num_keys config)
                (resize (Z.to_nat P) single_builder_default (builder.m_builders s0))
                (builder.partition_config config P (seed config) num_keys)
                (num_threads config) ltac:(simpl; lia) ltac:(lia)) as Hw.
  rewrite (all_worked_nth _ _ _ _ _ single_builder_default i Hw)
    by (rewrite ?resize_length; simpl; lia).
  reflexivity.
Qed.

End SubBuilderProperties.

(** ** The order of doubles *)

Ltac cmp_cases :=
  repeat match goal with
  | H : context [Z.compare ?a ?b] |- _ => destruct (Z.compare_spec a b)
  | |- context [Z.compare ?a ?b] => destruct (Z.compare_spec a b)
  | H : context [PosDef.Pos.compare_cont Eq ?a ?b] |- _ =>
      change (PosDef.Pos.compare_cont Eq a b) with (Pos.compare a b) in H;
      destruct (Pos.compare_spec a b)
  | |- context [PosDef.Pos.compare_cont Eq ?a ?b] =>
      change (PosDef.Pos.compare_cont Eq a b) with (Pos.compare a b);
      destruct (Pos.compare_spec a b)
  end.

Lemma SFltb_trans (x y z : spec_float) :
  SFltb x y = true -> SFltb y z = true -> SFltb x z = true.
Proof.
  unfold SFltb.
  destruct x as [sx|sx| |sx mx ex], y as [sy|sy| |sy my ey], z as [sz|sz| |sz mz ez];
    simpl; try discriminate; try (destruct sx; discriminate);
    try (destruct sy; discriminate); try (destruct sz; discriminate);
    try reflexivity.
  all: try (destruct sx, sy, sz; simpl; intros; try discriminate; try reflexivity;
            cmp_cases; simpl in *; try discriminate; try reflexivity; try lia).
Qed.

(** Between two doubles in order, a third one that is a number is on one
    side. *)
Lemma SFltb_between (x y z : spec_float) :
  SFltb x z = true -> y <> S754_nan -> SFltb x y = true \/ SFltb y z = true.
Proof.
  unfold SFltb.
  destruct x as [sx|sx| |sx mx ex], y as [sy|sy| |sy my ey], z as [sz|sz| |sz mz ez];
    simpl; try discriminate; try congruence;
    try (destruct sx; discriminate); try (destruct sz; discriminate); intros Hxz _.
  all: try (destruct sx, sy, sz; simpl in *; try discriminate; auto;
            cmp_cases; simpl in *; try discriminate; auto; try lia).
Qed.

Lemma ltb_trans (x y z : float) :
  (x <? y)%float = true -> (y <? z)%float = true -> (x <? z)%float = true.
Proof. rewrite !ltb_spec. apply SFltb_trans. Qed.

Lemma ltb_irrefl (x : float) : (x <? x)%float = false.
Proof.
  rewrite ltb_spec. unfold SFltb.
  destruct (Prim2SF x) as [s|s| |s m e]; simpl; auto.
  - destruct s; auto.
  - destruct s; rewrite Z.compare_refl;
      change (PosDef.Pos.compare_cont Eq m m) with (Pos.compare m m);
      rewrite Pos.compare_refl; reflexivity.
Qed.

Lemma eqb_self_not_nan (x : float) : (x =? x)%float = true -> Prim2SF x <> S754_nan.
Proof.
  rewrite eqb_spec. intros Hx Hnan. rewrite Hnan in Hx. discriminate.
Qed.

Lemma ltb_between (x y z : float) :
  (x <? z)%float = true -> (y =? y)%float = true ->
  (x <? y)%float = true \/ (y <? z)%float = true.
Proof.
  rewrite !ltb_spec. intros Hxz Hy. apply SFltb_between; auto.
  now apply eqb_self_not_nan.
Qed.

Lemma ltb_right_is_number (x y : float) :
  (x <? y)%float = true -> (y =? y)%float = true.
Proof.
  rewrite ltb_spec, eqb_spec. unfold SFltb, SFeqb.
  destruct (Prim2SF x) as [sx|sx| |sx mx ex], (Prim2SF y) as [s|s| |s m e];
    simpl; try discriminate; auto.
  all: try (destruct s; auto).
  all: intros _; rewrite Z.compare_refl;
    change (PosDef.Pos.compare_cont Eq m m) with (Pos.compare m m);
    rewrite Pos.compare_refl; reflexivity.
Qed.

Lemma leb_not_ltb_eqb (x y : float) :
  (x <=? y)%float = true -> (x <? y)%float = false -> (x =? y)%float = true.
Proof.
  rewrite leb_spec, ltb_spec, eqb_spec. unfold SFleb, SFltb, SFeqb.
  destruct (SFcompare (Prim2SF x) (Prim2SF y)) as [[| |]|]; auto; discriminate.
Qed.

Lemma leb_zero_is_number (x : float) : (0 <=? x)%float = true -> (x =? x)%float = true.
Proof.
  rewrite leb_spec, eqb_spec. unfold SFleb, SFeqb.
  change (Prim2SF 0) with (S754_zero false).
  destruct (Prim2SF x) as [s|s| |s m e]; simpl; try discriminate; auto.
  - destruct s; auto.
  - intros _. rewrite Z.compare_refl.
    change (PosDef.Pos.compare_cont Eq m m) with (Pos.compare m m).
    rewrite Pos.compare_refl. destruct s; reflexivity.
Qed.

(** The sum of two non-negative doubles is a non-negative double (it may
    be infinite, it is not NaN): rounding keeps the sign. *)
Lemma shr_1_nonneg (mrs : shr_record) : 0 <= shr_m mrs -> 0 <= shr_m (shr_1 mrs).
Proof.
  destruct mrs as [m r s]. simpl. intros Hm.
  destruct m as [|[p|p|]|p]; simpl; lia.
Qed.

Lemma iter_shr_1_nonneg (p : positive) (mrs : shr_record) :
  0 <= shr_m mrs -> 0 <= shr_m (iter_pos shr_1 p mrs).
Proof.
  revert mrs. induction p as [p IH|p IH|]; intros mrs Hm; simpl.
  - apply IH, IH. now apply shr_1_nonneg.
  - now apply IH, IH.
  - now apply shr_1_nonneg.
Qed.

Lemma shr_fexp_nonneg (m e : Z) (l : location) :
  0 <= m -> 0 <= shr_m (fst (shr_fexp prec emax m e l)).
Proof.
  intros Hm. unfold shr_fexp, shr.
  assert (H0 : 0 <= shr_m (shr_record_of_loc m l))
    by (destruct l as [|[| |]]; simpl; exact Hm).
  destruct (fexp prec emax (Zdigits2 m + e) - e) as [|p|p]; simpl; auto.
  now apply iter_shr_1_nonneg.
Qed.

Lemma round_nearest_even_nonneg (m : Z) (l : location) :
  0 <= m -> 0 <= round_nearest_even m l.
Proof.
  intros Hm. destruct l as [|[| |]]; simpl; try lia.
  destruct (Z.even m); lia.
Qed.

Lemma SFleb_zero (x : spec_float) : SFleb (S754_zero false) x = SFnonneg x.
Proof.
  unfold SFleb. destruct x as [s|s| |s m e]; simpl; auto; destruct s; auto.
Qed.

Lemma binary_round_aux_nonneg (m : positive) (e : Z) :
  SFnonneg (binary_round_aux prec emax false (Zpos m) e loc_Exact) = true.
Proof.
  unfold binary_round_aux.
  pose proof (shr_fexp_nonneg (Zpos m) e loc_Exact ltac:(lia)) as H1.
  destruct (shr_fexp prec emax (Z.pos m) e loc_Exact) as [mrs' e'].
  simpl in H1.
  pose proof (shr_fexp_nonneg
                (round_nearest_even (shr_m mrs') (loc_of_shr_record mrs')) e' loc_Exact
                (round_nearest_even_nonneg _ _ H1)) as H2.
  destruct (shr_fexp prec emax _ e' loc_Exact) as [mrs'' e''].
  simpl in H2.
  destruct (shr_m mrs'') as [|p|p]; simpl; auto; try lia.
  destruct (_ <=? _); reflexivity.
Qed.

Lemma SFadd_nonneg (x y : spec_float) :
  SFnonneg x = true -> SFnonneg y = true -> SFnonneg (SF64add x y) = true.
Proof.
  unfold SF64add, SFadd.
  destruct x as [sx|sx| |sx mx ex], y as [sy|sy| |sy my ey]; simpl;
    try discriminate; auto.
  - destruct sx, sy; auto.
  - destruct sx, sy; simpl; auto.
  - destruct sx, sy; simpl; try discriminate. intros _ _.
    unfold binary_normalize. simpl.
    unfold binary_round.
    destruct (shl_align _ _ _) as [mz ez].
    apply binary_round_aux_nonneg.
Qed.

Lemma add_nonneg (x y : float) :
  (0 <=? x)%float = true -> (0 <=? y)%float = true -> (0 <=? x + y)%float = true.
Proof.
  rewrite !leb_spec, add_spec.
  change (Prim2SF 0) with (S754_zero false). rewrite !SFleb_zero.
  apply SFadd_nonneg.
Qed.

(** The maximum loop, started on a number. *)
Lemma fold_fmax_spec (l : list float) (r0 : float) :
  (r0 =? r0)%float = true ->
  let r := fold_left fmax l r0 in
  (r =? r)%float = true
  /\ (r <? r0)%float = false
  /\ Forall (fun s => (r <? s)%float = false) l
  /\ (r = r0 \/ In r l).
Proof.
  revert r0. induction l as [|s l IH]; intros r0 Hr0; simpl.
  - repeat split; auto. apply ltb_irrefl.
  - assert (Hnum : (fmax r0 s =? fmax r0 s)%float = true).
    { unfold fmax. destruct (r0 <? s)%float eqn:Hlt; auto.
      eapply ltb_right_is_number; eauto. }
    destruct (IH (fmax r0 s) Hnum) as (Hr & Hge & Hall & Hin).
    set (r := fold_left fmax l (fmax r0 s)) in *.
    assert (Hr0' : (r <? r0)%float = false).
    { unfold fmax in Hge. destruct (r0 <? s)%float eqn:Hlt; auto.
      destruct (r <? r0)%float eqn:Hlt'; auto.
      rewrite (ltb_trans _ _ _ Hlt' Hlt) in Hge. discriminate. }
    assert (Hs : (r <? s)%float = false).
    { unfold fmax in Hge. destruct (r0 <? s)%float eqn:Hlt; auto.
      destruct (r <? s)%float eqn:Hlt'; auto.
      destruct (ltb_between _ r0 _ Hlt' Hr0) as [Hc|Hc]; congruence. }
    repeat split; auto.
    destruct Hin as [Hin|Hin]; [|now right; right].
    unfold fmax in Hin. destruct (r0 <? s)%float; [right; left|left]; auto.
Qed.

Lemma fold_fmax_is_maximum (l : list float) :
  l <> [] -> Forall (fun s => (0 <=? s)%float = true) l ->
  is_maximum (fold_left fmax l 0%float) l.
Proof.
  intros Hne Hpos.
  destruct (fold_fmax_spec l 0%float eq_refl) as (Hr & _ & Hall & Hin).
  split; [exact Hall|].
  destruct Hin as [Hz|Hin].
  - destruct l as [|s l]; [congruence|]. apply Exists_cons_hd.
    inversion Hall; subst. inversion Hpos; subst.
    rewrite Hz in *. apply leb_not_ltb_eqb; auto.
  - apply Exists_exists. eexists. split; [exact Hin | exact Hr].
Qed.

(** ** Timings of the threads *)

Section TimingFacts.

Variable A : Type.
Variable work : nat -> A -> A.
Variable tick : nat -> build_timings -> build_timings.

(** Where [exe] leaves its thread. *)
Lemma exe_final (fuel : nat) (th : thread) (v : list A) :
  0 <= th_begin th <= th_end th -> th_end th < u64_modulus ->
  th_end th - th_begin th <= Z.of_nat fuel ->
  fst (exe A work tick fuel th v)
  = {| th_begin := th_end th;
       th_end := th_end th;
       th_timings :=
         fold_left (fun acc i => tick i acc)
                   (seq (Z.to_nat (th_begin th)) (Z.to_nat (th_end th - th_begin th)))
                   (th_timings th) |}.
Proof.
  revert th v. induction fuel as [|fuel IH]; intros th v Hb He Hfuel.
  - assert (Heq : th_begin th = th_end th) by lia.
    simpl. rewrite Heq, Z.sub_diag. simpl. destruct th; simpl in *. congruence.
  - cbn [exe]. destruct (Z.eqb_spec (th_begin th) (th_end th)) as [Heq|Hne].
    + simpl. rewrite Heq, Z.sub_diag. simpl. destruct th; simpl in *. congruence.
    + destruct (exe_body A work tick th v) as [th' v'] eqn:Hbody.
      unfold exe_body in Hbody. injection Hbody as Hth' Hv'.
      assert (Hw : wrap64 (th_begin th + 1) = th_begin th + 1)
        by (apply wrap64_small; unfold is_u64; lia).
      rewrite Hw in Hth'. subst th'.
      rewrite IH by (simpl; lia). simpl.
      replace (Z.to_nat (th_end th - th_begin th))
        with (S (Z.to_nat (th_end th - (th_begin th + 1)))) by lia.
      simpl. replace (Z.to_nat (th_begin th + 1)) with (S (Z.to_nat (th_begin th)))
        by lia.
      reflexivity.
Qed.

Lemma run_in_turn_timings (ths : list thread) (v : list A) :
  Forall (fun th => 0 <= th_begin th <= th_end th /\ th_end th < u64_modulus) ths ->
  map th_timings (fst (run_in_turn A work tick ths v))
  = map (fun th =>
           fold_left (fun acc i => tick i acc)
                     (seq (Z.to_nat (th_begin th)) (Z.to_nat (th_end th - th_begin th)))
                     (th_timings th)) ths.
Proof.
  revert v. induction ths as [|th ths IH]; intros v Hall; simpl; auto.
  inversion Hall as [|? ? [Hb He] Hall']; subst.
  pose proof (exe_final (Z.to_nat (th_end th - th_begin th)) th v Hb He ltac:(lia))
    as Hfinal.
  destruct (exe A work tick (Z.to_nat (th_end th - th_begin th)) th v) as [th' v'].
  specialize (IH v' Hall').
  destruct (run_in_turn A work tick ths v') as [ths'' v''].
  simpl in *. rewrite Hfinal, IH. reflexivity.
Qed.

Lemma spawn_timings (n : nat) (begin per num_partitions : Z) :
  Forall (fun th => th_timings th = build_timings_default)
         (spawn n begin per num_partitions).
Proof.
  revert begin. induction n as [|n IH]; intros begin; simpl; constructor; auto.
Qed.

End TimingFacts.

Lemma thread_ranges_one (num_partitions : Z) :
  0 <= num_partitions < 2 ^ 63 ->
  thread_ranges num_partitions 1 = [(0, num_partitions)].
Proof.
  intros HP. pose proof two_63_lt as H63.
  unfold thread_ranges, num_partitions_per_thread. simpl.
  rewrite (wrap64_small (num_partitions + 1)) by (unfold is_u64; lia).
  rewrite (wrap64_small (num_partitions + 1 - 1)) by (unfold is_u64; lia).
  rewrite Z.div_1_r.
  replace (num_partitions + 1 - 1) with num_partitions by lia.
  rewrite (wrap64_small num_partitions) by (unfold is_u64; lia).
  now rewrite Z.ltb_irrefl.
Qed.

Section TimingProperties.

Context {H : Hasher} {UB : UniformBucketer} {SB : SkewBucketer}.
Context {PR : Primitives} {B : SingleBuilder H SB}.

Variable dur : nat -> build_timings.
Variable partitions : list (list hash_type).
Variable builders : list single_builder.
Variable pconfig : build_configuration.
Variable T : Z.

Hypothesis partitions_fit : 0 <= num_partitions pconfig < 2 ^ 63.
Hypothesis threads_fit : 1 <= T < 2 ^ 63.

Section Field.

(** One of the two fields the loops touch. *)
Variable g : build_timings -> float.
Hypothesis g_tick :
  forall i acc, g (builder.build_tick dur i acc) = (g acc + g (dur i))%float.
Hypothesis g_max :
  forall t t', g (builder.max_timings t t') = fmax (g t) (g t').
Hypothesis g_default : g build_timings_default = 0%float.

Lemma field_of_ticks (l : list nat) (acc : build_timings) :
  g (fold_left (fun acc i => builder.build_tick dur i acc) l acc)
  = fold_left (fun a i => (a + g (dur i))%float) l (g acc).
Proof.
  revert acc. induction l as [|i l IH]; intros acc; simpl; auto.
  now rewrite IH, g_tick.
Qed.

Lemma field_of_maxima (l : list build_timings) (acc : build_timings) :
  g (fold_left builder.max_timings l acc) = fold_left fmax (map g l) (g acc).
Proof.
  revert acc. induction l as [|t l IH]; intros acc; simpl; auto.
  now rewrite IH, g_max.
Qed.

Lemma reported_field :
  g (snd (builder.build_partitions dur partitions builders pconfig T))
  = if 1 <? T
    then fold_left fmax
           (map (range_total g dur) (thread_ranges (num_partitions pconfig) T)) 0%float
    else range_total g dur (0, num_partitions pconfig).
Proof.
  pose proof two_63_lt as H63.
  unfold builder.build_partitions.
  destruct (Z.ltb_spec 1 T) as [Hpar|Hseq].
  - destruct (start_pool_invariant _ (builder.build_work partitions pconfig)
                (builder.build_tick dur) builders (num_partitions pconfig) T
                partitions_fit ltac:(lia)) as (_ & Hserved & _).
    pose proof (served_all_bounds _ _ _ _ _ _ _ _ Hserved) as Hb.
    assert (Hb' : Forall (fun th => 0 <= th_begin th <= th_end th
                                     /\ th_end th < u64_modulus)
                         (threads (start_pool _ builders (num_partitions pconfig) T))).
    { eapply Forall_impl; [|exact Hb]. cbv beta. intros th Hth. lia. }
    pose proof (run_in_turn_timings _ (builder.build_work partitions pconfig)
                  (builder.build_tick dur) _
                  (slots (start_pool _ builders (num_partitions pconfig) T)) Hb')
      as Htm.
    destruct (run_in_turn _ _ _ _ _) as [ths builders'].
    cbn [fst snd] in *.
    rewrite field_of_maxima, g_default, Htm.
    unfold thread_ranges, start_pool. cbn [threads]. rewrite !map_map.
    f_equal. apply map_ext_in. intros th Hth.
    pose proof (spawn_timings (Z.to_nat T) 0
                  (num_partitions_per_thread (num_partitions pconfig) T)
                  (num_partitions pconfig)) as Hdef.
    rewrite Forall_forall in Hdef. rewrite (Hdef th Hth).
    rewrite field_of_ticks, g_default. reflexivity.
  - destruct (run_sequential_spec _ (builder.build_work partitions pconfig)
                (builder.build_tick dur) (Z.to_nat (num_partitions pconfig))
                builders build_timings_default) as [_ Hsnd].
    rewrite Hsnd, field_of_ticks, g_default.
    unfold range_total. cbn [fst snd]. now rewrite Z.sub_0_r.
Qed.

Lemma fold_add_nonneg (l : list nat) (acc : float) :
  (forall i, (0 <=? g (dur i))%float = true) ->
  (0 <=? acc)%float = true ->
  (0 <=? fold_left (fun a i => (a + g (dur i))%float) l acc)%float = true.
Proof.
  intros Hdur. revert acc.
  induction l as [|i l IH]; intros acc Hacc; simpl; auto.
  apply IH. now apply add_nonneg.
Qed.

Lemma range_total_nonneg (r : Z * Z) :
  (forall i, (0 <=? g (dur i))%float = true) ->
  (0 <=? range_total g dur r)%float = true.
Proof.
  intros Hdur. unfold range_total. now apply fold_add_nonneg.
Qed.

Lemma reported_field_is_maximum :
  (forall i, (0 <=? g (dur i))%float = true) ->
  is_maximum
    (g (snd (builder.build_partitions dur partitions builders pconfig T)))
    (map (range_total g dur) (thread_ranges (num_partitions pconfig) T)).
Proof.
  intros Hdur.
  assert (Hpos : Forall (fun s => (0 <=? s)%float = true)
                   (map (range_total g dur)
                        (thread_ranges (num_partitions pconfig) T))).
  { apply Forall_forall. intros s Hs. apply in_map_iff in Hs.
    destruct Hs as (r & <- & _). now apply range_total_nonneg. }
  rewrite reported_field.
  destruct (Z.ltb_spec 1 T) as [Hpar|Hseq].
  - apply fold_fmax_is_maximum; auto.
    unfold thread_ranges.
    destruct (Z.to_nat T) as [|n] eqn:HT; [lia|]. simpl. discriminate.
  - assert (HT : T = 1) by lia. rewrite HT in *.
    rewrite thread_ranges_one in * by exact partitions_fit. simpl in *.
    inversion Hpos as [|? ? Hs _]; subst.
    split.
    + constructor; [apply ltb_irrefl | constructor].
    + apply Exists_cons_hd. now apply leb_zero_is_number.
Qed.

End Field.

(** C9.  With the durations of the sub-builds taken as given, non-negative
    numbers, each of [mapping_ordering] and [searching] reported by
    [build_partitions] is the maximum, over the threads, of the sum of that
    field over the partitions the thread built; with one thread, the sum
    over all partitions. *)
Theorem reported_timings_are_thread_maxima :
  let reported := snd (builder.build_partitions dur partitions builders pconfig T) in
  let totals g := map (range_total g dur) (thread_ranges (num_partitions pconfig) T) in
  (forall i, (0 <=? mapping_ordering_seconds (dur i))%float = true) ->
  (forall i, (0 <=? searching_seconds (dur i))%float = true) ->
  is_maximum (mapping_ordering_seconds reported) (totals mapping_ordering_seconds)
  /\ is_maximum (searching_seconds reported) (totals searching_seconds).
Proof.
  intros reported totals Hmo Hse. split.
  - apply reported_field_is_maximum; auto.
  - apply reported_field_is_maximum; auto.
Qed.

End TimingProperties.

Section ErrorProperties.

Context {H : Hasher} {UB : UniformBucketer} {SB : SkewBucketer}.
Context {E : Encoder} {EF : EliasFano}.
Context {PR : Primitives} {B : SingleBuilder H SB}.

Lemma builder_throws_on_zero_partitions (elapsed : float) (dur : nat -> build_timings)
  (hashes : list hash_type) (num_keys : Z) (config : build_configuration)
  (s0 : builder.t) :
  num_partitions config = 0 ->
  exists e, builder.build_from_hashes elapsed dur hashes num_keys config s0
            = (s0, Throws e)
            /\ (check_hash_collision_probability num_keys = None ->
                e = std_invalid_argument "number of partitions must be > 0").
Proof.
  intros Hz. unfold builder.build_from_hashes, bind, throw, ret.
  destruct (check_hash_collision_probability num_keys) as [e'|].
  - exists e'. split; [reflexivity | discriminate].
  - destruct (Z.eqb_spec (num_partitions config) 0); [|contradiction].
    eexists. split; reflexivity.
Qed.

Lemma single_phf_build_cases (Minimal : bool) (elapsed : float)
  (sbuilder : single_builder) (config : build_configuration) (f0 : single_phf.t) :
  (Minimal = minimal_output config /\
   exists f, single_phf.build Minimal elapsed sbuilder config f0 = (f, Returns elapsed))
  \/ (Minimal <> minimal_output config /\
      exists what, single_phf.build Minimal elapsed sbuilder config f0
                   = (f0, Throws (std_runtime_error what))).
Proof.
  destruct (Bool.bool_dec Minimal (minimal_output config)) as [Heq|Hne].
  - left. split; auto. unfold single_phf.build, bind, assign, ret.
    rewrite (check_minimal_agree _ _ _ _ Heq). eexists. reflexivity.
  - right. split; auto.
    destruct (check_minimal_disagree "single_phf" Minimal config f0 Hne) as [what Hw].
    exists what. unfold single_phf.build, bind. now rewrite Hw.
Qed.


(** The message of the guard. *)
Lemma check_minimal_message {S : Type} (who : string) (Minimal : bool)
  (config : build_configuration) (s : S) :
  Minimal <> minimal_output config ->
  single_phf.check_minimal who Minimal config s
  = (s, Throws (std_runtime_error
                  (if Minimal
                   then "Cannot build " ++ who
                        ++ "<..., ..., true> with minimal_output=false"
                   else "Cannot build " ++ who
                        ++ "<..., ..., false> with minimal_output=true"))).
Proof.
  intros Hne. unfold single_phf.check_minimal.
  destruct Minimal, (minimal_output config); simpl; try congruence; reflexivity.
Qed.

(** What [build_in_internal_memory] does with the outcome of its builder:
    an exception of the builder, whatever it is, leaves through the
    function, which has not touched its object by then; a builder that
    returned is handed to [build]. *)
Lemma in_internal_memory_cases (Minimal : bool) (local : builder.t)
  (random_value : Z) (elapsed encoding : float) (dur : nat -> build_timings)
  (keys : list key_type) (num_keys : Z) (config : build_configuration)
  (phf0 : partitioned_phf.t) :
  let built :=
    builder.build_from_keys random_value elapsed dur keys num_keys config local in
  let made :=
    partitioned_phf.build_in_internal_memory Minimal local random_value elapsed
      encoding dur keys num_keys config phf0 in
  (forall e, snd built = Throws e -> made = (phf0, Throws e))
  /\ (forall timings, snd built = Returns timings ->
      Minimal <> minimal_output config ->
      made = (phf0,
              Throws (std_runtime_error
                        (if Minimal
                         then "Cannot build partitioned_phf<..., ..., true> with minimal_output=false"
                         else "Cannot build partitioned_phf<..., ..., false> with minimal_output=true"))))
  /\ (forall timings, snd built = Returns timings ->
      Minimal = minimal_output config ->
      exists phf,
        made = (phf, Returns {| partitioning_seconds := partitioning_seconds timings;
                                mapping_ordering_seconds :=
                                  mapping_ordering_seconds timings;
                                searching_seconds := searching_seconds timings;
                                encoding_seconds := encoding |})
        /\ partitioned_phf.build Minimal encoding (fst built) config phf0
           = (phf, Returns encoding)).
Proof.
  intros built made. unfold made, partitioned_phf.build_in_internal_memory.
  fold built. destruct built as [b [timings|e]]; cbn [fst snd].
  - split; [discriminate|]. split.
    + intros tm Htm Hne. injection Htm as <-.
      unfold partitioned_phf.build, bind.
      rewrite (check_minimal_message "partitioned_phf" Minimal config phf0 Hne).
      destruct Minimal; reflexivity.
    + intros tm Htm Hagree. injection Htm as <-.
      destruct (phf_build_returns Minimal encoding b config phf0 Hagree)
        as (phf & Hphf & _).
      exists phf. rewrite Hphf. split; reflexivity.
  - split; [|split]; try discriminate.
    intros e' He. injection He as <-. reflexivity.
Qed.


End ErrorProperties.

(** ** Checking a bijection by computation *)

Lemma distinct_NoDup (l : list Z) : distinct l = true -> NoDup l.
Proof.
  induction l as [|x l IH]; simpl; intros Hd; constructor.
  - apply andb_prop in Hd. destruct Hd as [Hx _].
    intros Hin. apply negb_true_iff in Hx.
    assert (Hex : existsb (Z.eqb x) l = true)
      by (apply existsb_exists; exists x; split; [exact Hin | apply Z.eqb_refl]).
    congruence.
  - apply andb_prop in Hd. now apply IH.
Qed.

Lemma bijective_ontob_sound (image : list Z) (n : Z) :
  bijective_ontob image n = true -> bijective_onto image n.
Proof.
  unfold bijective_ontob. intros Hb.
  apply andb_prop in Hb. destruct Hb as [Hb Hlen].
  apply andb_prop in Hb. destruct Hb as [Hd Hrange].
  apply Z.eqb_eq in Hlen. rewrite forallb_forall in Hrange.
  pose proof (distinct_NoDup image Hd) as Hnd.
  assert (Hin : forall v, In v image -> 0 <= v < n).
  { intros v Hv. specialize (Hrange v Hv). apply andb_prop in Hrange.
    destruct Hrange as [H0 H1]. apply Z.leb_le in H0. apply Z.ltb_lt in H1. lia. }
  split; [exact Hnd|]. intros v. split; [apply Hin|]. intros Hv.
  assert (Hincl : incl (map Z.of_nat (seq 0 (length image))) image).
  { apply NoDup_length_incl; auto.
    - rewrite length_map, length_seq. lia.
    - intros w Hw. apply Hin in Hw. apply in_map_iff.
      exists (Z.to_nat w). split; [lia|]. apply in_seq. lia. }
  apply Hincl. apply in_map_iff. exists (Z.to_nat v). split; [lia|].
  apply in_seq. lia.
Qed.

Lemma injective_intob_sound (image : list Z) (m : Z) :
  injective_intob image m = true -> injective_into image m.
Proof.
  unfold injective_intob. intros Hb.
  apply andb_prop in Hb. destruct Hb as [Hd Hrange].
  rewrite forallb_forall in Hrange.
  split; [now apply distinct_NoDup|].
  intros v Hv. specialize (Hrange v Hv). apply andb_prop in Hrange.
  destruct Hrange as [H0 H1]. apply Z.leb_le in H0. apply Z.ltb_lt in H1. lia.
Qed.

(** * Further properties of the code *)

(** ** Table sizes and powers of two *)

Lemma log2_succ_power_of_two (k : Z) : 1 <= k -> Z.log2 (2 ^ k + 1) = k.
Proof.
  intros Hk. apply Z.log2_unique; [lia|].
  assert (H2 : 2 <= 2 ^ k).
  { change 2 with (2 ^ 1) at 1. apply Z.pow_le_mono_r; lia. }
  rewrite Z.pow_succ_r by lia. lia.
Qed.

Lemma succ_power_of_two_is_not (t : Z) :
  2 <= t -> is_power_of_two t = true -> is_power_of_two (t + 1) = false.
Proof.
  unfold is_power_of_two. intros Ht Hp.
  apply andb_prop in Hp. destruct Hp as [_ Heq]. apply Z.eqb_eq in Heq.
  assert (Hk : 1 <= Z.log2 t).
  { change 1 with (Z.log2 2). apply Z.log2_le_mono. exact Ht. }
  rewrite Heq at 2 3. rewrite log2_succ_power_of_two by exact Hk.
  rewrite <- Heq.
  destruct (Z.eqb_spec (t + 1) t); [lia|]. apply andb_false_r.
Qed.

(** X1.  The table size of a partition is a power of two in two cases only:
    it is 1 when the truncated quotient [size / alpha] is 0, and 2 when the
    quotient is 1 (the increment that steps off a power of two lands on
    one).  Every other table size is no power of two. *)
Theorem table_size_avoids_powers_of_two (config : build_configuration) (size : Z) :
  let t := double_to_u64 (u64_to_double size / alpha config) in
  let r := builder.partition_table_size config size in
  (is_power_of_two r = true -> (t = 0 /\ r = 1) \/ (t = 1 /\ r = 2))
  /\ (t = 0 -> r = 1)
  /\ (t = 1 -> r = 2).
Proof.
  intros t r. unfold r. rewrite partition_table_size_spec. fold t.
  pose proof (double_to_u64_is_u64 (u64_to_double size / alpha config)) as Hu.
  fold t in Hu. unfold is_u64 in Hu.
  split; [|split].
  - destruct (Z.eqb_spec t 0) as [H0|H0]; simpl.
    + intros _. left. rewrite H0. split; reflexivity.
    + destruct (is_power_of_two t) eqn:Hp.
      * destruct (Z.eq_dec t 1) as [H1|H1].
        -- intros _. right. rewrite H1. split; reflexivity.
        -- intros Hp'. rewrite succ_power_of_two_is_not in Hp' by (auto; lia).
           discriminate.
      * intros Hp'. congruence.
  - intros ->. reflexivity.
  - intros ->. reflexivity.
Qed.

(** ** The ranges of the threads *)

Lemma spawn_closed_form (n : nat) (begin per P : Z) :
  0 <= begin <= P -> 0 <= per -> P + per < u64_modulus ->
  map (fun th => (th_begin th, th_end th)) (spawn n begin per P)
  = map (fun k => (Z.min (begin + Z.of_nat k * per) P,
                   Z.min (begin + (Z.of_nat k + 1) * per) P))
        (seq 0 n).
Proof.
  revert begin. induction n as [|n IH]; intros begin Hb Hper Hfit; [reflexivity|].
  cbn [spawn seq map th_begin th_end].
  assert (Hend : wrap64 (begin + per) = begin + per)
    by (apply wrap64_small; unfold is_u64; lia).
  rewrite Hend.
  set (end1 := if P <? begin + per then P else begin + per).
  assert (Hend1 : end1 = Z.min (begin + per) P)
    by (unfold end1; destruct (Z.ltb_spec P (begin + per)); lia).
  f_equal.
  - f_equal; [lia|]. rewrite Hend1. f_equal. lia.
  - rewrite IH by lia. rewrite <- seq_shift, map_map.
    apply map_ext. intros k. rewrite Nat2Z.inj_succ.
    assert (Hk : 0 <= Z.of_nat k * per) by (apply Z.mul_nonneg_nonneg; lia).
    f_equal; nia.
Qed.

(** X2.  With [T] threads and [per = (P + T - 1) / T], thread [k] is given
    the partitions from [min(k * per, P)] up to [min((k + 1) * per, P)]: the
    ranges follow one another, the last one ends at [P], none is longer
    than [per], the least number with [P <= T * per]; with at least as many
    threads as partitions every thread gets one partition or none. *)
Theorem thread_ranges_closed_form (P T : Z) :
  0 <= P < 2 ^ 63 -> 1 <= T < 2 ^ 63 ->
  let per := (P + T - 1) / T in
  thread_ranges P T
  = map (fun k => (Z.min (Z.of_nat k * per) P, Z.min ((Z.of_nat k + 1) * per) P))
        (seq 0 (Z.to_nat T))
  /\ T * (per - 1) < P <= T * per
  /\ (1 <= P <= T -> per = 1).
Proof.
  intros HP HT per. pose proof two_63_lt as H63.
  assert (Hper : num_partitions_per_thread P T = per).
  { unfold num_partitions_per_thread, per.
    rewrite (wrap64_small (P + T)) by (unfold is_u64; lia).
    rewrite wrap64_small by (unfold is_u64; lia). reflexivity. }
  assert (Hdiv : T * per <= P + T - 1 < T * per + T).
  { unfold per. pose proof (Z.div_mod (P + T - 1) T ltac:(lia)).
    pose proof (Z.mod_pos_bound (P + T - 1) T ltac:(lia)). lia. }
  assert (Hper0 : 0 <= per) by (apply Z.div_pos; lia).
  assert (HperP : per <= P) by nia.
  split; [|split; [lia | intros HPT; nia]].
  unfold thread_ranges. rewrite Hper.
  rewrite spawn_closed_form by lia.
  apply map_ext. intros k. f_equal; f_equal; lia.
Qed.

(** ** The threads of a pool never share a slot *)

Section PoolSafety.

Variable A : Type.
Variable work : nat -> A -> A.
Variable tick : nat -> build_timings -> build_timings.

Lemma served_ordered (v0 : list A) (P : Z) (ths : list thread) (v : list A) (lo : Z)
  (t t' : nat) (th th' : thread) :
  served A work tick v0 P lo ths v ->
  nth_error ths t = Some th -> nth_error ths t' = Some th' -> (t < t')%nat ->
  th_end th <= th_begin th'.
Proof.
  revert lo t t'. induction ths as [|x ths IH]; intros lo t t' Hs Ht Ht' Hlt.
  - destruct t; discriminate.
  - destruct t' as [|t']; [lia|]. simpl in Ht'.
    destruct Hs as (_ & _ & _ & _ & _ & Hrest).
    destruct t as [|t]; simpl in Ht.
    + injection Ht as <-.
      pose proof (served_bounds A work tick v0 P ths v (th_end x) t' th' Hrest Ht').
      lia.
    + apply (IH (th_end x) t t'); auto. lia.
Qed.

Lemma par_steps_length (p q : pool A) :
  par_steps A work tick p q ->
  length (slots q) = length (slots p) /\ length (threads q) = length (threads p).
Proof.
  induction 1 as [p|p q r Hstep _ IH]; [split; reflexivity|].
  destruct IH as [IH1 IH2]. rewrite IH1, IH2.
  destruct Hstep as [p t th Hth Hne]. simpl.
  rewrite !update_at_length. split; reflexivity.
Qed.

Lemma spawn_length (n : nat) (begin per P : Z) :
  length (spawn n begin per P) = n.
Proof.
  revert begin. induction n as [|n IH]; intros begin; simpl; [reflexivity|].
  now rewrite IH.
Qed.

(** X3.  In every state the threads of [build_partitions] and of
    [partitioned_phf::build] can reach, in any interleaving: each thread's
    remaining range lies inside [[0, P)], and the range of a thread ends
    before the range of any later thread begins, so that no two threads
    ever touch the same slot; the vectors keep their lengths. *)
Theorem threads_never_share_a_slot (v0 : list A) (P T : Z) (p : pool A)
  (t t' : nat) (th th' : thread) :
  0 <= P < 2 ^ 63 -> 0 < T < 2 ^ 63 ->
  par_steps A work tick (start_pool A v0 P T) p ->
  nth_error (threads p) t = Some th ->
  nth_error (threads p) t' = Some th' ->
  (0 <= th_begin th <= th_end th /\ th_end th <= P)
  /\ ((t < t')%nat -> th_end th <= th_begin th')
  /\ length (threads p) = Z.to_nat T
  /\ length (slots p) = length v0.
Proof.
  intros HP HT Hsteps Ht Ht'. pose proof two_63_lt as H63.
  pose proof (start_pool_invariant A work tick v0 P T HP HT) as Hinv.
  pose proof (pool_invariant_steps A work tick v0 P _ _ _ ltac:(lia) Hinv Hsteps)
    as (_ & Hserved & _).
  pose proof (served_bounds A work tick v0 P _ _ _ _ _ Hserved Ht) as Hb.
  destruct (par_steps_length _ _ Hsteps) as [Hls Hlt].
  split; [lia|]. split; [|split].
  - intros Hlt'. eapply served_ordered; eauto.
  - rewrite Hlt. simpl. apply spawn_length.
  - exact Hls.
Qed.

End PoolSafety.

(** ** What a partition holds *)

Section DistributeOrder.

Context {H : Hasher} {UB : UniformBucketer}.

Variable bucketer : uniform_bucketer.

Lemma distribute_filter (hashes : list hash_type) (parts : list (list hash_type))
  (i : nat) :
  (forall h, In h hashes -> 0 <= uniform_bucket bucketer (hash_mix h)) ->
  (i < length parts)%nat ->
  nth i (builder.distribute bucketer hashes parts) []
  = nth i parts []
    ++ filter (fun h => uniform_bucket bucketer (hash_mix h) =? Z.of_nat i) hashes.
Proof.
  unfold builder.distribute.
  revert parts. induction hashes as [|h hashes IH]; intros parts Hpos Hi.
  - simpl. now rewrite app_nil_r.
  - cbn [fold_left filter].
    rewrite IH; [|intros h' Hh'; apply Hpos; now right
                 |now rewrite update_at_length].
    pose proof (Hpos h (or_introl eq_refl)) as Hb.
    destruct (Z.eqb_spec (uniform_bucket bucketer (hash_mix h)) (Z.of_nat i))
      as [Heq|Hne].
    + rewrite Heq, Nat2Z.id. rewrite nth_update_at_same by exact Hi.
      now rewrite <- app_assoc.
    + rewrite nth_update_at_other by lia. reflexivity.
Qed.

End DistributeOrder.

(** A NoDup list of blocks inside consecutive ranges. *)
Lemma blocks_within (blk : nat -> list Z) (off : nat -> Z) (n : nat) :
  (forall i, (i < n)%nat -> off i <= off (S i)) ->
  (forall i, (i < n)%nat ->
     NoDup (blk i) /\ forall v, In v (blk i) -> off i <= v < off (S i)) ->
  off 0%nat <= off n
  /\ NoDup (concat (map blk (seq 0 n)))
  /\ forall v, In v (concat (map blk (seq 0 n))) -> off 0%nat <= v < off n.
Proof.
  induction n as [|n IH]; intros Hmono Hblk.
  - simpl. split; [lia|]. split; [constructor|]. intros v [].
  - destruct IH as (Hle & Hnd & Hin).
    { intros i Hi. apply Hmono. lia. }
    { intros i Hi. apply Hblk. lia. }
    destruct (Hblk n ltac:(lia)) as [Hndn Hinn].
    pose proof (Hmono n ltac:(lia)) as Hstep.
    rewrite seq_S, map_app, concat_app. simpl. rewrite app_nil_r.
    split; [lia|]. split.
    + apply NoDup_app; auto.
      intros v Hv Hv'. apply Hin in Hv. apply Hinn in Hv'. lia.
    + intros v Hv. apply in_app_or in Hv. destruct Hv as [Hv|Hv].
      * apply Hin in Hv. lia.
      * apply Hinn in Hv. lia.
Qed.

Lemma all_worked_length (A : Type) (work : nat -> A -> A) (n : nat) (v0 v : list A) :
  all_worked A work n v0 v -> length v = length v0.
Proof.
  intros Hw.
  assert (Hle : (length v <= length v0)%nat).
  { apply nth_error_None. rewrite (Hw (length v0)).
    assert (Hn : nth_error v0 (length v0) = None) by (apply nth_error_None; lia).
    rewrite Hn. destruct (_ <? _)%nat; reflexivity. }
  destruct (Nat.eq_dec (length v) (length v0)) as [Heq|Hne]; [exact Heq|exfalso].
  assert (Hlt : (length v < length v0)%nat) by lia.
  assert (Hn : nth_error v (length v) = None) by (apply nth_error_None; lia).
  rewrite (Hw (length v)) in Hn.
  destruct (nth_error v0 (length v)) as [x|] eqn:Hx.
  - destruct (_ <? _)%nat; discriminate.
  - apply nth_error_None in Hx. lia.
Qed.

Section BuiltObjects.

Context {H : Hasher} {UB : UniformBucketer} {SB : SkewBucketer}.
Context {E : Encoder} {EF : EliasFano}.
Context {PR : Primitives} {B : SingleBuilder H SB}.

Variable Minimal : bool.
Variable elapsed encoding t : float.
Variable dur : nat -> build_timings.
Variable hashes : list hash_type.
Variable num_keys : Z.
Variable config : build_configuration.
Variable s0 b : builder.t.
Variable timings : build_timings.
Variable phf0 phf : partitioned_phf.t.

Hypothesis Hrange : uniform_in_range.
Hypothesis Hfit : counts_fit config.
Hypothesis Hbuild :
  builder.build_from_hashes elapsed dur hashes num_keys config s0
  = (b, Returns timings).

(** The partition count of a build that returned, and its vectors. *)
Lemma built_counts :
  let P := builder.collapsed_num_partitions num_keys config in
  0 < P < 2 ^ 63
  /\ builder.m_num_partitions b = P
  /\ length (partitions_of hashes num_keys config) = Z.to_nat P
  /\ length (builder.m_offsets b) = Z.to_nat P
  /\ length (builder.m_builders b) = Z.to_nat P.
Proof.
  intros P. destruct Hfit as [HfitP HfitT].
  destruct (build_from_hashes_guards _ _ _ _ _ _ _ _ Hbuild) as [_ Hnz].
  pose proof two_63_lt as H63.
  assert (Hu : is_u64 (num_partitions config)) by (unfold is_u64; lia).
  pose proof (collapsed_num_partitions_pos num_keys config Hu Hnz) as HP.
  pose proof (collapsed_num_partitions_le num_keys config Hnz Hu) as HPle.
  destruct (built_fields _ _ _ _ _ _ _ _ Hbuild)
    as (_ & _ & Hnp & _ & Hlenoff & _ & _ & Hbuilders).
  fold P in HP, HPle, Hnp, Hlenoff, Hbuilders.
  split; [lia|]. split; [exact Hnp|]. split; [apply partitions_of_length|].
  split; [exact Hlenoff|].
  rewrite Hbuilders.
  assert (HfitP' : 0 <= num_partitions
                          (builder.partition_config config P (seed config) num_keys)
                   < 2 ^ 63)
    by (change (0 <= P < 2 ^ 63); lia).
  rewrite (all_worked_length _ _ _ _ _
             (build_partitions_all_worked dur _ _ _ (num_threads config)
                HfitP' ltac:(lia))).
  apply resize_length.
Qed.

(** What partition [i] holds: the hashes read whose mix the bucketer sends
    to [i], in the order they were read. *)
Lemma partition_is_filter (i : nat) :
  let P := builder.collapsed_num_partitions num_keys config in
  (i < Z.to_nat P)%nat ->
  nth i (partitions_of hashes num_keys config) []
  = filter (fun h => uniform_bucket (uniform_init P) (hash_mix h) =? Z.of_nat i)
           (firstn (Z.to_nat num_keys) hashes).
Proof.
  intros P Hi. destruct built_counts as (HP & _).
  unfold partitions_of. fold P.
  rewrite distribute_filter.
  - rewrite nth_repeat_lt by exact Hi. reflexivity.
  - intros h _. apply (Hrange P (hash_mix h)). lia.
  - rewrite repeat_length. exact Hi.
Qed.

Hypothesis Hphf :
  partitioned_phf.build Minimal encoding b config phf0 = (phf, Returns t).

(** The function object of a build that returned. *)
Lemma built_partitions :
  let P := builder.collapsed_num_partitions num_keys config in
  let old := resize (Z.to_nat P) partitioned_phf.partition_value_initialized
                    (partitioned_phf.m_partitions phf0) in
  Minimal = minimal_output config
  /\ partitioned_phf.m_seed phf = seed config
  /\ partitioned_phf.m_num_keys phf = num_keys
  /\ partitioned_phf.m_table_size phf = builder.m_table_size b
  /\ partitioned_phf.m_bucketer phf = uniform_init P
  /\ length (partitioned_phf.m_partitions phf) = Z.to_nat P
  /\ forall i, (i < Z.to_nat P)%nat ->
       nth i (partitioned_phf.m_partitions phf)
           partitioned_phf.partition_value_initialized
       = partitioned_phf.encode_work Minimal (builder.m_offsets b)
           (builder.m_builders b) config i
           (nth i old partitioned_phf.partition_value_initialized).
Proof.
  intros P old. destruct Hfit as [HfitP HfitT].
  destruct built_counts as (HP & Hnp & _). fold P in HP, Hnp.
  destruct (built_fields _ _ _ _ _ _ _ _ Hbuild)
    as (Hseed & Hnk & _ & Hbk & _).
  pose proof (phf_build_guard _ _ _ _ _ _ _ Hphf) as Hagree.
  destruct (phf_build_returns Minimal encoding b config phf0 Hagree)
    as (phf' & Hphf' & Hs & Hn & Ht & Hbk' & Hparts).
  rewrite Hphf in Hphf'. injection Hphf' as <- _.
  specialize (Hparts ltac:(rewrite Hnp; lia) ltac:(lia)).
  rewrite Hnp in Hparts. fold old in Hparts.
  split; [exact Hagree|]. split; [congruence|]. split; [congruence|].
  split; [exact Ht|]. split; [rewrite Hbk', Hbk; reflexivity|]. split.
  - rewrite (all_worked_length _ _ _ _ _ Hparts). apply resize_length.
  - intros i Hi. apply (all_worked_nth _ _ _ _ _ _ i Hparts); [exact Hi|].
    unfold old. rewrite resize_length. exact Hi.
Qed.

(** A query goes to the partition the bucketer names, which exists. *)
Lemma query_partition (h : hash_type) :
  let P := builder.collapsed_num_partitions num_keys config in
  0 <= uniform_bucket (partitioned_phf.m_bucketer phf) (hash_mix h) < P.
Proof.
  intros P. destruct built_counts as (HP & _).
  destruct built_partitions as (_ & _ & _ & _ & Hbk & _).
  rewrite Hbk. apply Hrange. fold P in HP. lia.
Qed.

(** The position of a key of partition [i], when the partitions' ranges
    fit in 64 bits. *)
Lemma position_of_key (i : nat) (h : hash_type) :
  let partitions := partitions_of hashes num_keys config in
  let part := nth i (partitioned_phf.m_partitions phf)
                  partitioned_phf.partition_value_initialized in
  zsum (increments config partitions) < u64_modulus ->
  (i < length partitions)%nat ->
  uniform_bucket (partitioned_phf.m_bucketer phf) (hash_mix h) = Z.of_nat i ->
  0 <= single_phf.position Minimal (partitioned_phf.f part) h
    < nth i (increments config partitions) 0 ->
  partitioned_phf.offset part = prefix_sum (increments config partitions) i
  /\ partitioned_phf.position Minimal phf h
     = prefix_sum (increments config partitions) i
       + single_phf.position Minimal (partitioned_phf.f part) h.
Proof.
  intros partitions part Hsum Hi Hhome Hpos.
  destruct built_counts as (HP & _ & Hlen & _).
  fold partitions in Hlen.
  destruct built_partitions as (_ & _ & _ & _ & _ & _ & Hparts).
  destruct (built_fields _ _ _ _ _ _ _ _ Hbuild)
    as (_ & _ & _ & _ & _ & Hoff & _).
  fold partitions in Hoff.
  assert (Hnn : Forall (fun x => 0 <= x) (increments config partitions)).
  { unfold increments. destruct (minimal_output config);
      [apply sizes_nonneg | apply table_sizes_nonneg]. }
  pose proof (prefix_sum_nonneg _ i Hnn) as Hlo.
  pose proof (prefix_sum_le_zsum _ (S i) Hnn) as Hhi.
  rewrite prefix_sum_S in Hhi by (rewrite increments_length; exact Hi).
  assert (Hoffset : partitioned_phf.offset part
                    = prefix_sum (increments config partitions) i).
  { unfold part. rewrite Hparts by lia. simpl.
    rewrite Hoff by lia. apply wrap64_small. unfold is_u64. lia. }
  split; [exact Hoffset|].
  unfold partitioned_phf.position. rewrite Hhome, Nat2Z.id.
  fold part. rewrite Hoffset.
  apply wrap64_small. unfold is_u64. lia.
Qed.

End BuiltObjects.

Section Blocks.

Context {H : Hasher} {UB : UniformBucketer} {SB : SkewBucketer}.
Context {E : Encoder} {EF : EliasFano}.
Context {PR : Primitives} {B : SingleBuilder H SB}.

(** The positions of the keys, partition by partition: those of partition
    [i] are the positions its single function gives, moved up by the sum
    of the ranges of the partitions before. *)
Lemma positions_by_block (Minimal : bool) (elapsed encoding t : float)
  (dur : nat -> build_timings) (hashes : list hash_type) (num_keys : Z)
  (config : build_configuration) (s0 b : builder.t) (timings : build_timings)
  (phf0 phf : partitioned_phf.t) :
  uniform_in_range -> counts_fit config ->
  builder.build_from_hashes elapsed dur hashes num_keys config s0
  = (b, Returns timings) ->
  partitioned_phf.build Minimal encoding b config phf0 = (phf, Returns t) ->
  num_keys = Z.of_nat (length hashes) ->
  let partitions := partitions_of hashes num_keys config in
  let part i := nth i (partitioned_phf.m_partitions phf)
                    partitioned_phf.partition_value_initialized in
  zsum (increments config partitions) < u64_modulus ->
  (forall i h, (i < length partitions)%nat -> In h (nth i partitions []) ->
     0 <= single_phf.position Minimal (partitioned_phf.f (part i)) h
       < nth i (increments config partitions) 0) ->
  Permutation
    (map (partitioned_phf.position Minimal phf) hashes)
    (concat
       (map (fun i =>
               map (Z.add (prefix_sum (increments config partitions) i))
                   (map (single_phf.position Minimal (partitioned_phf.f (part i)))
                        (nth i partitions [])))
            (seq 0 (length partitions)))).
Proof.
  intros Hrange Hfit Hbuild Hphf Hn partitions part Hsum Hpos.
  destruct (built_counts _ _ _ _ _ _ _ _ Hfit Hbuild) as (HP & _ & Hlen & _).
  assert (HP0 : 0 < builder.collapsed_num_partitions num_keys config).
  { lia. }
  destruct (partitions_of_facts hashes num_keys config Hrange HP0 Hn)
    as (Hperm & Hhome & _).
  fold partitions in Hperm, Hhome, Hlen.
  destruct (built_partitions _ _ _ _ _ _ _ _ _ _ _ _ _ Hfit Hbuild Hphf)
    as (_ & _ & _ & _ & Hbk & _).
  eapply Permutation_trans; [apply Permutation_map; exact Hperm|].
  rewrite concat_map.
  rewrite <- (map_nth_seq_id partitions []) at 1. rewrite map_map.
  apply Permutation_refl'. f_equal.
  apply map_ext_in. intros i Hi. apply in_seq in Hi.
  rewrite map_map. apply map_ext_in. intros h Hh.
  assert (Hb : uniform_bucket (partitioned_phf.m_bucketer phf) (hash_mix h)
               = Z.of_nat i).
  { pose proof (query_partition _ _ _ _ _ _ _ _ _ _ _ _ _ Hrange Hfit Hbuild Hphf h)
      as Hq.
    cbv zeta in Hq. rewrite <- (Hhome i h Hh). rewrite Hbk in Hq |- *. lia. }
  assert (Hi' : (i < length partitions)%nat) by lia.
  apply (position_of_key _ _ _ _ _ _ _ _ _ _ _ _ _ Hfit Hbuild Hphf i h Hsum Hi' Hb).
  apply Hpos; [exact Hi' | exact Hh].
Qed.

End Blocks.

Section PartitionProperties.

Context {H : Hasher} {UB : UniformBucketer} {SB : SkewBucketer}.
Context {E : Encoder} {EF : EliasFano}.
Context {PR : Primitives} {B : SingleBuilder H SB}.

(** X4.  After a build that returned, partition [i] holds the hashes, among
    the first [num_keys] read, whose mix the builder's bucketer sends to
    [i], in the order they were read; sub-builder [i] is built from exactly
    these and their number. *)
Theorem partitions_keep_input_order (elapsed : float) (dur : nat -> build_timings)
  (hashes : list hash_type) (num_keys : Z) (config : build_configuration)
  (s0 b : builder.t) (timings : build_timings) (i : nat) :
  uniform_in_range -> counts_fit config ->
  builder.build_from_hashes elapsed dur hashes num_keys config s0
  = (b, Returns timings) ->
  (i < Z.to_nat (builder.m_num_partitions b))%nat ->
  let P := builder.m_num_partitions b in
  let mine :=
    filter (fun h => uniform_bucket (builder.m_bucketer b) (hash_mix h) =? Z.of_nat i)
           (firstn (Z.to_nat num_keys) hashes) in
  nth i (partitions_of hashes num_keys config) [] = mine
  /\ nth i (builder.m_builders b) single_builder_default
     = single_build_from_hashes
         (nth i (resize (Z.to_nat P) single_builder_default (builder.m_builders s0))
              single_builder_default)
         mine (Z.of_nat (length mine))
         (builder.partition_config config P (builder.m_seed b) num_keys).
Proof.
  intros Hrange Hfit Hbuild Hi P mine.
  destruct (built_counts _ _ _ _ _ _ _ _ Hfit Hbuild) as (HP & Hnp & _).
  destruct (built_fields _ _ _ _ _ _ _ _ Hbuild)
    as (Hseed & _ & _ & Hbk & _ & _ & _ & Hbuilders).
  assert (Hmine : nth i (partitions_of hashes num_keys config) [] = mine).
  { unfold mine. rewrite Hbk.
    apply (partition_is_filter _ _ _ _ _ _ _ _ Hrange Hfit Hbuild).
    rewrite <- Hnp. exact Hi. }
  split; [exact Hmine|].
  unfold P. rewrite Hnp, Hseed, Hbuilders.
  assert (HfitP : 0 <= num_partitions
                         (builder.partition_config config
                            (builder.collapsed_num_partitions num_keys config)
                            (seed config) num_keys) < 2 ^ 63)
    by (change (0 <= builder.collapsed_num_partitions num_keys config < 2 ^ 63); lia).
  pose proof (build_partitions_all_worked dur
                (partitions_of hashes num_keys config)
                (resize (Z.to_nat (builder.collapsed_num_partitions num_keys config))
                        single_builder_default (builder.m_builders s0))
                _ (num_threads config) HfitP
                ltac:(destruct Hfit; lia)) as Hw.
  rewrite (all_worked_nth _ _ _ _ _ single_builder_default i Hw)
    by (rewrite ?resize_length; simpl; rewrite <- Hnp; exact Hi).
  unfold builder.build_work. rewrite Hmine. reflexivity.
Qed.

(** X5.  A query reads a partition that exists, for any hash, also one of
    no key: the bucket is below the length of [m_partitions], which like
    the builder's offsets and sub-builders has [num_partitions()] entries,
    at least one. *)
Theorem queries_stay_in_bounds (Minimal : bool) (elapsed encoding t : float)
  (dur : nat -> build_timings) (hashes : list hash_type) (num_keys : Z)
  (config : build_configuration) (s0 b : builder.t) (timings : build_timings)
  (phf0 phf : partitioned_phf.t) (h : hash_type) :
  uniform_in_range -> counts_fit config ->
  builder.build_from_hashes elapsed dur hashes num_keys config s0
  = (b, Returns timings) ->
  partitioned_phf.build Minimal encoding b config phf0 = (phf, Returns t) ->
  let P := builder.m_num_partitions b in
  0 <= uniform_bucket (partitioned_phf.m_bucketer phf) (hash_mix h)
    < Z.of_nat (length (partitioned_phf.m_partitions phf))
  /\ 0 < P
  /\ length (partitioned_phf.m_partitions phf) = Z.to_nat P
  /\ length (builder.m_offsets b) = Z.to_nat P
  /\ length (builder.m_builders b) = Z.to_nat P.
Proof.
  intros Hrange Hfit Hbuild Hphf P.
  destruct (built_counts _ _ _ _ _ _ _ _ Hfit Hbuild)
    as (HP & Hnp & _ & Hoff & Hbld).
  destruct (built_partitions _ _ _ _ _ _ _ _ _ _ _ _ _ Hfit Hbuild Hphf)
    as (_ & _ & _ & _ & _ & Hlen & _).
  pose proof (query_partition _ _ _ _ _ _ _ _ _ _ _ _ _ Hrange Hfit Hbuild Hphf h)
    as Hq.
  cbv zeta in Hq. unfold P. rewrite Hnp, Hlen.
  repeat split; auto; lia.
Qed.

(** X6.  Without [minimal_output], when the table sizes add up to less
    than [2^64]: if every partition's single function maps the keys of its
    partition to distinct slots below the partition's table size, the
    partitioned function maps the keys to distinct positions below
    [table_size()], which is the sum of the partitions' table sizes, and
    offset [i] is the sum of the table sizes before [i]. *)
Theorem nonminimal_partitioned_phf_is_injective (elapsed encoding t : float)
  (dur : nat -> build_timings) (hashes : list hash_type) (num_keys : Z)
  (config : build_configuration) (s0 b : builder.t) (timings : build_timings)
  (phf0 phf : partitioned_phf.t) :
  uniform_in_range -> counts_fit config ->
  num_keys = Z.of_nat (length hashes) ->
  builder.build_from_hashes elapsed dur hashes num_keys config s0
  = (b, Returns timings) ->
  partitioned_phf.build false encoding b config phf0 = (phf, Returns t) ->
  let partitions := partitions_of hashes num_keys config in
  let part i := nth i (partitioned_phf.m_partitions phf)
                    partitioned_phf.partition_value_initialized in
  zsum (table_sizes config partitions) < u64_modulus ->
  (forall i, (i < length partitions)%nat ->
     injective_into
       (map (single_phf.position false (partitioned_phf.f (part i)))
            (nth i partitions []))
       (nth i (table_sizes config partitions) 0)) ->
  injective_into (map (partitioned_phf.position false phf) hashes)
                 (partitioned_phf.table_size phf)
  /\ partitioned_phf.table_size phf = zsum (table_sizes config partitions)
  /\ (forall i, (i < length partitions)%nat ->
        partitioned_phf.offset (part i)
        = prefix_sum (table_sizes config partitions) i).
Proof.
  intros Hrange Hfit Hn Hbuild Hphf partitions part Hsum Hsingle.
  destruct (built_counts _ _ _ _ _ _ _ _ Hfit Hbuild) as (HP & _ & Hlen & _).
  fold partitions in Hlen.
  destruct (built_partitions _ _ _ _ _ _ _ _ _ _ _ _ _ Hfit Hbuild Hphf)
    as (Hagree & _ & _ & Htab & Hbk & _ & _).
  destruct (built_fields _ _ _ _ _ _ _ _ Hbuild)
    as (_ & _ & _ & _ & _ & _ & Htab' & _).
  fold partitions in Htab'.
  assert (Hinc : increments config partitions = table_sizes config partitions)
    by (unfold increments; now rewrite <- Hagree).
  pose proof (table_sizes_nonneg config partitions) as Hnn.
  assert (Htotal : partitioned_phf.table_size phf
                   = zsum (table_sizes config partitions)).
  { unfold partitioned_phf.table_size. rewrite Htab, Htab'.
    apply wrap64_small. unfold is_u64.
    pose proof (prefix_sum_nonneg _ (length (table_sizes config partitions)) Hnn)
      as H0.
    rewrite prefix_sum_all in H0. lia. }
  assert (Hpos : forall i h, (i < length partitions)%nat ->
            In h (nth i partitions []) ->
            0 <= single_phf.position false (partitioned_phf.f (part i)) h
              < nth i (increments config partitions) 0).
  { intros i h Hi Hh. rewrite Hinc.
    destruct (Hsingle i Hi) as [_ Hr]. apply Hr. now apply in_map. }
  assert (Hsum' : zsum (increments config partitions) < u64_modulus)
    by (rewrite Hinc; exact Hsum).
  pose proof (positions_by_block false elapsed encoding t dur hashes num_keys config
                s0 b timings phf0 phf Hrange Hfit Hbuild Hphf Hn Hsum' Hpos)
    as Hperm.
  cbv zeta in Hperm. fold partitions in Hperm. rewrite Hinc in Hperm.
  pose proof (blocks_within
                (fun i => map (Z.add (prefix_sum (table_sizes config partitions) i))
                              (map (single_phf.position false
                                      (partitioned_phf.f (part i)))
                                   (nth i partitions [])))
                (prefix_sum (table_sizes config partitions)) (length partitions))
    as Htile.
  destruct Htile as (_ & Hnd & Hin).
  - intros i Hi. rewrite prefix_sum_S by (rewrite table_sizes_length; exact Hi).
    assert (Hmem : In (nth i (table_sizes config partitions) 0)
                      (table_sizes config partitions))
      by (apply nth_In; rewrite table_sizes_length; exact Hi).
    pose proof (proj1 (Forall_forall _ _) Hnn _ Hmem) as Hge. simpl in Hge.
    lia.
  - intros i Hi. rewrite prefix_sum_S by (rewrite table_sizes_length; exact Hi).
    destruct (Hsingle i Hi) as [Hndi Hri]. split.
    + apply Finite.Injective_map_NoDup; auto. intros x y Hxy. lia.
    + intros v Hv. apply in_map_iff in Hv. destruct Hv as (x & <- & Hx).
      apply Hri in Hx. lia.
  - rewrite prefix_sum_0 in Hin.
    rewrite <- (table_sizes_length config partitions), prefix_sum_all in Hin.
    rewrite (table_sizes_length config partitions) in Hin.
    split; [|split; [exact Htotal|]].
    + split.
      * eapply Permutation_NoDup; [apply Permutation_sym; exact Hperm | exact Hnd].
      * intros v Hv. rewrite Htotal. apply Hin.
        eapply Permutation_in; [exact Hperm | exact Hv].
    + intros i Hi.
      destruct (built_partitions _ _ _ _ _ _ _ _ _ _ _ _ _ Hfit Hbuild Hphf)
        as (_ & _ & _ & _ & _ & _ & Hparts).
      destruct (built_fields _ _ _ _ _ _ _ _ Hbuild)
        as (_ & _ & _ & _ & _ & Hoff & _).
      fold partitions in Hoff. unfold part.
      rewrite Hparts by lia. simpl. rewrite Hoff by lia. rewrite Hinc.
      apply wrap64_small. unfold is_u64.
      pose proof (prefix_sum_nonneg _ i Hnn).
      pose proof (prefix_sum_le_zsum _ i Hnn). lia.
Qed.

End PartitionProperties.

Section RangeProperties.

Context {H : Hasher} {UB : UniformBucketer} {SB : SkewBucketer}.
Context {E : Encoder} {EF : EliasFano}.
Context {PR : Primitives} {B : SingleBuilder H SB}.

(** The offsets the function object holds, when the partitions' ranges fit
    in 64 bits. *)
Lemma built_offsets (Minimal : bool) (elapsed encoding t : float)
  (dur : nat -> build_timings) (hashes : list hash_type) (num_keys : Z)
  (config : build_configuration) (s0 b : builder.t) (timings : build_timings)
  (phf0 phf : partitioned_phf.t) (i : nat) :
  counts_fit config ->
  builder.build_from_hashes elapsed dur hashes num_keys config s0
  = (b, Returns timings) ->
  partitioned_phf.build Minimal encoding b config phf0 = (phf, Returns t) ->
  let partitions := partitions_of hashes num_keys config in
  zsum (increments config partitions) < u64_modulus ->
  (i < length partitions)%nat ->
  partitioned_phf.offset
    (nth i (partitioned_phf.m_partitions phf)
         partitioned_phf.partition_value_initialized)
  = prefix_sum (increments config partitions) i.
Proof.
  intros Hfit Hbuild Hphf partitions Hsum Hi.
  destruct (built_counts _ _ _ _ _ _ _ _ Hfit Hbuild) as (HP & _ & Hlen & _).
  fold partitions in Hlen.
  destruct (built_partitions _ _ _ _ _ _ _ _ _ _ _ _ _ Hfit Hbuild Hphf)
    as (_ & _ & _ & _ & _ & _ & Hparts).
  destruct (built_fields _ _ _ _ _ _ _ _ Hbuild)
    as (_ & _ & _ & _ & _ & Hoff & _).
  fold partitions in Hoff.
  assert (Hnn : Forall (fun x => 0 <= x) (increments config partitions)).
  { unfold increments. destruct (minimal_output config);
      [apply sizes_nonneg | apply table_sizes_nonneg]. }
  pose proof (prefix_sum_nonneg _ i Hnn) as Hlo.
  pose proof (prefix_sum_le_zsum _ i Hnn) as Hhi.
  rewrite Hparts by lia. simpl.
  rewrite Hoff by lia. apply wrap64_small. unfold is_u64. lia.
Qed.

(** X14.  The positions of a partition are a range of their own: a hash
    that the bucketer sends to partition [i], and that the single function
    of [i] sends below the width of [i] (its size with [minimal_output],
    its table size without), gets the position [offset_i] plus that slot,
    inside [[offset_i, offset_i + width_i)]; and the range of partition
    [i + 1] begins where this one ends. *)
Theorem keys_of_a_partition_share_a_range (Minimal : bool)
  (elapsed encoding t : float) (dur : nat -> build_timings)
  (hashes : list hash_type) (num_keys : Z) (config : build_configuration)
  (s0 b : builder.t) (timings : build_timings) (phf0 phf : partitioned_phf.t)
  (i : nat) (h : hash_type) :
  uniform_in_range -> counts_fit config ->
  builder.build_from_hashes elapsed dur hashes num_keys config s0
  = (b, Returns timings) ->
  partitioned_phf.build Minimal encoding b config phf0 = (phf, Returns t) ->
  let partitions := partitions_of hashes num_keys config in
  let part j := nth j (partitioned_phf.m_partitions phf)
                    partitioned_phf.partition_value_initialized in
  let width := nth i (increments config partitions) 0 in
  zsum (increments config partitions) < u64_modulus ->
  (i < length partitions)%nat ->
  uniform_bucket (partitioned_phf.m_bucketer phf) (hash_mix h) = Z.of_nat i ->
  0 <= single_phf.position Minimal (partitioned_phf.f (part i)) h < width ->
  partitioned_phf.position Minimal phf h
  = partitioned_phf.offset (part i)
    + single_phf.position Minimal (partitioned_phf.f (part i)) h
  /\ partitioned_phf.offset (part i)
     <= partitioned_phf.position Minimal phf h
     < partitioned_phf.offset (part i) + width
  /\ ((S i < length partitions)%nat ->
      partitioned_phf.offset (part (S i)) = partitioned_phf.offset (part i) + width).
Proof.
  intros Hrange Hfit Hbuild Hphf partitions part width Hsum Hi Hhome Hpos.
  destruct (position_of_key _ _ _ _ _ _ _ _ _ _ _ _ _ Hfit Hbuild Hphf i h Hsum Hi
              Hhome Hpos) as [Hoff Hp].
  fold partitions in Hoff, Hp. fold (part i) in Hoff, Hp.
  rewrite Hp, Hoff. split; [reflexivity|]. split; [lia|].
  intros HSi. unfold part.
  rewrite (built_offsets _ _ _ _ _ _ _ _ _ _ _ _ _ (S i) Hfit Hbuild Hphf Hsum HSi).
  fold partitions.
  rewrite prefix_sum_S by (rewrite increments_length; exact Hi). reflexivity.
Qed.

End RangeProperties.

(** ** Objects that are built again *)

Lemma singleton_nth {A : Type} (l : list A) (d : A) :
  length l = 1%nat -> l = [nth 0 l d].
Proof.
  destruct l as [|x [|y l]]; simpl; intros Hl; try discriminate. reflexivity.
Qed.

Lemma filter_all {A : Type} (g : A -> bool) (l : list A) :
  (forall x, In x l -> g x = true) -> filter g l = l.
Proof.
  induction l as [|x l IH]; intros Hg; simpl; [reflexivity|].
  rewrite (Hg x (or_introl eq_refl)). f_equal. apply IH.
  intros y Hy. apply Hg. now right.
Qed.

Section SingleFunctionFacts.

Context {H : Hasher} {SB : SkewBucketer} {E : Encoder} {EF : EliasFano}.
Context {PR : Primitives} {B : SingleBuilder H SB}.

(** The members of a single function after a [build] that returned. *)
Lemma single_build_fields (Minimal : bool) (elapsed t : float)
  (sbuilder : single_builder) (config : build_configuration) (f0 f : single_phf.t) :
  single_phf.build Minimal elapsed sbuilder config f0 = (f, Returns t) ->
  Minimal = minimal_output config
  /\ single_phf.m_seed f = sb_seed sbuilder
  /\ single_phf.m_num_keys f = sb_num_keys sbuilder
  /\ single_phf.m_table_size f = sb_table_size sbuilder
  /\ single_phf.m_M f = computeM_u64 (sb_table_size sbuilder)
  /\ single_phf.m_bucketer f = sb_bucketer sbuilder
  /\ single_phf.m_pilots f
     = encode (sb_pilots sbuilder) (skew_num_buckets (sb_bucketer sbuilder))
  /\ single_phf.m_free_slots f
     = if Minimal && (sb_num_keys sbuilder <? sb_table_size sbuilder)
       then ef_encode (sb_free_slots sbuilder)
                      (wrap64 (sb_table_size sbuilder - sb_num_keys sbuilder))
       else single_phf.m_free_slots f0.
Proof.
  intros Hbuild.
  destruct (Bool.bool_dec Minimal (minimal_output config)) as [Heq|Hne].
  - split; [exact Heq|].
    unfold single_phf.build, bind, assign, ret in Hbuild.
    rewrite (check_minimal_agree _ _ _ _ Heq) in Hbuild.
    injection Hbuild as <- _.
    cbn [single_phf.set_m_seed single_phf.set_m_num_keys single_phf.set_m_table_size
         single_phf.set_m_M single_phf.set_m_bucketer single_phf.set_m_pilots
         single_phf.m_seed single_phf.m_num_keys single_phf.m_table_size
         single_phf.m_M single_phf.m_bucketer single_phf.m_pilots
         single_phf.m_free_slots].
    destruct (Minimal && (sb_num_keys sbuilder <? sb_table_size sbuilder));
      repeat split; reflexivity.
  - destruct (check_minimal_disagree "single_phf" Minimal config f0 Hne) as [what Hw].
    unfold single_phf.build, bind in Hbuild. rewrite Hw in Hbuild. discriminate.
Qed.

(** Two functions that agree on everything but free slots that are never
    read answer alike. *)
Lemma position_without_free_slots (Minimal : bool) (f f' : single_phf.t)
  (h : hash_type) :
  single_phf.m_seed f = single_phf.m_seed f' ->
  single_phf.m_num_keys f = single_phf.m_num_keys f' ->
  single_phf.m_table_size f = single_phf.m_table_size f' ->
  single_phf.m_M f = single_phf.m_M f' ->
  single_phf.m_bucketer f = single_phf.m_bucketer f' ->
  single_phf.m_pilots f = single_phf.m_pilots f' ->
  (Minimal = false
   \/ single_phf.m_free_slots f = single_phf.m_free_slots f'
   \/ (forall x M, fastmod_u64 x M (single_phf.m_table_size f)
                   < single_phf.m_num_keys f)) ->
  single_phf.position Minimal f h = single_phf.position Minimal f' h.
Proof.
  intros Hs Hn Ht HM Hb Hp Hfree.
  unfold single_phf.position, single_phf.num_keys.
  rewrite <- Hs, <- Hn, <- Ht, <- HM, <- Hb, <- Hp.
  destruct Minimal; [|reflexivity].
  destruct Hfree as [Hm|[Hf|Hlt]].
  - discriminate.
  - now rewrite Hf.
  - match goal with
    | |- (if ?p <? _ then _ else _) = _ =>
        destruct (Z.ltb_spec p (single_phf.m_num_keys f)) as [Hlt'|Hge]
    end; [reflexivity|].
    match type of Hge with
    | _ <= fastmod_u64 ?x ?M _ => specialize (Hlt x M)
    end. lia.
Qed.

Lemma single_build_forgets (Minimal : bool) (elapsed elapsed' t t' : float)
  (sbuilder : single_builder) (config : build_configuration)
  (f0 f0' f f' : single_phf.t) (h : hash_type) :
  (forall x M, 0 <= fastmod_u64 x M (sb_table_size sbuilder)
               < sb_table_size sbuilder) ->
  single_phf.build Minimal elapsed sbuilder config f0 = (f, Returns t) ->
  single_phf.build Minimal elapsed' sbuilder config f0' = (f', Returns t') ->
  single_phf.position Minimal f h = single_phf.position Minimal f' h.
Proof.
  intros Hmod Hb Hb'.
  destruct (single_build_fields _ _ _ _ _ _ _ Hb)
    as (_ & Hs & Hn & Ht & HM & Hbk & Hp & Hf).
  destruct (single_build_fields _ _ _ _ _ _ _ Hb')
    as (_ & Hs' & Hn' & Ht' & HM' & Hbk' & Hp' & Hf').
  apply position_without_free_slots; try congruence.
  rewrite Hf, Hf'.
  destruct Minimal; simpl; [right|left; reflexivity].
  destruct (Z.ltb_spec (sb_num_keys sbuilder) (sb_table_size sbuilder)) as [Hlt|Hge].
  - left. reflexivity.
  - right. intros x M. rewrite Ht, Hn. specialize (Hmod x M). lia.
Qed.

(** X7.  A [single_phf] object that is built again answers as one built for
    the first time, whatever it held before, provided [fastmod_u64] stays
    below the table size.  Its free slots are kept from before when the
    build has none to encode (not minimal, or as many keys as slots); they
    are never read then. *)
Theorem rebuilt_single_function_forgets (Minimal : bool)
  (elapsed elapsed' t t' : float) (sbuilder : single_builder)
  (config : build_configuration) (f0 f0' f f' : single_phf.t) (h : hash_type) :
  (forall x M, 0 <= fastmod_u64 x M (sb_table_size sbuilder)
               < sb_table_size sbuilder) ->
  single_phf.build Minimal elapsed sbuilder config f0 = (f, Returns t) ->
  single_phf.build Minimal elapsed' sbuilder config f0' = (f', Returns t') ->
  single_phf.position Minimal f h = single_phf.position Minimal f' h
  /\ single_phf.seed f = single_phf.seed f'
  /\ single_phf.num_keys f = single_phf.num_keys f'
  /\ single_phf.table_size f = single_phf.table_size f'
  /\ (Minimal && (single_phf.num_keys f <? single_phf.table_size f) = false ->
      single_phf.m_free_slots f = single_phf.m_free_slots f0).
Proof.
  intros Hmod Hb Hb'.
  split; [eapply single_build_forgets; eauto|].
  destruct (single_build_fields _ _ _ _ _ _ _ Hb)
    as (_ & Hs & Hn & Ht & _ & _ & _ & Hf).
  destruct (single_build_fields _ _ _ _ _ _ _ Hb')
    as (_ & Hs' & Hn' & Ht' & _).
  unfold single_phf.seed, single_phf.num_keys, single_phf.table_size.
  repeat split; try congruence.
  rewrite Hn, Ht. intros Hnone. now rewrite Hnone in Hf.
Qed.

End SingleFunctionFacts.

Section ReuseProperties.

Context {H : Hasher} {UB : UniformBucketer} {SB : SkewBucketer}.
Context {E : Encoder} {EF : EliasFano}.
Context {PR : Primitives} {B : SingleBuilder H SB}.


(** X9.  With one partition (asked for, or after the collapse) the
    partition holds every hash read, in order, the only offset is 0, the
    table size is that of the one partition, the one sub-builder is built
    from all the hashes, and a query answers what the single function
    answers. *)
Theorem one_partition_is_the_single_function (Minimal : bool)
  (elapsed encoding t : float) (dur : nat -> build_timings)
  (hashes : list hash_type) (num_keys : Z) (config : build_configuration)
  (s0 b : builder.t) (timings : build_timings) (phf0 phf : partitioned_phf.t) :
  uniform_in_range -> counts_fit config ->
  builder.build_from_hashes elapsed dur hashes num_keys config s0
  = (b, Returns timings) ->
  partitioned_phf.build Minimal encoding b config phf0 = (phf, Returns t) ->
  builder.m_num_partitions b = 1 ->
  let read := firstn (Z.to_nat num_keys) hashes in
  let part := nth 0 (partitioned_phf.m_partitions phf)
                  partitioned_phf.partition_value_initialized in
  partitions_of hashes num_keys config = [read]
  /\ builder.m_offsets b = [0]
  /\ builder.m_table_size b
     = builder.partition_table_size config (Z.of_nat (length read))
  /\ builder.m_builders b
     = [single_build_from_hashes
          (nth 0 (resize 1 single_builder_default (builder.m_builders s0))
               single_builder_default)
          read (Z.of_nat (length read))
          (builder.partition_config config 1 (seed config) num_keys)]
  /\ partitioned_phf.offset part = 0
  /\ forall h,
       is_u64 (single_phf.position Minimal (partitioned_phf.f part) h) ->
       partitioned_phf.position Minimal phf h
       = single_phf.position Minimal (partitioned_phf.f part) h.
Proof.
  intros Hrange Hfit Hbuild Hphf Hone read part.
  destruct (built_counts _ _ _ _ _ _ _ _ Hfit Hbuild)
    as (HP & Hnp & Hlen & Hlenoff & Hlenbld).
  rewrite Hone in Hnp. rewrite <- Hnp in Hlen, Hlenoff, Hlenbld.
  change (Z.to_nat 1) with 1%nat in Hlen, Hlenoff, Hlenbld.
  destruct (built_fields _ _ _ _ _ _ _ _ Hbuild)
    as (Hseed & _ & _ & Hbk & _ & Hoff & Htab & Hbuilders).
  rewrite <- Hnp in Hbk, Hoff, Hbuilders.
  change (Z.to_nat 1) with 1%nat in Hoff, Hbuilders.
  assert (Hparts : partitions_of hashes num_keys config = [read]).
  { rewrite (singleton_nth _ [] Hlen). f_equal.
    rewrite (partition_is_filter _ _ _ _ _ _ _ _ Hrange Hfit Hbuild 0)
      by (rewrite <- Hnp; simpl; lia).
    apply filter_all. intros h _. rewrite <- Hnp.
    pose proof (Hrange 1 (hash_mix h) ltac:(lia)) as Hb.
    apply Z.eqb_eq. simpl. lia. }
  assert (Hoff0 : builder.m_offsets b = [0]).
  { rewrite (singleton_nth _ 0 Hlenoff). f_equal.
    rewrite Hoff by lia. reflexivity. }
  split; [exact Hparts|]. split; [exact Hoff0|]. split; [|split; [|split]].
  - rewrite Htab, Hparts. unfold table_sizes, sizes. simpl.
    rewrite Z.add_0_r. apply wrap64_small. apply table_size_is_u64.
  - rewrite (singleton_nth _ single_builder_default Hlenbld). f_equal.
    rewrite Hbuilders.
    assert (HfitP : 0 <= num_partitions
                           (builder.partition_config config 1 (seed config) num_keys)
                    < 2 ^ 63) by (simpl; lia).
    pose proof (build_partitions_all_worked dur
                  (partitions_of hashes num_keys config)
                  (resize 1 single_builder_default (builder.m_builders s0))
                  _ (num_threads config) HfitP ltac:(destruct Hfit; lia)) as Hw.
    rewrite (all_worked_nth _ _ _ _ _ single_builder_default 0%nat Hw)
      by (rewrite ?resize_length; simpl; lia).
    unfold builder.build_work. rewrite Hparts. reflexivity.
  - destruct (built_partitions _ _ _ _ _ _ _ _ _ _ _ _ _ Hfit Hbuild Hphf)
      as (_ & _ & _ & _ & _ & _ & Hp).
    unfold part. rewrite Hp by (rewrite <- Hnp; simpl; lia).
    simpl. rewrite Hoff0. reflexivity.
  - intros h Hu.
    pose proof (query_partition _ _ _ _ _ _ _ _ _ _ _ _ _ Hrange Hfit Hbuild Hphf h)
      as Hq.
    cbv zeta in Hq. rewrite <- Hnp in Hq.
    unfold partitioned_phf.position.
    replace (uniform_bucket (partitioned_phf.m_bucketer phf) (hash_mix h)) with 0
      by lia.
    change (Z.to_nat 0) with 0%nat. fold part.
    assert (Hzero : partitioned_phf.offset part = 0).
    { destruct (built_partitions _ _ _ _ _ _ _ _ _ _ _ _ _ Hfit Hbuild Hphf)
        as (_ & _ & _ & _ & _ & _ & Hp).
      unfold part. rewrite Hp by (rewrite <- Hnp; simpl; lia).
      simpl. rewrite Hoff0. reflexivity. }
    rewrite Hzero. now apply wrap64_small.
Qed.

End ReuseProperties.

Section BuilderReuse.

Context {H : Hasher} {UB : UniformBucketer} {SB : SkewBucketer}.
Context {PR : Primitives} {B : SingleBuilder H SB}.

(** X10.  A builder object that is used again keeps nothing of the earlier
    build in its seed, counts, table size, bucketer and offsets; its
    sub-builders are the earlier ones, cut or filled up to the new count,
    built over. *)
Theorem rebuilt_builder_forgets (elapsed elapsed' : float)
  (dur dur' : nat -> build_timings) (hashes : list hash_type) (num_keys : Z)
  (config : build_configuration) (s0 s0' b b' : builder.t)
  (timings timings' : build_timings) :
  counts_fit config ->
  builder.build_from_hashes elapsed dur hashes num_keys config s0
  = (b, Returns timings) ->
  builder.build_from_hashes elapsed' dur' hashes num_keys config s0'
  = (b', Returns timings') ->
  let P := builder.m_num_partitions b in
  builder.m_seed b = builder.m_seed b'
  /\ builder.m_num_keys b = builder.m_num_keys b'
  /\ builder.m_table_size b = builder.m_table_size b'
  /\ builder.m_num_partitions b = builder.m_num_partitions b'
  /\ builder.m_bucketer b = builder.m_bucketer b'
  /\ builder.m_offsets b = builder.m_offsets b'
  /\ length (builder.m_builders b) = length (builder.m_builders b')
  /\ (resize (Z.to_nat P) single_builder_default (builder.m_builders s0)
      = resize (Z.to_nat P) single_builder_default (builder.m_builders s0') ->
      builder.m_builders b = builder.m_builders b').
Proof.
  intros Hfit Hb Hb' P.
  destruct (built_counts _ _ _ _ _ _ _ _ Hfit Hb) as (HP & Hnp & _ & Hlo & Hlb).
  destruct (built_counts _ _ _ _ _ _ _ _ Hfit Hb') as (_ & Hnp' & _ & Hlo' & Hlb').
  destruct (built_fields _ _ _ _ _ _ _ _ Hb)
    as (Hs & Hn & _ & Hbk & _ & Hoff & Htab & Hbld).
  destruct (built_fields _ _ _ _ _ _ _ _ Hb')
    as (Hs' & Hn' & _ & Hbk' & _ & Hoff' & Htab' & Hbld').
  repeat split; try congruence.
  - apply (nth_ext _ _ 0 0); [congruence|].
    intros i Hi. rewrite Hoff, Hoff' by lia. reflexivity.
  - unfold P. rewrite Hnp. intros Hold. rewrite Hbld, Hbld', Hold.
    destruct Hfit as [HfitP HfitT].
    apply build_partitions_thread_invariant; try lia.
    change (0 <= builder.collapsed_num_partitions num_keys config < 2 ^ 63). lia.
Qed.

End BuilderReuse.

Section SingleReturns.

Context {H : Hasher} {SB : SkewBucketer} {E : Encoder} {EF : EliasFano}.
Context {PR : Primitives} {B : SingleBuilder H SB}.

Lemma single_build_returns (Minimal : bool) (elapsed : float)
  (sbuilder : single_builder) (config : build_configuration) (f0 : single_phf.t) :
  Minimal = minimal_output config ->
  single_phf.build Minimal elapsed sbuilder config f0
  = (fst (single_phf.build Minimal elapsed sbuilder config f0), Returns elapsed).
Proof.
  intros Hagree.
  destruct (single_phf_build_cases Minimal elapsed sbuilder config f0)
    as [[_ [f Hf]]|[Hne _]]; [|contradiction].
  now rewrite Hf.
Qed.

End SingleReturns.

Section PartitionedReturns.

Context {H : Hasher} {UB : UniformBucketer} {SB : SkewBucketer}.
Context {E : Encoder} {EF : EliasFano}.
Context {PR : Primitives} {B : SingleBuilder H SB}.

Lemma partitioned_build_returns (Minimal : bool) (elapsed : float)
  (b : builder.t) (config : build_configuration) (phf0 : partitioned_phf.t) :
  Minimal = minimal_output config ->
  partitioned_phf.build Minimal elapsed b config phf0
  = (fst (partitioned_phf.build Minimal elapsed b config phf0), Returns elapsed).
Proof.
  intros Hagree.
  destruct (phf_build_returns Minimal elapsed b config phf0 Hagree) as (phf & Hphf & _).
  now rewrite Hphf.
Qed.

End PartitionedReturns.


(** ** Sums in 64-bit arithmetic *)

#[local] Instance eq64_equivalence : Equivalence eq64.
Proof.
  unfold eq64. split.
  - intros a. reflexivity.
  - intros a b Hab. now symmetry.
  - intros a b c Hab Hbc. now transitivity (wrap64 b).
Qed.

#[local] Instance eq64_add : Proper (eq64 ==> eq64 ==> eq64) Z.add.
Proof.
  unfold eq64. intros a a' Ha b b' Hb.
  rewrite <- wrap64_add_l, <- wrap64_add_r, Ha, Hb.
  now rewrite wrap64_add_l, wrap64_add_r.
Qed.

Lemma eq64_wrap (a : Z) : eq64 (wrap64 a) a.
Proof. unfold eq64, wrap64. apply Z.mod_mod. discriminate. Qed.

Lemma eq64_fold_sum {A : Type} (g : A -> Z) (l : list A) (a : Z) :
  eq64 (fold_left (fun bits p => wrap64 (bits + g p)) l a) (a + zsum (map g l)).
Proof.
  revert a. induction l as [|x l IH]; intros a; simpl.
  - now rewrite Z.add_0_r.
  - rewrite IH, eq64_wrap. now rewrite Z.add_assoc.
Qed.

Lemma eq64_zsum {A : Type} (g g' : A -> Z) (l : list A) :
  (forall p, eq64 (g p) (g' p)) -> eq64 (zsum (map g l)) (zsum (map g' l)).
Proof.
  intros Hg. induction l as [|x l IH]; simpl; [reflexivity|].
  now rewrite Hg, IH.
Qed.

Lemma zsum_map_add {A : Type} (g g' : A -> Z) (l : list A) :
  zsum (map g l) + zsum (map g' l) = zsum (map (fun p => g p + g' p) l).
Proof.
  induction l as [|x l IH]; simpl; lia.
Qed.

Section Space.

Context {H : Hasher} {UB : UniformBucketer} {SB : SkewBucketer}.
Context {E : Encoder} {EF : EliasFano}.
Context {PR : Primitives} {B : SingleBuilder H SB}.
Context {SU : SpaceUsage UB SB E EF}.

Lemma single_num_bits (f : single_phf.t) :
  eq64 (single_phf.num_bits_for_pilots f + single_phf.num_bits_for_mapper f)
       (320 + skew_num_bits (single_phf.m_bucketer f)
        + encoder_num_bits (single_phf.m_pilots f)
        + 8 * ef_num_bytes (single_phf.m_free_slots f)).
Proof.
  unfold single_phf.num_bits_for_pilots, single_phf.num_bits_for_mapper.
  change (wrap64 (8 * (8 + 8 + 8 + 16))) with 320.
  rewrite !eq64_wrap. now rewrite (Z.mul_comm 8).
Qed.

(** X11.  [partitioned_phf::num_bits()] is, in 64-bit arithmetic, 256 bits
    for the members, the bits of the partition bucketer, and for every
    partition 64 bits for its offset and [num_bits()] of its single
    function: 384 bits and the bits of its bucketer, pilots and free
    slots. *)
Theorem num_bits_adds_up (phf : partitioned_phf.t) :
  partitioned_phf.num_bits phf
  = wrap64 (256 + uniform_num_bits (partitioned_phf.m_bucketer phf)
            + zsum (map (fun p => 64 + single_phf.num_bits (partitioned_phf.f p))
                        (partitioned_phf.m_partitions phf)))
  /\ partitioned_phf.num_bits phf
     = wrap64 (256 + uniform_num_bits (partitioned_phf.m_bucketer phf)
               + zsum (map (fun p =>
                              384
                              + skew_num_bits
                                  (single_phf.m_bucketer (partitioned_phf.f p))
                              + encoder_num_bits
                                  (single_phf.m_pilots (partitioned_phf.f p))
                              + 8 * ef_num_bytes
                                      (single_phf.m_free_slots (partitioned_phf.f p)))
                           (partitioned_phf.m_partitions phf))).
Proof.
  set (l := partitioned_phf.m_partitions phf).
  set (u := uniform_num_bits (partitioned_phf.m_bucketer phf)).
  assert (Hsum :
    eq64 (partitioned_phf.num_bits_for_pilots phf
          + partitioned_phf.num_bits_for_mapper phf)
         (256 + u
          + zsum (map (fun p =>
                         64 + (single_phf.num_bits_for_pilots (partitioned_phf.f p)
                               + single_phf.num_bits_for_mapper (partitioned_phf.f p)))
                      l))).
  { unfold partitioned_phf.num_bits_for_pilots, partitioned_phf.num_bits_for_mapper.
    fold l u.
    change (wrap64 (8 * (8 + 8 + 8 + 8))) with 256.
    change (wrap64 (8 * 8)) with 64.
    rewrite (eq64_fold_sum
               (fun p => wrap64 (64 + single_phf.num_bits_for_pilots
                                        (partitioned_phf.f p)))).
    rewrite (eq64_fold_sum
               (fun p => single_phf.num_bits_for_mapper (partitioned_phf.f p))).
    rewrite eq64_wrap, Z.add_0_l, <- Z.add_assoc, zsum_map_add.
    apply eq64_add; [reflexivity|]. apply eq64_zsum. intros p.
    rewrite eq64_wrap. now rewrite Z.add_assoc. }
  split.
  - unfold partitioned_phf.num_bits. change (eq64
      (partitioned_phf.num_bits_for_pilots phf
       + partitioned_phf.num_bits_for_mapper phf)
      (256 + u + zsum (map (fun p => 64 + single_phf.num_bits (partitioned_phf.f p)) l))).
    rewrite Hsum. apply eq64_add; [reflexivity|]. apply eq64_zsum. intros p.
    unfold single_phf.num_bits. now rewrite eq64_wrap.
  - unfold partitioned_phf.num_bits. fold l. change (eq64
      (partitioned_phf.num_bits_for_pilots phf
       + partitioned_phf.num_bits_for_mapper phf)
      (256 + u
       + zsum (map (fun p =>
                      384
                      + skew_num_bits (single_phf.m_bucketer (partitioned_phf.f p))
                      + encoder_num_bits (single_phf.m_pilots (partitioned_phf.f p))
                      + 8 * ef_num_bytes
                              (single_phf.m_free_slots (partitioned_phf.f p)))
                   l))).
    rewrite Hsum. apply eq64_add; [reflexivity|]. apply eq64_zsum. intros p.
    rewrite single_num_bits. unfold eq64. f_equal. lia.
Qed.

End Space.

Section FromKeys.

Context {H : Hasher} {UB : UniformBucketer} {SB : SkewBucketer}.
Context {E : Encoder} {EF : EliasFano}.
Context {PR : Primitives} {B : SingleBuilder H SB}.

Lemma build_from_keys_unfold (random_value : Z) (elapsed : float)
  (dur : nat -> build_timings) (keys : list key_type) (num_keys : Z)
  (config : build_configuration) :
  builder.build_from_keys random_value elapsed dur keys num_keys config
  = builder.build_from_hashes elapsed dur
      (map (fun key => hash key (if seed config =? invalid_seed
                                 then random_value else seed config)) keys)
      num_keys
      (with_seed (if seed config =? invalid_seed then random_value else seed config)
                 config).
Proof. reflexivity. Qed.

(** [partitioned_phf::build] reads [minimal_output] and [num_threads] of
    the configuration and nothing else. *)
Lemma phf_build_with_seed (Minimal : bool) (encoding : float) (b : builder.t)
  (s : Z) (config : build_configuration) :
  partitioned_phf.build Minimal encoding b (with_seed s config)
  = partitioned_phf.build Minimal encoding b config.
Proof. reflexivity. Qed.

(** X12.  From keys to positions.  A minimal function made by
    [build_in_internal_memory] stores the seed the keys were hashed with:
    the configured one, or the random one when the configuration holds
    [invalid_seed]; [operator()] hashes with it, and maps the keys one to
    one onto [[0, num_keys)] when every partition's single function does so
    on its partition.  The timings carry the clock readings of the
    partitioning and of the encoding. *)
Theorem minimal_function_from_keys (local : builder.t) (random_value : Z)
  (elapsed encoding : float) (dur : nat -> build_timings) (keys : list key_type)
  (num_keys : Z) (config : build_configuration) (phf0 phf : partitioned_phf.t)
  (timings : build_timings) :
  uniform_in_range -> counts_fit config ->
  num_keys = Z.of_nat (length keys) -> num_keys < u64_modulus ->
  partitioned_phf.build_in_internal_memory true local random_value elapsed encoding
    dur keys num_keys config phf0 = (phf, Returns timings) ->
  let s := if seed config =? invalid_seed then random_value else seed config in
  let hashes := map (fun key => hash key s) keys in
  let partitions := partitions_of hashes num_keys config in
  let part i := nth i (partitioned_phf.m_partitions phf)
                    partitioned_phf.partition_value_initialized in
  (forall i, (i < length partitions)%nat ->
     bijective_onto
       (map (single_phf.position true (partitioned_phf.f (part i)))
            (nth i partitions []))
       (Z.of_nat (length (nth i partitions [])))) ->
  partitioned_phf.seed phf = s
  /\ partitioned_phf.num_keys phf = num_keys
  /\ map (partitioned_phf.call true phf) keys
     = map (partitioned_phf.position true phf) hashes
  /\ bijective_onto (map (partitioned_phf.call true phf) keys) num_keys
  /\ partitioning_seconds timings = elapsed
  /\ encoding_seconds timings = encoding.
Proof.
  intros Hrange Hfit Hn Hlt Hmem s hashes partitions part Hsingle.
  unfold partitioned_phf.build_in_internal_memory in Hmem.
  rewrite build_from_keys_unfold in Hmem. fold s hashes in Hmem.
  destruct (builder.build_from_hashes elapsed dur hashes num_keys
              (with_seed s config) local) as [b [tm|e]] eqn:Hbuild;
    [|discriminate].
  rewrite <- (phf_build_with_seed true encoding b s config) in Hmem.
  destruct (partitioned_phf.build true encoding b (with_seed s config) phf0)
    as [phf' [enc|e]] eqn:Hphf; [|discriminate].
  injection Hmem as Hp Htm. subst phf' timings.
  cbn [partitioning_seconds encoding_seconds].
  assert (Hfit' : counts_fit (with_seed s config)) by exact Hfit.
  assert (Hn' : num_keys = Z.of_nat (length hashes))
    by (unfold hashes; now rewrite length_map).
  destruct (built_counts _ _ _ _ _ _ _ _ Hfit' Hbuild) as (HP & _ & Hlen & _).
  destruct (built_partitions _ _ _ _ _ _ _ _ _ _ _ _ _ Hfit' Hbuild Hphf)
    as (Hagree & Hseed & Hnk & _).
  assert (HP0 : 0 < builder.collapsed_num_partitions num_keys (with_seed s config))
    by lia.
  destruct (partitions_of_facts hashes num_keys (with_seed s config) Hrange
              HP0 Hn') as (_ & _ & Hsum).
  change (partitions_of hashes num_keys (with_seed s config)) with partitions
    in Hlen, Hsum.
  assert (Hinc : increments (with_seed s config) partitions = sizes partitions)
    by (unfold increments; now rewrite <- Hagree).
  assert (Hreturned : enc = encoding).
  { destruct (phf_build_returns true encoding b (with_seed s config) phf0 Hagree)
      as (q & Hq & _).
    rewrite Hphf in Hq. now injection Hq as _ ->. }
  assert (Helapsed : partitioning_seconds tm = elapsed).
  { destruct (build_from_hashes_guards _ _ _ _ _ _ _ _ Hbuild) as [Hc Hnz].
    rewrite (build_from_hashes_returns elapsed dur hashes num_keys
               (with_seed s config) local Hc Hnz) in Hbuild.
    now injection Hbuild as _ <-. }
  assert (Hcall : map (partitioned_phf.call true phf) keys
                  = map (partitioned_phf.position true phf) hashes).
  { unfold hashes. rewrite map_map. apply map_ext. intros key.
    unfold partitioned_phf.call. now rewrite Hseed. }
  split; [exact Hseed|]. split; [exact Hnk|]. split; [exact Hcall|].
  split; [|split; [exact Helapsed | exact Hreturned]].
  rewrite Hcall.
  assert (Hpos : forall i h, (i < length partitions)%nat ->
            In h (nth i partitions []) ->
            0 <= single_phf.position true (partitioned_phf.f (part i)) h
              < nth i (increments (with_seed s config) partitions) 0).
  { intros i h Hi Hh. rewrite Hinc, nth_sizes.
    destruct (Hsingle i Hi) as [_ Hr]. apply Hr. now apply in_map. }
  assert (Hsum' : zsum (increments (with_seed s config) partitions) < u64_modulus)
    by (rewrite Hinc, Hsum; exact Hlt).
  pose proof (positions_by_block true elapsed encoding enc dur hashes num_keys
                (with_seed s config) local b tm phf0 phf Hrange Hfit' Hbuild Hphf
                Hn' Hsum' Hpos) as Hperm.
  cbv zeta in Hperm.
  change (partitions_of hashes num_keys (with_seed s config)) with partitions
    in Hperm.
  rewrite Hinc in Hperm.
  apply (bijective_onto_permutation _ _ _ (Permutation_sym Hperm)).
  pose proof (blocks_tile
                (fun i => map (Z.add (prefix_sum (sizes partitions) i))
                              (map (single_phf.position true
                                      (partitioned_phf.f (part i)))
                                   (nth i partitions [])))
                (prefix_sum (sizes partitions)) (length partitions)) as Htile.
  destruct Htile as (_ & Hnd & Hin).
  - intros i Hi. rewrite prefix_sum_S by (rewrite sizes_length; exact Hi).
    rewrite nth_sizes. lia.
  - intros i Hi. rewrite prefix_sum_S by (rewrite sizes_length; exact Hi).
    rewrite nth_sizes. apply bijective_onto_shift. now apply Hsingle.
  - rewrite prefix_sum_0 in Hin.
    rewrite <- sizes_length, prefix_sum_all, Hsum in Hin.
    rewrite sizes_length in Hin.
    split; [exact Hnd | exact Hin].
Qed.

End FromKeys.

Section ErrorOrder.

Context {H : Hasher} {UB : UniformBucketer} {SB : SkewBucketer}.
Context {E : Encoder} {EF : EliasFano}.
Context {PR : Primitives} {B : SingleBuilder H SB}.

(** X13.  Which error [build_in_internal_memory] reports, for at least one
    key, when several apply: the one of the hash-collision guard; else
    [std::invalid_argument] for zero partitions, also when [minimal_output]
    does not fit either.  Whatever the builder throws leaves through the
    function, whose object is as it was.  Once the builder has returned, a
    [minimal_output] that does not fit the function's type gives
    [std::runtime_error] with the message of [partitioned_phf], the object
    again as it was, and one that fits makes the call return what [build]
    made, with the builder's timings and the clock reading of the
    encoding. *)
Theorem first_error_wins (Minimal : bool) (local : builder.t) (random_value : Z)
  (elapsed encoding : float) (dur : nat -> build_timings) (keys : list key_type)
  (num_keys : Z) (config : build_configuration) (phf0 : partitioned_phf.t) :
  0 < num_keys ->
  let built :=
    builder.build_from_keys random_value elapsed dur keys num_keys config local in
  let made :=
    partitioned_phf.build_in_internal_memory Minimal local random_value elapsed
      encoding dur keys num_keys config phf0 in
  (forall e, check_hash_collision_probability num_keys = Some e ->
     built = (local, Throws e) /\ made = (phf0, Throws e))
  /\ (check_hash_collision_probability num_keys = None ->
      num_partitions config = 0 ->
      built = (local, Throws (std_invalid_argument "number of partitions must be > 0"))
      /\ made
         = (phf0, Throws (std_invalid_argument "number of partitions must be > 0")))
  /\ (forall e, snd built = Throws e -> made = (phf0, Throws e))
  /\ (forall timings, snd built = Returns timings ->
      Minimal <> minimal_output config ->
      made = (phf0,
              Throws (std_runtime_error
                        (if Minimal
                         then "Cannot build partitioned_phf<..., ..., true> with minimal_output=false"
                         else "Cannot build partitioned_phf<..., ..., false> with minimal_output=true"))))
  /\ (forall timings, snd built = Returns timings ->
      Minimal = minimal_output config ->
      exists phf,
        made = (phf, Returns {| partitioning_seconds := partitioning_seconds timings;
                                mapping_ordering_seconds :=
                                  mapping_ordering_seconds timings;
                                searching_seconds := searching_seconds timings;
                                encoding_seconds := encoding |})
        /\ partitioned_phf.build Minimal encoding (fst built) config phf0
           = (phf, Returns encoding)).
Proof.
  intros _ built made.
  destruct (in_internal_memory_cases Minimal local random_value elapsed encoding
              dur keys num_keys config phf0) as (Hthrows & Hmismatch & Hfits).
  fold built made in Hthrows, Hmismatch, Hfits.
  split; [|split; [|split; [exact Hthrows|split; [exact Hmismatch | exact Hfits]]]].
  - intros e He.
    assert (Hbuilt : built = (local, Throws e)).
    { unfold built. rewrite build_from_keys_unfold.
      unfold builder.build_from_hashes, bind, throw. rewrite He. reflexivity. }
    split; [exact Hbuilt|]. apply Hthrows. now rewrite Hbuilt.
  - intros Hc Hz.
    assert (Hbuilt : built
                     = (local,
                        Throws (std_invalid_argument
                                  "number of partitions must be > 0"))).
    { unfold built. rewrite build_from_keys_unfold.
      match goal with
      | |- builder.build_from_hashes _ _ ?hs _ ?cfg _ = _ =>
          destruct (builder_throws_on_zero_partitions elapsed dur hs num_keys cfg
                      local Hz) as (e & He & Hwhat)
      end.
      rewrite He, (Hwhat Hc). reflexivity. }
    split; [exact Hbuilt|]. apply Hthrows. now rewrite Hbuilt.
Qed.

End ErrorOrder.

(** * The theorems at work on the small instance *)

Section Examples.

Existing Instance instance.hasher.
Existing Instance instance.uniform.
Existing Instance instance.skew.
Existing Instance instance.codec.
Existing Instance instance.ef.
Existing Instance instance.small.
Existing Instance instance.single.

Lemma instance_uniform_in_range : uniform_in_range.
Proof.
  unfold uniform_in_range. simpl. intros n x Hn. now apply Z.mod_pos_bound.
Qed.

Lemma returned_pair {S A : Type} (r : S * outcome A) (d : A) :
  instance.returned (snd r) = true ->
  r = (fst r, Returns (match snd r with Returns a => a | Throws _ => d end)).
Proof.
  destruct r as [s [a|e]]; simpl; [reflexivity | discriminate].
Qed.

Lemma example_build_returns (P T : Z) (minimal : bool) :
  In P [1; 5] -> In T [1; 2; 3] ->
  instance.example_build P T minimal 0.75
  = (instance.example_builder P T minimal 0.75,
     Returns (instance.example_timings P T minimal 0.75)).
Proof.
  intros HP HT. cbn [In] in HP, HT.
  unfold instance.example_builder, instance.example_timings.
  apply returned_pair.
  destruct HP as [<-|[<-|[]]], HT as [<-|[<-|[<-|[]]]], minimal;
    vm_compute; reflexivity.
Qed.

(** Seven keys in five partitions of sizes 3, 2, 0, 2, 0: the offsets are
    0, 3, 5, 5, 7 and the sizes add up to 7. *)
Lemma offsets_are_prefix_sums_example :
  let partitions :=
    partitions_of instance.example_hashes 7 (instance.example_config 5 1 true 0.75) in
  sizes partitions = [3; 2; 0; 2; 0]
  /\ zsum (sizes partitions) = 7
  /\ nth 3 (builder.m_offsets (instance.example_builder 5 1 true 0.75)) 0
     = prefix_sum (sizes partitions) 3.
Proof.
  pose proof (offsets_are_prefix_sums 0%float instance.example_durations
                instance.example_hashes 7 (instance.example_config 5 1 true 0.75)
                instance.fresh_builder _ _
                instance_uniform_in_range
                ltac:(unfold is_u64; simpl; split; [lia | reflexivity])
                eq_refl eq_refl
                (example_build_returns 5 1 true ltac:(simpl; auto) ltac:(simpl; auto)))
    as (_ & Hsum & Hoff).
  split; [vm_compute; reflexivity|]. split; [exact Hsum|].
  exact (proj1 (Hoff 3%nat ltac:(vm_compute; lia))).
Defined.

(** The table sizes of the five partitions are 5, 3, 1, 3, 1 and the
    builder reports their sum. *)
Lemma table_size_is_truncated_quotient_example :
  let config := instance.example_config 5 1 true 0.75 in
  let partitions := partitions_of instance.example_hashes 7 config in
  table_sizes config partitions = [5; 3; 1; 3; 1]
  /\ builder.m_table_size (instance.example_builder 5 1 true 0.75)
     = wrap64 (zsum (table_sizes config partitions)).
Proof.
  split; [vm_compute; reflexivity|].
  exact (proj1 (table_size_is_truncated_quotient 0%float instance.example_durations
                  instance.example_hashes 7 (instance.example_config 5 1 true 0.75)
                  instance.fresh_builder _ _
                  (example_build_returns 5 1 true ltac:(simpl; auto)
                                         ltac:(simpl; auto)))).
Defined.

(** C4 fails as worded: five keys in one partition with [alpha = 0.75] get
    the table size 6, the quotient 6.67 truncated, where rounding up would
    give 7. *)
Lemma table_size_is_not_rounded_up :
  builder.m_table_size
    (fst (builder.build_from_hashes 0%float instance.no_timings
            (firstn 5 instance.example_hashes) 5
            (instance.example_config 1 1 true 0.75) instance.fresh_builder))
  = 6
  /\ sizes (partitions_of (firstn 5 instance.example_hashes) 5
                          (instance.example_config 1 1 true 0.75)) = [5]
  /\ spec_table_size 5 0.75 = 7.
Proof.
  repeat split; vm_compute; reflexivity.
Defined.

(** Seven keys and five partitions requested: kept when
    [min_partition_size = 1], collapsed to one when it is 50000. *)
Lemma partition_count_collapses_example :
  builder.m_num_partitions (instance.example_builder 5 1 true 0.75) = 5
  /\ builder.m_num_partitions
       (fst (@builder.build_from_hashes _ _ _ instance.large _ 0%float
               instance.no_timings instance.example_hashes 7
               (instance.example_config 5 1 true 0.75) instance.fresh_builder))
     = 1.
Proof.
  split.
  - exact (proj1 (partition_count_collapses 0%float instance.example_durations
                    instance.example_hashes 7 (instance.example_config 5 1 true 0.75)
                    instance.fresh_builder _ _ ltac:(simpl; lia)
                    (example_build_returns 5 1 true ltac:(simpl; auto)
                                           ltac:(simpl; auto)))).
  - vm_compute. reflexivity.
Defined.

(** Partition 2 of the five is empty: its table size is 1, and with
    [minimal_output] its offset, 5, is also the offset of partition 3; the
    builder's table size is the sum 5 + 3 + 1 + 3 + 1 of the five table
    sizes, to which the two empty partitions add 1 each. *)
Lemma empty_partition_takes_one_slot_example :
  let config := instance.example_config 5 1 true 0.75 in
  let partitions := partitions_of instance.example_hashes 7 config in
  let offsets := builder.m_offsets (instance.example_builder 5 1 true 0.75) in
  nth 2 partitions [] = []
  /\ nth 2 (table_sizes config partitions) 0 = 1
  /\ nth 3 offsets 0 = nth 2 offsets 0
  /\ builder.m_table_size (instance.example_builder 5 1 true 0.75)
     = zsum (table_sizes config partitions)
  /\ zsum (table_sizes config partitions) = 13
  /\ Z.of_nat (length partitions)
     <= builder.m_table_size (instance.example_builder 5 1 true 0.75).
Proof.
  pose proof (empty_partition_takes_one_slot 0%float instance.example_durations
                instance.example_hashes 7 (instance.example_config 5 1 true 0.75)
                instance.fresh_builder _ _ eq_refl
                (example_build_returns 5 1 true ltac:(simpl; auto)
                                       ltac:(simpl; auto)))
    as (Hsize & Hoff & _ & _ & Htotal).
  assert (Hempty : nth 2 (partitions_of instance.example_hashes 7
                            (instance.example_config 5 1 true 0.75)) [] = [])
    by (vm_compute; reflexivity).
  assert (Hsum : zsum (table_sizes (instance.example_config 5 1 true 0.75)
                         (partitions_of instance.example_hashes 7
                            (instance.example_config 5 1 true 0.75))) = 13)
    by (vm_compute; reflexivity).
  assert (Hfit : zsum (table_sizes (instance.example_config 5 1 true 0.75)
                         (partitions_of instance.example_hashes 7
                            (instance.example_config 5 1 true 0.75))) < u64_modulus)
    by (rewrite Hsum; reflexivity).
  destruct (Htotal Hfit) as [Hplain Hge].
  split; [exact Hempty|]. split; [|split; [|split; [exact Hplain|split]]].
  - exact (proj2 (Hsize 2%nat ltac:(vm_compute; lia)) Hempty).
  - exact (proj1 (Hoff 2%nat ltac:(vm_compute; lia)) eq_refl Hempty).
  - exact Hsum.
  - exact Hge.
Defined.

(** The first key on the function of its partition. *)
Lemma single_position_as_specified_example :
  let f := partitioned_phf.f
             (nth 0 (partitioned_phf.m_partitions (instance.example_phf 5 1 true 0.75))
                  partitioned_phf.partition_value_initialized) in
  let h := nth 0 instance.example_hashes (0, 0) in
  single_phf.position true f h = spec_single_position true f h.
Proof.
  apply single_position_as_specified.
  - split; [vm_compute; discriminate | vm_compute; reflexivity].
  - split; [vm_compute; discriminate | vm_compute; reflexivity].
Defined.

Lemma example_phf_returns (P T : Z) :
  In P [1; 5] -> In T [1; 2; 3] ->
  partitioned_phf.build true 0%float (instance.example_builder P T true 0.75)
                        (instance.example_config P T true 0.75) instance.fresh_phf
  = (instance.example_phf P T true 0.75, Returns 0%float).
Proof.
  intros HP HT. cbn [In] in HP, HT.
  destruct (phf_build_returns true 0%float (instance.example_builder P T true 0.75)
              (instance.example_config P T true 0.75) instance.fresh_phf eq_refl)
    as (phf & Hphf & _).
  rewrite Hphf. unfold instance.example_phf, instance.example_phf_build.
  now rewrite Hphf.
Qed.

(** The seven keys are mapped onto 0, ..., 6 by the minimal function built
    with five partitions. *)
Lemma minimal_partitioned_phf_is_a_bijection_example :
  bijective_onto
    (map (partitioned_phf.position true (instance.example_phf 5 1 true 0.75))
         instance.example_hashes) 7.
Proof.
  refine (proj1 (minimal_partitioned_phf_is_a_bijection
                   0%float 0%float 0%float instance.example_durations
                   instance.example_hashes 7 (instance.example_config 5 1 true 0.75)
                   instance.fresh_builder _ _ instance.fresh_phf _
                   instance_uniform_in_range _ eq_refl eq_refl eq_refl
                   (example_build_returns 5 1 true ltac:(simpl; auto)
                                          ltac:(simpl; auto))
                   (example_phf_returns 5 1 ltac:(simpl; auto) ltac:(simpl; auto))
                   _)).
  - unfold counts_fit. simpl. lia.
  - intros i Hi. apply bijective_ontob_sound.
    assert (Hlen : length (partitions_of instance.example_hashes 7
                             (instance.example_config 5 1 true 0.75)) = 5%nat)
      by (vm_compute; reflexivity).
    rewrite Hlen in Hi.
    destruct i as [|[|[|[|[|i]]]]]; try lia; vm_compute; reflexivity.
Defined.

(** The build of the seven keys with two threads leaves the builder and the
    function object of the build with one thread. *)
Lemma thread_count_invariance_example :
  (exists timings2,
     instance.example_build 5 2 true 0.75
     = (instance.example_builder 5 1 true 0.75, Returns timings2))
  /\ partitioned_phf.build true 0%float (instance.example_builder 5 1 true 0.75)
                           (instance.example_config 5 2 true 0.75) instance.fresh_phf
     = (instance.example_phf 5 1 true 0.75, Returns 0%float).
Proof.
  pose proof (thread_count_invariance
                0%float 0%float 0%float 0%float 0%float
                instance.example_durations instance.example_durations
                instance.example_hashes 7 (instance.example_config 5 0 true 0.75)
                1 2 instance.fresh_builder _ _ true instance.fresh_phf _
                ltac:(simpl; lia) ltac:(lia) ltac:(lia)
                (example_build_returns 5 1 true ltac:(simpl; auto) ltac:(simpl; auto))
                (example_phf_returns 5 1 ltac:(simpl; auto) ltac:(simpl; auto)))
    as (Hbuilder & Hphf & _).
  split; [exact Hbuilder | exact Hphf].
Defined.

(** The sub-builders of the seven-key build run single-threaded under the
    builder's seed. *)
Lemma sub_builder_configuration_example :
  exists pconfig,
    num_threads pconfig = 1
    /\ verbose_output pconfig = false
    /\ seed pconfig = 1
    /\ num_partitions pconfig = 5.
Proof.
  destruct (sub_builder_configuration 0%float instance.example_durations
              instance.example_hashes 7 (instance.example_config 5 1 true 0.75)
              instance.fresh_builder _ _
              ltac:(unfold counts_fit; simpl; lia)
              (example_build_returns 5 1 true ltac:(simpl; auto) ltac:(simpl; auto)))
    as (pconfig & _ & _ & Hthreads & Hverbose & Hseed & _ & Hparts & _).
  exists pconfig. repeat split; auto.
Defined.

(** C8 fails as worded: with [c = 2^-13], 131072 keys and two partitions
    (kept: 65536 keys each on average), [c * n / log2 n = 16 / 17] rounds
    up to 1 bucket in all, and 1 / 2 truncates to [num_buckets = 0]. *)
Lemma sub_builder_num_buckets_can_be_zero :
  let config :=
    {| c := 0.0001220703125; alpha := 0.75; num_partitions := 2; num_buckets := 0;
       num_threads := 1; seed := 1; minimal_output := true;
       verbose_output := false |} in
  @builder.collapsed_num_partitions instance.large 131072 config = 2
  /\ instance.log2_of_power_of_two (u64_to_double 131072) = 17%float
  /\ num_buckets (@builder.partition_config instance.large config 2 1 131072) = 0.
Proof.
  repeat split; vm_compute; reflexivity.
Defined.

Lemma example_durations_nonneg (i : nat) :
  (0 <=? mapping_ordering_seconds (instance.example_durations i))%float = true.
Proof.
  destruct i as [|[|[|[|[|[|i]]]]]]; reflexivity.
Qed.

(** Five partitions on two threads: the threads get partitions 0-2 and
    3-4, their totals of [mapping_ordering] are 6 and 9, and 9 is
    reported. *)
Lemma reported_timings_are_thread_maxima_example :
  let partitions :=
    partitions_of instance.example_hashes 7 (instance.example_config 5 1 true 0.75) in
  let builders := repeat single_builder_default 5 in
  let reported :=
    snd (builder.build_partitions instance.example_durations partitions builders
           (instance.example_config 5 1 true 0.75) 2) in
  thread_ranges 5 2 = [(0, 3); (3, 5)]
  /\ map (range_total mapping_ordering_seconds instance.example_durations)
         (thread_ranges 5 2) = [6; 9]%float
  /\ is_maximum (mapping_ordering_seconds reported)
                (map (range_total mapping_ordering_seconds instance.example_durations)
                     (thread_ranges 5 2)).
Proof.
  split; [vm_compute; reflexivity|]. split; [vm_compute; reflexivity|].
  refine (proj1 (reported_timings_are_thread_maxima instance.example_durations
                   _ _ (instance.example_config 5 1 true 0.75) 2
                   ltac:(simpl; lia) ltac:(lia) _ _)).
  - intros i. apply example_durations_nonneg.
  - intros i. reflexivity.
Defined.



Lemma instance_fastmod_in_range (d : Z) :
  0 < d -> forall x M, 0 <= fastmod_u64 x M d < d.
Proof.
  intros Hd x M. apply Z.mod_pos_bound. exact Hd.
Qed.

Lemma instance_counts_fit (P T : Z) (minimal : bool) (a : float) :
  0 <= P < 2 ^ 63 -> 0 <= T < 2 ^ 63 ->
  counts_fit (instance.example_config P T minimal a).
Proof.
  intros HP HT. split; assumption.
Qed.

(** Five partitions on two threads get 3 and 2; two partitions on four
    threads get one each, and two threads get none. *)
Lemma thread_ranges_closed_form_example :
  thread_ranges 5 2 = [(0, 3); (3, 5)]
  /\ thread_ranges 2 4 = [(0, 1); (1, 2); (2, 2); (2, 2)].
Proof.
  split.
  - exact (proj1 (thread_ranges_closed_form 5 2 ltac:(lia) ltac:(lia))).
  - exact (proj1 (thread_ranges_closed_form 2 4 ltac:(lia) ltac:(lia))).
Defined.

(** Two threads on five slots: the first thread's range ends where the
    second one's begins. *)
Lemma threads_never_share_a_slot_example :
  let p := start_pool Z [0; 0; 0; 0; 0] 5 2 in
  let th := {| th_begin := 0; th_end := 3; th_timings := build_timings_default |} in
  let th' := {| th_begin := 3; th_end := 5; th_timings := build_timings_default |} in
  nth_error (threads p) 0 = Some th
  /\ nth_error (threads p) 1 = Some th'
  /\ th_end th <= th_begin th'
  /\ length (slots p) = 5%nat.
Proof.
  intros p th th'.
  pose proof (threads_never_share_a_slot Z (fun _ x => x + 1) (fun _ acc => acc)
                [0; 0; 0; 0; 0] 5 2 p 0 1 th th'
                ltac:(lia) ltac:(lia) (par_steps_refl _ _ _ p) eq_refl eq_refl)
    as (_ & Hord & _ & Hlen).
  split; [reflexivity|]. split; [reflexivity|].
  split; [apply Hord; lia | exact Hlen].
Defined.

(** Of the seven keys, partition 0 holds the three whose mix is 0 modulo
    5, in input order. *)
Lemma partitions_keep_input_order_example :
  let b := instance.example_builder 5 1 true 0.75 in
  nth 0 (partitions_of instance.example_hashes 7
                       (instance.example_config 5 1 true 0.75)) []
  = filter (fun h => uniform_bucket (builder.m_bucketer b) (hash_mix h) =? 0)
           (firstn 7 instance.example_hashes).
Proof.
  exact (proj1 (partitions_keep_input_order 0%float instance.example_durations
                  instance.example_hashes 7 (instance.example_config 5 1 true 0.75)
                  instance.fresh_builder _ _ 0%nat
                  instance_uniform_in_range
                  (instance_counts_fit 5 1 true 0.75 ltac:(lia) ltac:(lia))
                  (example_build_returns 5 1 true ltac:(simpl; auto)
                                         ltac:(simpl; auto))
                  ltac:(vm_compute; lia))).
Defined.

(** A hash that is no key is still sent to one of the five partitions. *)
Lemma queries_stay_in_bounds_example :
  let phf := instance.example_phf 5 1 true 0.75 in
  0 <= uniform_bucket (partitioned_phf.m_bucketer phf)
                      (@hash_mix instance.hasher (12345, 678))
    < Z.of_nat (length (partitioned_phf.m_partitions phf))
  /\ length (partitioned_phf.m_partitions phf) = 5%nat.
Proof.
  intros phf.
  pose proof (queries_stay_in_bounds true 0%float 0%float 0%float
                instance.example_durations instance.example_hashes 7
                (instance.example_config 5 1 true 0.75)
                instance.fresh_builder _ _ instance.fresh_phf _ (12345, 678)
                instance_uniform_in_range
                (instance_counts_fit 5 1 true 0.75 ltac:(lia) ltac:(lia))
                (example_build_returns 5 1 true ltac:(simpl; auto) ltac:(simpl; auto))
                (example_phf_returns 5 1 ltac:(simpl; auto) ltac:(simpl; auto)))
    as (Hq & _ & Hlen & _).
  split; [exact Hq|]. unfold phf. rewrite Hlen. vm_compute. reflexivity.
Defined.

(** Without [minimal_output] the seven keys get seven distinct positions
    below the table size, 13. *)
Lemma nonminimal_partitioned_phf_is_injective_example :
  let phf :=
    fst (partitioned_phf.build false 0%float (instance.example_builder 5 1 false 0.75)
           (instance.example_config 5 1 false 0.75) instance.fresh_phf) in
  injective_into (map (partitioned_phf.position false phf) instance.example_hashes)
                 (partitioned_phf.table_size phf)
  /\ partitioned_phf.table_size phf = 13.
Proof.
  intros phf.
  pose proof (nonminimal_partitioned_phf_is_injective 0%float 0%float 0%float
                instance.example_durations instance.example_hashes 7
                (instance.example_config 5 1 false 0.75)
                instance.fresh_builder _ _ instance.fresh_phf phf
                instance_uniform_in_range
                (instance_counts_fit 5 1 false 0.75 ltac:(lia) ltac:(lia))
                eq_refl
                (example_build_returns 5 1 false ltac:(simpl; auto)
                                       ltac:(simpl; auto))
                (partitioned_build_returns false 0%float
                   (instance.example_builder 5 1 false 0.75)
                   (instance.example_config 5 1 false 0.75) instance.fresh_phf
                   eq_refl)) as Hinj.
  cbv zeta in Hinj.
  destruct Hinj as (Hinj & Htotal & _).
  - vm_compute. reflexivity.
  - intros i Hi. apply injective_intob_sound.
    assert (Hlen : length (partitions_of instance.example_hashes 7
                             (instance.example_config 5 1 false 0.75)) = 5%nat)
      by (vm_compute; reflexivity).
    rewrite Hlen in Hi.
    destruct i as [|[|[|[|[|i]]]]]; try lia; vm_compute; reflexivity.
  - split; [exact Hinj|]. rewrite Htotal. vm_compute. reflexivity.
Defined.

(** The function of three keys, built into a new object and into one that
    held something else, answers alike. *)
Lemma rebuilt_single_function_forgets_example :
  let config := instance.example_config 1 1 true 0.75 in
  let sbuilder :=
    single_build_from_hashes single_builder_default
      (firstn 3 instance.example_hashes) 3 config in
  let used :=
    single_phf.set_m_free_slots [5; 6; 7] single_phf.value_initialized in
  let h := nth 0 instance.example_hashes (0, 0) in
  single_phf.position true
    (fst (single_phf.build true 0%float sbuilder config single_phf.value_initialized)) h
  = single_phf.position true
      (fst (single_phf.build true 0%float sbuilder config used)) h.
Proof.
  intros config sbuilder used h.
  refine (proj1 (rebuilt_single_function_forgets true 0%float 0%float 0%float 0%float
                   sbuilder config single_phf.value_initialized used _ _ h
                   (instance_fastmod_in_range _ _)
                   (single_build_returns true 0%float sbuilder config _ eq_refl)
                   (single_build_returns true 0%float sbuilder config _ eq_refl))).
  vm_compute. reflexivity.
Defined.


(** Seven keys with one partition: the only partition holds the seven
    hashes and starts at offset 0. *)
Lemma one_partition_is_the_single_function_example :
  partitions_of instance.example_hashes 7 (instance.example_config 1 1 true 0.75)
  = [firstn 7 instance.example_hashes]
  /\ builder.m_offsets (instance.example_builder 1 1 true 0.75) = [0].
Proof.
  pose proof (one_partition_is_the_single_function true 0%float 0%float 0%float
                instance.example_durations instance.example_hashes 7
                (instance.example_config 1 1 true 0.75)
                instance.fresh_builder _ _ instance.fresh_phf _
                instance_uniform_in_range
                (instance_counts_fit 1 1 true 0.75 ltac:(lia) ltac:(lia))
                (example_build_returns 1 1 true ltac:(simpl; auto) ltac:(simpl; auto))
                (example_phf_returns 1 1 ltac:(simpl; auto) ltac:(simpl; auto))
                ltac:(vm_compute; reflexivity))
    as (Hparts & Hoff & _).
  split; [exact Hparts | exact Hoff].
Defined.

(** A second build of the seven keys on the builder of the first leaves
    the offsets of a build on a new builder. *)
Lemma rebuilt_builder_forgets_example :
  let config := instance.example_config 5 1 true 0.75 in
  let used := instance.example_builder 1 1 true 0.75 in
  builder.m_offsets
    (fst (builder.build_from_hashes 0%float instance.example_durations
            instance.example_hashes 7 config used))
  = builder.m_offsets (instance.example_builder 5 1 true 0.75).
Proof.
  intros config used.
  assert (Hused :
    builder.build_from_hashes 0%float instance.example_durations
      instance.example_hashes 7 config used
    = (fst (builder.build_from_hashes 0%float instance.example_durations
              instance.example_hashes 7 config used),
       Returns (match snd (builder.build_from_hashes 0%float
                             instance.example_durations instance.example_hashes 7
                             config used) with
                | Returns t => t
                | Throws _ => build_timings_default
                end))).
  { apply returned_pair. vm_compute. reflexivity. }
  pose proof (rebuilt_builder_forgets 0%float 0%float instance.example_durations
                instance.example_durations instance.example_hashes 7 config
                used instance.fresh_builder _ _ _ _
                (instance_counts_fit 5 1 true 0.75 ltac:(lia) ltac:(lia))
                Hused
                (example_build_returns 5 1 true ltac:(simpl; auto) ltac:(simpl; auto)))
    as (_ & _ & _ & _ & _ & Hoff & _).
  exact Hoff.
Defined.

(** From the seven keys to the positions 0, ..., 6: [operator()] of the
    function made by [build_in_internal_memory] with seed 1. *)
Lemma minimal_function_from_keys_example :
  let made :=
    partitioned_phf.build_in_internal_memory true instance.fresh_builder 0
      0%float 0%float instance.example_durations instance.example_keys 7
      (instance.example_config 5 1 true 0.75) instance.fresh_phf in
  partitioned_phf.seed (fst made) = 1
  /\ bijective_onto (map (partitioned_phf.call true (fst made)) instance.example_keys) 7.
Proof.
  intros made.
  assert (Hmade : made = (fst made,
                          Returns (match snd made with
                                   | Returns t => t
                                   | Throws _ => build_timings_default
                                   end))).
  { apply returned_pair. vm_compute. reflexivity. }
  pose proof (minimal_function_from_keys instance.fresh_builder 0 0%float 0%float
                instance.example_durations instance.example_keys 7
                (instance.example_config 5 1 true 0.75) instance.fresh_phf _ _
                instance_uniform_in_range
                (instance_counts_fit 5 1 true 0.75 ltac:(lia) ltac:(lia))
                eq_refl eq_refl Hmade) as Hkeys.
  cbv zeta in Hkeys.
  destruct Hkeys as (Hseed & _ & _ & Hbij & _).
  - intros i Hi. apply bijective_ontob_sound.
    assert (Hlen : length (partitions_of instance.example_hashes 7
                             (instance.example_config 5 1 true 0.75)) = 5%nat)
      by (vm_compute; reflexivity).
    change (i < length (partitions_of instance.example_hashes 7
                          (instance.example_config 5 1 true 0.75)))%nat in Hi.
    rewrite Hlen in Hi.
    destruct i as [|[|[|[|[|i]]]]]; try lia; vm_compute; reflexivity.
  - split; [exact Hseed | exact Hbij].
Defined.

(** One key with [alpha = 1]: the quotient is 1 and the table size 2; no
    key: the quotient is 0 and the table size 1. *)
Lemma table_size_avoids_powers_of_two_example :
  builder.partition_table_size (instance.example_config 1 1 true 1) 1 = 2
  /\ builder.partition_table_size (instance.example_config 1 1 true 0.75) 0 = 1.
Proof.
  split.
  - exact (proj2 (proj2 (table_size_avoids_powers_of_two
                           (instance.example_config 1 1 true 1) 1)) eq_refl).
  - exact (proj1 (proj2 (table_size_avoids_powers_of_two
                           (instance.example_config 1 1 true 0.75) 0)) eq_refl).
Defined.

(** Zero partitions and a [minimal_output] that does not fit: the error
    is the one for the partitions. *)
Lemma first_error_wins_example :
  partitioned_phf.build_in_internal_memory true instance.fresh_builder 0
    0%float 0%float instance.no_timings instance.example_keys 7
    (instance.example_config 0 1 false 0.75) instance.fresh_phf
  = (instance.fresh_phf,
     Throws (std_invalid_argument "number of partitions must be > 0")).
Proof.
  exact (proj2 (proj1 (proj2 (first_error_wins true instance.fresh_builder 0
                                0%float 0%float instance.no_timings
                                instance.example_keys 7
                                (instance.example_config 0 1 false 0.75)
                                instance.fresh_phf eq_refl))
                  eq_refl eq_refl)).
Defined.

(** The first key is in partition 3 of the minimal function, whose range
    is [[5, 7)], and gets a position in it. *)
Lemma keys_of_a_partition_share_a_range_example :
  let config := instance.example_config 5 1 true 0.75 in
  let phf := instance.example_phf 5 1 true 0.75 in
  let h := nth 0 instance.example_hashes (0, 0) in
  let i := Z.to_nat (uniform_bucket (partitioned_phf.m_bucketer phf) (hash_mix h)) in
  let part := nth i (partitioned_phf.m_partitions phf)
                  partitioned_phf.partition_value_initialized in
  partitioned_phf.offset part <= partitioned_phf.position true phf h
  < partitioned_phf.offset part
    + nth i (increments config (partitions_of instance.example_hashes 7 config)) 0.
Proof.
  intros config phf h i part.
  assert (Hi : i = 3%nat) by (vm_compute; reflexivity).
  unfold part. rewrite Hi.
  refine (proj1 (proj2 (keys_of_a_partition_share_a_range true 0%float 0%float
                          0%float instance.example_durations
                          instance.example_hashes 7 config instance.fresh_builder
                          _ _ instance.fresh_phf phf 3%nat h
                          instance_uniform_in_range
                          (instance_counts_fit 5 1 true 0.75 ltac:(lia) ltac:(lia))
                          (example_build_returns 5 1 true ltac:(simpl; auto)
                                                 ltac:(simpl; auto))
                          (example_phf_returns 5 1 ltac:(simpl; auto)
                                               ltac:(simpl; auto))
                          _ _ _ _))).
  - vm_compute. reflexivity.
  - vm_compute. lia.
  - vm_compute. reflexivity.
  - split; [vm_compute; discriminate | vm_compute; reflexivity].
Defined.

End Examples.
